(** * DwarFS: the FUSE driver facade, the Nilsimsa similarity score and the
      Rice++ block encoder

    A shallow embedding of

    - [include/dwarfs/nilsimsa.h]       (macro [DWARFS_NILSIMSA_SIMILARITY]),
    - [ricepp/include/ricepp/detail/encode.h]
                                        ([compute_best_split], [encode_block]),
    - [src/dwarfs_main.cpp]             (the low-level FUSE operations and
                                         [dwarfs_main]),

    followed by the properties of these functions.  Unsigned machine
    integers are values of [Z] with the wrap-around written out, C++
    exceptions are an error monad, the replies sent to the FUSE session are
    a trace of events. *)

From Stdlib Require Import ZArith List String Ascii Bool Lia.
From Stdlib Require Import Floats.SpecFloat DecimalString.
Import ListNotations.

Local Open Scope list_scope.
Local Open Scope Z_scope.

(* ================================================================== *)
(** * Definitions *)
(* ================================================================== *)

(** ** Nilsimsa similarity ([include/dwarfs/nilsimsa.h]) *)

Module Nilsimsa.

(** [nilsimsa::hash_type] is [std::array<uint64_t, 4>]. *)
Record hash_type : Type := mk_hash
  { word0 : Z; word1 : Z; word2 : Z; word3 : Z }.

(** [a[i]] for [i] in [0, 4). *)
Definition at_ (a : hash_type) (i : nat) : Z :=
  match i with
  | O => word0 a
  | 1%nat => word1 a
  | 2%nat => word2 a
  | _ => word3 a
  end.

(** Number of set bits among the [n] low bits of [x]. *)
Fixpoint popcount_bits (n : nat) (x : Z) : Z :=
  match n with
  | O => 0
  | S k => Z.b2z (Z.testbit x (Z.of_nat k)) + popcount_bits k x
  end.

(** [__builtin_popcountl] / [__builtin_popcountll] on a [uint64_t]. *)
Definition popcountl (x : Z) : Z := popcount_bits 64 x.

(** The body of [DWARFS_NILSIMSA_SIMILARITY(r, a, b)]:
    [bits = 0; for (i = 0; i < 4; ++i) bits += popcount(a[i] ^ b[i]);
     r 255 - bits]. *)
Definition similarity_bits (a b : hash_type) : Z :=
  fold_left (fun bits i => bits + popcountl (Z.lxor (at_ a i) (at_ b i)))
            (seq 0 4) 0.

Definition similarity (a b : hash_type) : Z := 255 - similarity_bits a b.

(** Bit [j] of word [i] differs between the two hashes. *)
Definition bit_differs (a b : hash_type) (i : nat) (j : Z) : Prop :=
  Z.testbit (at_ a i) j <> Z.testbit (at_ b i) j.

End Nilsimsa.

(** ** Rice++ block encoder ([ricepp/include/ricepp/detail/encode.h]) *)

Module Ricepp.

(** Truncation to an unsigned [w]-bit integer, and the conversion of an
    unsigned value to [int] (two's complement, 32 bits). *)
Definition wrap (w x : Z) : Z := x mod 2 ^ w.
Definition to_int (x : Z) : Z := (x + 2 ^ 31) mod 2 ^ 32 - 2 ^ 31.

(** [std::countl_zero] on a [uint64_t] and [std::countr_zero] on an
    [unsigned] (32 bits). *)
Definition countl_zero64 (x : Z) : Z :=
  if x <=? 0 then 64 else 63 - Z.log2 x.

Fixpoint pos_ctz (p : positive) : Z :=
  match p with
  | xO q => 1 + pos_ctz q
  | _ => 0
  end.

Definition countr_zero (x : Z) : Z :=
  match x with
  | Zpos p => pos_ctz p
  | _ => 32
  end.

(** The template parameter [PixelTraits]: the width of its [value_type]
    (an unsigned integral type), its [kBitCount] and its [read]. *)
Class PixelTraits : Type :=
  { value_bits : Z;
    kBitCount : Z;
    read : Z -> Z }.

(** The calls received by the [BitstreamWriter], in order:
    [write_bits(value, nbits)], [write_bit(bit)] and
    [write_bit(bit, repeat)]. *)
Inductive write_op : Type :=
| write_bits (value nbits : Z)
| write_bit (bit : bool)
| write_bit_repeat (bit : bool) (repeat : Z).

Section Encode.
Context {traits : PixelTraits}.

(** Width of the type in which [value_type] operands are computed after the
    integral promotions. *)
Definition promoted_bits : Z := Z.max value_bits 32.

(** The lambda [bits_for_fs] of [compute_best_split]; [bits] is an
    [unsigned], the result a [size_t]. *)
Definition bits_for_fs (delta : list Z) (size : nat) (fs : Z) : Z :=
  let mask := wrap promoted_bits (Z.shiftl (2 ^ value_bits - 1) fs) in
  let bits :=
    fold_left (fun bits i => wrap 32 (bits + Z.land (nth i delta 0) mask))
              (seq 0 size) 0 in
  wrap 64 (Z.of_nat size * (fs + 1) + Z.shiftr bits fs).

(** The [while (cand_fs > 0 && cand_fs < FsMax)] loop; [None] when the
    fuel runs out. *)
Fixpoint split_loop (fuel : nat) (FsMax : Z) (delta : list Z) (size : nat)
    (direction cand_fs bits : Z) : option (Z * Z) :=
  if (0 <? cand_fs) && (wrap 32 cand_fs <? FsMax) then
    match fuel with
    | O => None
    | S fuel' =>
        let tmp := bits_for_fs delta size (cand_fs + direction) in
        if wrap 64 bits <? tmp then Some (cand_fs, bits)
        else split_loop fuel' FsMax delta size direction
                        (cand_fs + direction) (to_int tmp)
    end
  else Some (cand_fs, bits).

(** [compute_best_split<FsMax>(delta, size, sum)], returning
    [std::pair<unsigned, unsigned>].  The division and the shifts are
    those of [Z]; C++ defines them for [size > 0] and for shift counts
    below 32, which is where [encode_block] uses them. *)
Definition compute_best_split (FsMax : Z) (delta : list Z) (size : nat)
    (sum : Z) : option (Z * Z) :=
  let kMaxBits := 64 in
  let start_fs :=
    kMaxBits - Z.min kMaxBits (countl_zero64 (sum / Z.of_nat size) + 2) in
  let bits0 := bits_for_fs delta size start_fs in
  let bits1 := bits_for_fs delta size (start_fs + 1) in
  let '(cand_fs, bits, direction) :=
    if bits1 <=? bits0 then (start_fs + 1, to_int bits1, 1)
    else (start_fs, to_int bits0, -1) in
  let res :=
    if negb (bits0 =? bits1) then
      split_loop (Z.to_nat FsMax) FsMax delta size direction cand_fs bits
    else Some (cand_fs, bits) in
  match res with
  | Some (cand_fs, bits) => Some (wrap 32 cand_fs, wrap 32 bits)
  | None => None
  end.

Definition kPixelBits : Z := wrap 32 kBitCount.
Definition kFsBits : Z := countr_zero kPixelBits.
Definition kFsMax : Z := wrap 32 (kPixelBits - 2).
Definition kPixelMsb : Z := wrap value_bits (Z.shiftl 1 (kPixelBits - 1)).

(** One iteration of the first loop of [encode_block]; the state is
    [(delta, sum, last)]. *)
Definition delta_step (st : list Z * Z * Z) (px : Z) : list Z * Z * Z :=
  let '(delta, sum, last) := st in
  let pixel := read px in
  let diff := wrap value_bits (pixel - last) in
  let d :=
    wrap value_bits
      (if negb (Z.land diff kPixelMsb =? 0) then Z.lnot (Z.shiftl diff 1)
       else Z.shiftl diff 1) in
  (delta ++ [d], wrap 64 (sum + d), pixel).

(** The Rice entropy coding of one difference value. *)
Definition rice_ops (fs : Z) (diff : Z) : list write_op :=
  let top := Z.shiftr diff fs in
  (if 0 <? top then [write_bit_repeat false top] else [])
  ++ [write_bit true; write_bits diff fs].

(** [encode_block<MaxBlockSize, PixelTraits>(block, writer, traits,
    last_value)]: the calls made on [writer] and the new [last_value].
    [None] stands for a failed [assert(block.size() <= MaxBlockSize)] (or
    for a loop of [compute_best_split] that ran out of fuel). *)
Definition encode_block (MaxBlockSize : nat) (block : list Z)
    (last_value : Z) : option (list write_op * Z) :=
  if (MaxBlockSize <? List.length block)%nat then None
  else
    let '(delta, sum, last) := fold_left delta_step block ([], 0, last_value) in
    let last_value := last in
    if sum =? 0 then Some ([write_bits 0 kFsBits], last_value)
    else
      match compute_best_split kFsMax delta (List.length block) sum with
      | None => None
      | Some (fs, bits_used) =>
          if (kFsMax <=? fs)
             || (wrap 64 (kPixelBits * Z.of_nat (List.length block)) <=? bits_used)
          then
            Some (write_bits (wrap 32 (kFsMax + 1)) kFsBits
                    :: map (fun px => write_bits px kPixelBits) block,
                  last_value)
          else
            Some (write_bits (wrap 32 (fs + 1)) kFsBits
                    :: List.concat (map (rice_ops fs) delta),
                  last_value)
      end.

(** Every pixel of the block, as read through the traits, equals its
    predecessor; the predecessor of the first pixel is [last]. *)
Fixpoint equals_predecessor (last : Z) (block : list Z) : Prop :=
  match block with
  | [] => True
  | px :: rest => read px = last /\ equals_predecessor (read px) rest
  end.

End Encode.

(** 16-bit pixels stored in host byte order without unused bits. *)
Definition uint16_traits : PixelTraits :=
  {| value_bits := 16; kBitCount := 16; read := fun px => px |}.

End Ricepp.

(** ** The FUSE driver ([src/dwarfs_main.cpp]) *)

(** Values of [<errno.h>] (Linux; [ENOATTR] is the macOS value) and of
    [<fcntl.h>] (Linux). *)
Module Errno.
Definition ENOENT : Z := 2.
Definition EIO : Z := 5.
Definition EBADF : Z := 9.
Definition EACCES : Z := 13.
Definition ENOTDIR : Z := 20.
Definition EISDIR : Z := 21.
Definition ERANGE : Z := 34.
Definition ENODATA : Z := 61.
Definition ENOATTR : Z := 93.
End Errno.

Module Fcntl.
Definition O_RDONLY : Z := 0.
Definition O_WRONLY : Z := 1.
Definition O_RDWR : Z := 2.
Definition O_TRUNC : Z := 512.
Definition O_APPEND : Z := 1024.
(** [#define O_ACCMODE (O_RDONLY | O_WRONLY | O_RDWR)] *)
Definition O_ACCMODE : Z := Z.lor (Z.lor O_RDONLY O_WRONLY) O_RDWR.
End Fcntl.

(** IEEE 754 binary64 values ([double]), as [spec_float]. *)
Module Double.
Definition prec : Z := 53.
Definition emax : Z := 1024.
(** [std::numeric_limits<double>::max()] *)
Definition max : spec_float := S754_finite false 9007199254740991 971.
(** The literals [0.0], [1.0] and [0.8] (rounded to nearest). *)
Definition zero : spec_float := S754_zero false.
Definition one : spec_float := S754_finite false 4503599627370496 (-52).
Definition lit_0_8 : spec_float := S754_finite false 7205759403792794 (-53).
(** [a < b] on doubles; [false] when either side is a NaN. *)
Definition lt (a b : spec_float) : bool := SFltb a b.
(** A finite, well-formed binary64 value. *)
Definition finite (x : spec_float) : Prop :=
  match x with
  | S754_zero _ => True
  | S754_finite _ m e => bounded prec emax m e = true
  | _ => False
  end.
End Double.

Module Dwarfs.
Import Errno Fcntl.

(** *** Exceptions and [checked_call] *)

Inductive exception : Type :=
| system_error (errno : Z)          (* dwarfs::system_error *)
| filesystem_error (what : string)  (* std::filesystem::filesystem_error *)
| std_exception (what : string).    (* any other std::exception *)

Inductive result (A : Type) : Type :=
| Ok (a : A)
| Throw (e : exception).
Arguments Ok {A} a.
Arguments Throw {A} e.

(** How a piece of code ends: it returns, it throws, or an [assert]
    fails, which no handler catches. *)
Inductive outcome (A : Type) : Type :=
| Return (a : A)
| Raise (e : exception)
| Abort.
Arguments Return {A} a.
Arguments Raise {A} e.
Arguments Abort {A}.

(** Code that updates a state of type [S]. *)
Definition M (S A : Type) : Type := S -> S * outcome A.

Definition ret {S A : Type} (a : A) : M S A := fun s => (s, Return a).

Definition bind {S A B : Type} (m : M S A) (k : A -> M S B) : M S B :=
  fun s =>
    match m s with
    | (s', Return a) => k a s'
    | (s', Raise e) => (s', Raise e)
    | (s', Abort) => (s', Abort)
    end.

Definition throw {S A : Type} (e : exception) : M S A :=
  fun s => (s, Raise e).

Definition abort {S A : Type} : M S A := fun s => (s, Abort).

Definition modify {S : Type} (f : S -> S) : M S unit :=
  fun s => (f s, Return tt).

Definition lift {S A : Type} (r : result A) : M S A :=
  match r with
  | Ok a => ret a
  | Throw e => throw e
  end.

Declare Scope monad_scope.
Delimit Scope monad_scope with monad.
Notation "x <- m ;; k" := (bind m (fun x => k))
  (at level 61, m at next level, right associativity) : monad_scope.
Notation "m ;;; k" := (bind m (fun _ => k))
  (at level 61, right associativity) : monad_scope.
Local Open Scope monad_scope.

(** [assert(res); ... *res] *)
Definition assert_some {S A : Type} (o : option A) : M S A :=
  match o with
  | Some a => ret a
  | None => abort
  end.

(** [checked_call(log_, f)]: a [dwarfs::system_error] becomes its errno,
    any other [std::exception] becomes [EIO]. *)
Definition checked_call {S : Type} (f : M S Z) : M S Z :=
  fun s =>
    match f s with
    | (s', Raise (system_error errno)) => (s', Return errno)
    | (s', Raise (filesystem_error _)) => (s', Return EIO)
    | (s', Raise (std_exception _)) => (s', Return EIO)
    | r => r
    end.

(** *** Build configuration and process state *)

Record build_config : Type :=
  { DWARFS_PERFMON_ENABLED : bool;
    DWARFS_BUILTIN_MANPAGE : bool;
    APPLE : bool }.

Definition FUSE_ROOT_ID : Z := 1.

Definition pid_xattr : string := "user.dwarfs.driver.pid".
Definition perfmon_xattr : string := "user.dwarfs.driver.perfmon".
Definition inodeinfo_xattr : string := "user.dwarfs.inodeinfo".

Definition nl : string := String (ascii_of_nat 10) EmptyString.
Definition nul : string := String (ascii_of_nat 0) EmptyString.

(** [struct fuse_file_info], the fields used by the driver. *)
Record fuse_file_info : Type :=
  { flags : Z; fh : Z; direct_io : bool; keep_cache : bool }.

(** The parts of [dwarfs_userdata] read by the operations, at one
    request: [opts.cache_files], [perfmon] (the text that [summarize]
    writes at this request, when a monitor exists) and the process id
    returned by [getpid]. *)
Record dwarfs_userdata : Type :=
  { opts_cache_files : bool;
    perfmon : option string;
    getpid : Z }.

(** *** The interface of [filesystem_v2] used by the operations.

    [filesystem_v2] is declared in [dwarfs/filesystem_v2.h]; the
    operations are stated for every implementation of the members they
    call.  The accessors of the metadata view are functions of the
    immutable image ([getattr] gives the error code and the [file_stat]
    it fills); [readv] gives the [ssize_t] result and the filled buffer,
    or throws. *)
Class filesystem_v2 : Type :=
  { inode_view : Type;
    directory_view : Type;
    file_stat : Type;
    iovec : Type;
    st_ino : file_stat -> Z;
    find : Z -> option inode_view;
    find_name : Z -> string -> option inode_view;
    getattr : inode_view -> Z * file_stat;
    is_directory : inode_view -> bool;
    inode_num : inode_view -> Z;
    opendir : inode_view -> option directory_view;
    dirsize : directory_view -> Z;
    readdir : directory_view -> Z -> option (inode_view * string);
    readv : Z -> Z -> Z -> result (Z * list iovec);
    get_inode_info : inode_view -> string }.

Section Operations.
Context (build : build_config) {fs : filesystem_v2}.

(** [copy_file_stat] copies field by field: a [native_stat] is
    represented by the [file_stat] it was copied from. *)
Definition native_stat : Type := file_stat.

Record fuse_entry_param : Type :=
  { ino : Z;
    generation : Z;
    attr : native_stat;
    attr_timeout : spec_float;
    entry_timeout : spec_float }.

(** An entry written by [fuse_add_direntry]. *)
Record direntry : Type :=
  { d_name : string; d_stat : native_stat; d_off : Z }.

(** What a request does to the outside: the replies sent on the
    [fuse_req_t] and the data reads issued to the filesystem. *)
Inductive event : Type :=
| fuse_reply_err (err : Z)
| fuse_reply_entry (e : fuse_entry_param)
| fuse_reply_attr (st : native_stat) (timeout : spec_float)
| fuse_reply_open (fi : fuse_file_info)
| fuse_reply_iov (iov : list iovec)
| fuse_reply_buf (data : string)
| fuse_reply_direntries (entries : list direntry)
| fuse_reply_xattr (count : Z)
| fs_readv (ino size off : Z).

Definition request : Type := list event.

Definition emit (ev : event) : M request unit :=
  modify (fun req => req ++ [ev]).

(** [checked_reply_err(log_, req, f)]; the [int err] of the code holds
    the result of [f], the same value whenever that result fits an
    [int]. *)
Definition checked_reply_err (f : M request Z) : M request unit :=
  err <- checked_call f ;;
  if negb (err =? 0) then emit (fuse_reply_err err) else ret tt.

(** The events of a request handled by [op]. *)
Definition run {A : Type} (op : M request A) : list event := fst (op []).

(** **** lookup and getattr *)

Definition op_lookup (parent : Z) (name : string) : M request unit :=
  checked_reply_err
    (match find_name parent name with
     | None => ret ENOENT
     | Some entry =>
         let '(err, stbuf) := getattr entry in
         (if err =? 0 then
            emit (fuse_reply_entry
                    {| ino := st_ino stbuf;
                       generation := 1;
                       attr := stbuf;
                       attr_timeout := Double.max;
                       entry_timeout := Double.max |})
          else ret tt) ;;;
         ret err
     end).

(** The state of [op_getattr_common] is the buffer [*st]. *)
Definition op_getattr_common (find : option inode_view)
  : M (option native_stat) Z :=
  checked_call
    (match find with
     | None => ret ENOENT
     | Some entry =>
         let '(err, stbuf) := getattr entry in
         (if err =? 0 then modify (fun _ => Some stbuf) else ret tt) ;;;
         ret err
     end).

Definition op_getattr (ino : Z) : M request unit :=
  fun req =>
    match op_getattr_common (find ino) None with
    | (st, Return err) =>
        if err =? 0 then
          match st with
          | Some st => emit (fuse_reply_attr st Double.max) req
          | None => ret tt req (* not reached: [*st] is written when err = 0 *)
          end
        else emit (fuse_reply_err err) req
    | (_, Raise e) => throw e req
    | (_, Abort) => abort req
    end.

(** **** open and read *)

(** The state of [op_open_common] is [*fi]. *)
Definition op_open_common (userdata : dwarfs_userdata)
    (find : option inode_view) : M fuse_file_info Z :=
  checked_call
    (match find with
     | None => ret ENOENT
     | Some entry =>
         if is_directory entry then ret EISDIR
         else
           fun fi =>
             if negb (Z.land (flags fi) O_ACCMODE =? O_RDONLY)
                || negb (Z.land (flags fi) (Z.lor O_APPEND O_TRUNC) =? 0)
             then ret EACCES fi
             else
               ret 0 {| flags := flags fi;
                        fh := inode_num entry;
                        direct_io := negb (opts_cache_files userdata);
                        keep_cache := opts_cache_files userdata |}
     end).

(** [op_open]: the reply and the final [*fi]. *)
Definition op_open (userdata : dwarfs_userdata) (ino : Z)
    (fi : fuse_file_info) : M request fuse_file_info :=
  match op_open_common userdata (find ino) fi with
  | (fi', Return err) =>
      (if err =? 0 then emit (fuse_reply_open fi')
       else emit (fuse_reply_err err)) ;;;
      ret fi'
  | (fi', Raise e) => throw e
  | (fi', Abort) => abort
  end.

(** [op_read]; [fuse_ino_t] and [fi->fh] are 64-bit unsigned, and
    [reply_rc] is what [fuse_reply_iov] returns. *)
Definition op_read (reply_rc : Z) (ino size off : Z) (fi : fuse_file_info)
  : M request unit :=
  checked_reply_err
    (if negb ((FUSE_ROOT_ID + fh fi) mod 2 ^ 64 =? ino) then ret EIO
     else
       emit (fs_readv ino size off) ;;;
       r <- lift (readv ino size off) ;;
       let '(rv, buf) := r in
       if rv <? 0 then ret (- rv)
       else
         emit (fuse_reply_iov buf) ;;;
         ret (- reply_rc)).

(** **** readdir *)

(** The template parameter [Policy] of [op_readdir_common]. *)
Class readdir_policy (P : Type) : Type :=
  { policy_find : P -> option inode_view;
    keep_going : P -> bool;
    add_entry : string -> native_stat -> Z -> M P bool;
    finalize : M P unit }.

(** The [while (off < lastoff && policy.keep_going())] loop, with
    [n = lastoff - off] the number of offsets left below [lastoff]. *)
Fixpoint readdir_loop {P : Type} {ops : readdir_policy P} (n : nat)
    (dir : directory_view) (off : Z) : M P unit :=
  match n with
  | O => ret tt
  | S n' =>
      fun policy =>
        if keep_going policy then
          (res <- assert_some (readdir dir off) ;;
           let '(entry, name) := res in
           let st := snd (getattr entry) in
           ok <- add_entry name st off ;;
           if negb ok then ret tt
           else readdir_loop n' dir (off + 1)) policy
        else ret tt policy
  end.

Definition op_readdir_common {P : Type} {ops : readdir_policy P} (off : Z)
  : M P Z :=
  fun policy =>
    match policy_find policy with
    | None => ret ENOENT policy
    | Some dirent =>
        match opendir dirent with
        | None => ret ENOTDIR policy
        | Some dir =>
            let lastoff := dirsize dir in
            (readdir_loop (Z.to_nat (lastoff - off)) dir off ;;;
             finalize ;;;
             ret 0) policy
        end
    end.

(** [class readdir_lowlevel_policy]; [buf_] holds the entries written so
    far into the buffer of [buf_size] bytes. *)
Record readdir_lowlevel_policy : Type :=
  { req_ : request;
    ino_ : Z;
    buf_size : Z;
    buf_ : list direntry;
    written_ : Z }.

(** [fuse_direntry_size name] is what [fuse_add_direntry] returns for an
    entry called [name]: the space the entry takes in the buffer. *)
Context (fuse_direntry_size : string -> Z).

Definition lowlevel_add_entry (name : string) (st : native_stat) (off : Z)
  : M readdir_lowlevel_policy bool :=
  fun p =>
    if negb (written_ p <? buf_size p) then abort p
    else
      let needed := fuse_direntry_size name in
      if buf_size p <? written_ p + needed then ret false p
      else
        ret true
            {| req_ := req_ p;
               ino_ := ino_ p;
               buf_size := buf_size p;
               buf_ := buf_ p ++ [{| d_name := name; d_stat := st;
                                     d_off := off + 1 |}];
               written_ := written_ p + needed |}.

Definition lowlevel_finalize : M readdir_lowlevel_policy unit :=
  modify (fun p =>
            {| req_ := req_ p ++ [fuse_reply_direntries (buf_ p)];
               ino_ := ino_ p;
               buf_size := buf_size p;
               buf_ := buf_ p;
               written_ := written_ p |}).

#[local] Instance lowlevel_policy : readdir_policy readdir_lowlevel_policy :=
  {| policy_find := fun p => find (ino_ p);
     keep_going := fun p => written_ p <? buf_size p;
     add_entry := lowlevel_add_entry;
     finalize := lowlevel_finalize |}.

(** The policy after [entries] have been added to its buffer. *)
Definition policy_with (p : readdir_lowlevel_policy)
    (entries : list direntry) (space : Z) : readdir_lowlevel_policy :=
  {| req_ := req_ p;
     ino_ := ino_ p;
     buf_size := buf_size p;
     buf_ := buf_ p ++ entries;
     written_ := written_ p + space |}.

(** [buf_.resize(size)] in the constructor of [readdir_lowlevel_policy]:
    [None] when the vector gets its [size] bytes, and otherwise the
    [what()] of the [std::length_error] or [std::bad_alloc] that it
    throws. *)
Context (resize_throws : Z -> option string).

(** [op_readdir]: the policy is constructed inside the lambda, before
    [op_readdir_common] looks for the inode. *)
Definition op_readdir (ino size off : Z) : M request unit :=
  checked_reply_err
    (fun req =>
       match resize_throws size with
       | Some what => throw (std_exception what) req
       | None =>
           let policy := {| req_ := req; ino_ := ino; buf_size := size;
                            buf_ := []; written_ := 0 |} in
           let '(policy', r) := op_readdir_common off policy in
           (req_ policy', r)
       end).

(** The entry of [dir] at offset [off], as [op_readdir_common] hands it to
    the policy. *)
Definition entry_at (dir : directory_view) (off : Z) : option direntry :=
  match readdir dir off with
  | Some (entry, name) =>
      Some {| d_name := name; d_stat := snd (getattr entry);
              d_off := off + 1 |}
  | None => None
  end.

(** The offsets [off, off + 1, ..., off + n - 1]. *)
Definition offsets (off : Z) (n : nat) : list Z :=
  map (fun i => off + Z.of_nat i) (seq 0 n).

(** The space taken by the entry at offset [off], and the reply policy
    accepting the [n] entries from [off] on in a buffer of [size] bytes:
    every entry takes some space and together they fit. *)
Definition entry_size (dir : directory_view) (off : Z) : Z :=
  match readdir dir off with
  | Some (_, name) => fuse_direntry_size name
  | None => 0
  end.

Definition entries_size (dir : directory_view) (offs : list Z) : Z :=
  fold_right Z.add 0 (map (entry_size dir) offs).

Definition entries_fit (dir : directory_view) (off : Z) (n : nat)
    (size : Z) : Prop :=
  (forall i, In i (offsets off n) -> 0 < entry_size dir i)
  /\ entries_size dir (offsets off n) <= size.

(** **** Extended attributes *)

Definition to_string (n : Z) : string :=
  DecimalString.NilZero.string_of_int (Z.to_int n).

Definition strlen (s : string) : Z := Z.of_nat (String.length s).

(** The end of the lambda of [op_getxattr], from [value.empty()] on. *)
Definition getxattr_reply (value : string) (extra_size size : Z)
  : M request Z :=
  if String.eqb value EmptyString then
    ret (if APPLE build then ENOATTR else ENODATA)
  else if size =? 0 then
    emit (fuse_reply_xattr (strlen value + extra_size)) ;;; ret 0
  else if strlen value <=? size then
    emit (fuse_reply_buf value) ;;; ret 0
  else ret ERANGE.

Definition op_getxattr (userdata : dwarfs_userdata) (ino : Z)
    (name : string) (size : Z) : M request unit :=
  checked_reply_err
    (let oss := EmptyString in
     let extra_size := 0 in
     let '(oss, extra_size) :=
       if ino =? FUSE_ROOT_ID then
         if String.eqb name pid_xattr then
           (oss ++ to_string (getpid userdata), extra_size)%string
         else if String.eqb name perfmon_xattr then
           if DWARFS_PERFMON_ENABLED build then
             match perfmon userdata with
             | Some summary => (oss ++ summary, 4096)%string
             | None =>
                 (oss ++ "performance monitor is disabled" ++ nl,
                  extra_size)%string
             end
           else
             (oss ++ "no performance monitor support" ++ nl,
              extra_size)%string
         else (oss, extra_size)
       else (oss, extra_size) in
     if String.eqb name inodeinfo_xattr then
       match find ino with
       | Some entry =>
           getxattr_reply (oss ++ get_inode_info entry ++ nl)%string
                          extra_size size
       | None => ret ENOENT
       end
     else getxattr_reply oss extra_size size).

Definition op_listxattr (ino size : Z) : M request unit :=
  checked_reply_err
    (let oss := EmptyString in
     let oss :=
       if ino =? FUSE_ROOT_ID then
         (oss ++ pid_xattr ++ nul ++ perfmon_xattr ++ nul)%string
       else oss in
     let xattrs := (oss ++ inodeinfo_xattr ++ nul)%string in
     if size =? 0 then
       emit (fuse_reply_xattr (strlen xattrs)) ;;; ret 0
     else if strlen xattrs <=? size then
       emit (fuse_reply_buf xattrs) ;;; ret 0
     else ret ERANGE).

(** **** The synthesized attributes, as the specification names them *)

(** The text that the code writes for the perfmon attribute. *)
Definition perfmon_text (userdata : dwarfs_userdata) : string :=
  if DWARFS_PERFMON_ENABLED build then
    match perfmon userdata with
    | Some summary => summary
    | None => ("performance monitor is disabled" ++ nl)%string
    end
  else ("no performance monitor support" ++ nl)%string.

(** The resolver of the synthesized attributes, from inode and name to
    the value, if any: the driver pid and the perfmon attribute on the
    root inode, the inodeinfo attribute on every existing inode. *)
Definition synthesized_value (userdata : dwarfs_userdata) (ino : Z)
    (name : string) : option string :=
  if (ino =? FUSE_ROOT_ID) && String.eqb name pid_xattr then
    Some (to_string (getpid userdata))
  else if (ino =? FUSE_ROOT_ID) && String.eqb name perfmon_xattr then
    Some (perfmon_text userdata)
  else if String.eqb name inodeinfo_xattr then
    match find ino with
    | Some entry => Some (get_inode_info entry ++ nl)%string
    | None => None
    end
  else None.

(** The room that [op_getxattr] adds to the size of the value when it is
    asked for the size: 4096 bytes for the summary of a running
    performance monitor. *)
Definition extra_size_for (userdata : dwarfs_userdata) (ino : Z)
    (name : string) : Z :=
  if (ino =? FUSE_ROOT_ID) && String.eqb name perfmon_xattr
     && DWARFS_PERFMON_ENABLED build
     && (match perfmon userdata with Some _ => true | None => false end)
  then 4096 else 0.

(** The errno for "attribute not found" on the platform of the build. *)
Definition attribute_not_found : Z :=
  if APPLE build then ENOATTR else ENODATA.

(** The names that [op_listxattr] lists for an inode, and the names that
    the specification gives, [driver.perfmon] being listed "when
    enabled". *)
Definition listxattr_names (ino : Z) : list string :=
  if ino =? FUSE_ROOT_ID then [pid_xattr; perfmon_xattr; inodeinfo_xattr]
  else [inodeinfo_xattr].

Definition listxattr_names_as_specified (perfmon_enabled : bool) (ino : Z)
  : list string :=
  if ino =? FUSE_ROOT_ID then
    if perfmon_enabled then [pid_xattr; perfmon_xattr; inodeinfo_xattr]
    else [pid_xattr; inodeinfo_xattr]
  else [inodeinfo_xattr].

(** Every name followed by a null character. *)
Definition null_separated (names : list string) : string :=
  fold_right (fun name rest => (name ++ nul ++ rest)%string) EmptyString names.

End Operations.

End Dwarfs.

(** ** [dwarfs_main]: evaluation of the mount options *)

Module Main.
Import Dwarfs.

Inductive mlock_mode : Type := mlock_NONE | mlock_TRY | mlock_MUST.

Inductive cache_tidy_strategy : Type :=
| NONE | EXPIRY_TIME | BLOCK_SWAPPED_OUT.

Definition kDefaultBlockSize : Z := Z.shiftl 512 10.
Definition kDefaultSeqDetectorThreshold : Z := 4.

(** [std::chrono::minutes(n)] converted to [std::chrono::milliseconds]. *)
Definition minutes (n : Z) : Z := n * 60000.

(** The members of [struct options] that [fuse_opt_parse] fills, through
    the table [dwarfs_opts] and through [option_hdl]; a null [char const*]
    is [None]. *)
Record option_strings : Type :=
  { fsimage : option string;
    seen_mountpoint : Z;
    cachesize_str : option string;
    blocksize_str : option string;
    readahead_str : option string;
    debuglevel_str : option string;
    workers_str : option string;
    mlock_str : option string;
    decompress_ratio_str : option string;
    image_offset_str : option string;
    cache_tidy_strategy_str : option string;
    cache_tidy_interval_str : option string;
    cache_tidy_max_age_str : option string;
    seq_detector_thresh_str : option string;
    perfmon_enabled_str : option string;
    perfmon_trace_file_str : option string;
    enable_nlink : Z;
    readonly : Z;
    cache_image : Z;
    cache_files : Z;
    is_help : bool;
    is_man : bool }.

(** [struct options]: the members above, then the members computed by
    [dwarfs_main]. *)
Record options : Type :=
  { args : option_strings;
    cachesize : Z;
    blocksize : Z;
    readahead : Z;
    workers : Z;
    lock_mode : mlock_mode;
    decompress_ratio : spec_float;
    logopts_threshold : Z;
    block_cache_tidy_strategy : cache_tidy_strategy;
    block_cache_tidy_interval : Z;
    block_cache_tidy_max_age : Z;
    seq_detector_threshold : Z }.

Definition set_cachesize (v : Z) (o : options) : options :=
  {| args := args o;
     cachesize := v;
     blocksize := blocksize o;
     readahead := readahead o;
     workers := workers o;
     lock_mode := lock_mode o;
     decompress_ratio := decompress_ratio o;
     logopts_threshold := logopts_threshold o;
     block_cache_tidy_strategy := block_cache_tidy_strategy o;
     block_cache_tidy_interval := block_cache_tidy_interval o;
     block_cache_tidy_max_age := block_cache_tidy_max_age o;
     seq_detector_threshold := seq_detector_threshold o |}.

Definition set_blocksize (v : Z) (o : options) : options :=
  {| args := args o;
     cachesize := cachesize o;
     blocksize := v;
     readahead := readahead o;
     workers := workers o;
     lock_mode := lock_mode o;
     decompress_ratio := decompress_ratio o;
     logopts_threshold := logopts_threshold o;
     block_cache_tidy_strategy := block_cache_tidy_strategy o;
     block_cache_tidy_interval := block_cache_tidy_interval o;
     block_cache_tidy_max_age := block_cache_tidy_max_age o;
     seq_detector_threshold := seq_detector_threshold o |}.

Definition set_readahead (v : Z) (o : options) : options :=
  {| args := args o;
     cachesize := cachesize o;
     blocksize := blocksize o;
     readahead := v;
     workers := workers o;
     lock_mode := lock_mode o;
     decompress_ratio := decompress_ratio o;
     logopts_threshold := logopts_threshold o;
     block_cache_tidy_strategy := block_cache_tidy_strategy o;
     block_cache_tidy_interval := block_cache_tidy_interval o;
     block_cache_tidy_max_age := block_cache_tidy_max_age o;
     seq_detector_threshold := seq_detector_threshold o |}.

Definition set_workers (v : Z) (o : options) : options :=
  {| args := args o;
     cachesize := cachesize o;
     blocksize := blocksize o;
     readahead := readahead o;
     workers := v;
     lock_mode := lock_mode o;
     decompress_ratio := decompress_ratio o;
     logopts_threshold := logopts_threshold o;
     block_cache_tidy_strategy := block_cache_tidy_strategy o;
     block_cache_tidy_interval := block_cache_tidy_interval o;
     block_cache_tidy_max_age := block_cache_tidy_max_age o;
     seq_detector_threshold := seq_detector_threshold o |}.

Definition set_lock_mode (v : mlock_mode) (o : options) : options :=
  {| args := args o;
     cachesize := cachesize o;
     blocksize := blocksize o;
     readahead := readahead o;
     workers := workers o;
     lock_mode := v;
     decompress_ratio := decompress_ratio o;
     logopts_threshold := logopts_threshold o;
     block_cache_tidy_strategy := block_cache_tidy_strategy o;
     block_cache_tidy_interval := block_cache_tidy_interval o;
     block_cache_tidy_max_age := block_cache_tidy_max_age o;
     seq_detector_threshold := seq_detector_threshold o |}.

Definition set_decompress_ratio (v : spec_float) (o : options) : options :=
  {| args := args o;
     cachesize := cachesize o;
     blocksize := blocksize o;
     readahead := readahead o;
     workers := workers o;
     lock_mode := lock_mode o;
     decompress_ratio := v;
     logopts_threshold := logopts_threshold o;
     block_cache_tidy_strategy := block_cache_tidy_strategy o;
     block_cache_tidy_interval := block_cache_tidy_interval o;
     block_cache_tidy_max_age := block_cache_tidy_max_age o;
     seq_detector_threshold := seq_detector_threshold o |}.

Definition set_logopts_threshold (v : Z) (o : options) : options :=
  {| args := args o;
     cachesize := cachesize o;
     blocksize := blocksize o;
     readahead := readahead o;
     workers := workers o;
     lock_mode := lock_mode o;
     decompress_ratio := decompress_ratio o;
     logopts_threshold := v;
     block_cache_tidy_strategy := block_cache_tidy_strategy o;
     block_cache_tidy_interval := block_cache_tidy_interval o;
     block_cache_tidy_max_age := block_cache_tidy_max_age o;
     seq_detector_threshold := seq_detector_threshold o |}.

Definition set_block_cache_tidy_strategy (v : cache_tidy_strategy) (o : options) : options :=
  {| args := args o;
     cachesize := cachesize o;
     blocksize := blocksize o;
     readahead := readahead o;
     workers := workers o;
     lock_mode := lock_mode o;
     decompress_ratio := decompress_ratio o;
     logopts_threshold := logopts_threshold o;
     block_cache_tidy_strategy := v;
     block_cache_tidy_interval := block_cache_tidy_interval o;
     block_cache_tidy_max_age := block_cache_tidy_max_age o;
     seq_detector_threshold := seq_detector_threshold o |}.

Definition set_block_cache_tidy_interval (v : Z) (o : options) : options :=
  {| args := args o;
     cachesize := cachesize o;
     blocksize := blocksize o;
     readahead := readahead o;
     workers := workers o;
     lock_mode := lock_mode o;
     decompress_ratio := decompress_ratio o;
     logopts_threshold := logopts_threshold o;
     block_cache_tidy_strategy := block_cache_tidy_strategy o;
     block_cache_tidy_interval := v;
     block_cache_tidy_max_age := block_cache_tidy_max_age o;
     seq_detector_threshold := seq_detector_threshold o |}.

Definition set_block_cache_tidy_max_age (v : Z) (o : options) : options :=
  {| args := args o;
     cachesize := cachesize o;
     blocksize := blocksize o;
     readahead := readahead o;
     workers := workers o;
     lock_mode := lock_mode o;
     decompress_ratio := decompress_ratio o;
     logopts_threshold := logopts_threshold o;
     block_cache_tidy_strategy := block_cache_tidy_strategy o;
     block_cache_tidy_interval := block_cache_tidy_interval o;
     block_cache_tidy_max_age := v;
     seq_detector_threshold := seq_detector_threshold o |}.

Definition set_seq_detector_threshold (v : Z) (o : options) : options :=
  {| args := args o;
     cachesize := cachesize o;
     blocksize := blocksize o;
     readahead := readahead o;
     workers := workers o;
     lock_mode := lock_mode o;
     decompress_ratio := decompress_ratio o;
     logopts_threshold := logopts_threshold o;
     block_cache_tidy_strategy := block_cache_tidy_strategy o;
     block_cache_tidy_interval := block_cache_tidy_interval o;
     block_cache_tidy_max_age := block_cache_tidy_max_age o;
     seq_detector_threshold := v |}.

(** [std::unordered_map<std::string_view, cache_tidy_strategy>] *)
Definition cache_tidy_strategy_map : list (string * cache_tidy_strategy) :=
  [ ("none"%string, NONE);
    ("time"%string, EXPIRY_TIME);
    ("swap"%string, BLOCK_SWAPPED_OUT) ].

Fixpoint map_find {V : Type} (m : list (string * V)) (key : string)
  : option V :=
  match m with
  | [] => None
  | (k, v) :: rest => if String.eqb key k then Some v else map_find rest key
  end.

(** [filesystem_options], as filled by [load_filesystem]. *)
Record filesystem_options : Type :=
  { fsopts_lock_mode : mlock_mode;
    block_cache_max_bytes : Z;
    block_cache_num_workers : Z;
    block_cache_decompress_ratio : spec_float;
    block_cache_mm_release : bool;
    block_cache_init_workers : bool;
    block_cache_sequential_access_detector_threshold : Z;
    inode_reader_readahead : Z;
    metadata_enable_nlink : bool;
    metadata_readonly : bool;
    metadata_block_size : Z;
    inode_offset : Z;
    image_offset : option Z }.

(** What [dwarfs_main] gets from outside [dwarfs_main.cpp]: the parsers of
    [dwarfs/util.h], folly and the logger, the result of
    [fuse_parse_cmdline] ([-1] or [0], the mountpoint and the foreground
    flag), the construction of the [filesystem_v2] and the return value of
    the FUSE session loop. *)
Class environment : Type :=
  { logger_WARN : Z;
    logger_INFO : Z;
    logger_options_threshold : Z;
    parse_level : string -> result Z;
    parse_size_with_unit : string -> result Z;
    parse_time_with_unit : string -> result Z;
    parse_mlock_mode : string -> result mlock_mode;
    parse_image_offset : string -> result Z;
    to_size_t : string -> result Z;
    to_double : string -> result spec_float;
    fuse_parse_cmdline : Z * option string * bool;
    make_filesystem : filesystem_options -> result unit;
    run_fuse : Z }.

(** The messages written to [iol.err]. *)
Inductive err_message : Type :=
| no_such_cache_tidy_strategy (name : string)
| exception_str (e : exception)
| error_exception_str (e : exception)
| decratio_must_be_between_0_and_1.

(** What an invocation does, in order. *)
Inductive main_event : Type :=
| usage
| show_manpage
| install_fatal_signal_handler
| print_err (msg : err_message)
| call_load_filesystem (opts : options)
| log_error_initializing_file_system (e : exception)
| call_run_fuse.

Definition rbind {A B : Type} (r : result A) (k : A -> result B) : result B :=
  match r with
  | Ok a => k a
  | Throw e => Throw e
  end.

Declare Scope result_scope.
Delimit Scope result_scope with result.
Notation "x <- r ;; k" := (rbind r (fun x => k))
  (at level 61, r at next level, right associativity) : result_scope.

Section DwarfsMain.
Context (build : build_config) {env : environment}.

(** [str ? parse(str) : dflt] *)
Definition or_default {A : Type} (str : option string)
    (parse : string -> result A) (dflt : A) : result A :=
  match str with
  | Some s => parse s
  | None => Ok dflt
  end.

(** The member initializers of [struct options] and the two assignments
    of [dwarfs_main] before [fuse_opt_parse], followed by [fuse_opt_parse]
    storing [a]. *)
Definition initial_options (a : option_strings) : options :=
  {| args := a;
     cachesize := 0;
     blocksize := 0;
     readahead := 0;
     workers := 0;
     lock_mode := mlock_NONE;
     decompress_ratio := Double.zero;
     logopts_threshold := logger_options_threshold;
     block_cache_tidy_strategy := NONE;
     block_cache_tidy_interval := minutes 5;
     block_cache_tidy_max_age := minutes 10;
     seq_detector_threshold := kDefaultSeqDetectorThreshold |}.

(** The body of the first [try] block of [dwarfs_main]; [inl name] is the
    [return 1] taken for an unknown tidy strategy [name]. *)
Definition evaluate_options (foreground : bool) (opts : options)
  : result (string + options) :=
  (threshold <- or_default (debuglevel_str (args opts)) parse_level
                  (if foreground then logger_INFO else logger_WARN) ;;
   let opts := set_logopts_threshold threshold opts in
   v <- or_default (cachesize_str (args opts)) parse_size_with_unit
          (Z.shiftl 512 20) ;;
   let opts := set_cachesize v opts in
   v <- or_default (blocksize_str (args opts)) parse_size_with_unit
          kDefaultBlockSize ;;
   let opts := set_blocksize v opts in
   v <- or_default (readahead_str (args opts)) parse_size_with_unit 0 ;;
   let opts := set_readahead v opts in
   v <- or_default (workers_str (args opts)) to_size_t 2 ;;
   let opts := set_workers v opts in
   v <- or_default (mlock_str (args opts)) parse_mlock_mode mlock_NONE ;;
   let opts := set_lock_mode v opts in
   v <- or_default (decompress_ratio_str (args opts)) to_double
          Double.lit_0_8 ;;
   let opts := set_decompress_ratio v opts in
   match cache_tidy_strategy_str (args opts) with
   | Some name =>
       match map_find cache_tidy_strategy_map name with
       | Some strategy =>
           let opts := set_block_cache_tidy_strategy strategy opts in
           v <- or_default (cache_tidy_interval_str (args opts))
                  parse_time_with_unit (block_cache_tidy_interval opts) ;;
           let opts := set_block_cache_tidy_interval v opts in
           v <- or_default (cache_tidy_max_age_str (args opts))
                  parse_time_with_unit (block_cache_tidy_max_age opts) ;;
           let opts := set_block_cache_tidy_max_age v opts in
           Ok (inr opts)
       | None => Ok (inl name)
       end
   | None => Ok (inr opts)
   end)%result.

(** [load_filesystem<LoggerPolicy>(userdata)], up to the construction of
    the [filesystem_v2]. *)
Definition load_filesystem (opts : options) : result unit :=
  (offset <- match image_offset_str (args opts) with
             | Some s => v <- parse_image_offset s ;; Ok (Some v)
             | None => Ok None
             end ;;
   make_filesystem
     {| fsopts_lock_mode := lock_mode opts;
        block_cache_max_bytes := cachesize opts;
        block_cache_num_workers := workers opts;
        block_cache_decompress_ratio := decompress_ratio opts;
        block_cache_mm_release := (cache_image (args opts) =? 0);
        block_cache_init_workers := false;
        block_cache_sequential_access_detector_threshold :=
          seq_detector_threshold opts;
        inode_reader_readahead := readahead opts;
        metadata_enable_nlink := negb (enable_nlink (args opts) =? 0);
        metadata_readonly := negb (readonly (args opts) =? 0);
        metadata_block_size := blocksize opts;
        inode_offset := FUSE_ROOT_ID;
        image_offset := offset |})%result.

(** [dwarfs_main(argc, argv, iol)] for the low-level FUSE API, after
    [fuse_opt_parse] has stored [a]: the events of the invocation and the
    exit status, or the exception that leaves [dwarfs_main]. *)
Definition dwarfs_main (a : option_strings) : list main_event * result Z :=
  let opts := initial_options a in
  let '(rc, mountpoint, foreground) := fuse_parse_cmdline in
  if (rc =? -1) || (match mountpoint with None => true | Some _ => false end)
  then
    if DWARFS_BUILTIN_MANPAGE build && is_man (args opts)
    then ([show_manpage], Ok 0)
    else ([usage], Ok (if is_help (args opts) then 0 else 1))
  else
    let ev := if foreground then [install_fatal_signal_handler] else [] in
    match evaluate_options foreground opts with
    | Throw (filesystem_error what) =>
        (ev ++ [print_err (exception_str (filesystem_error what))], Ok 1)
    | Throw e => (ev ++ [print_err (error_exception_str e)], Ok 1)
    | Ok (inl name) =>
        (ev ++ [print_err (no_such_cache_tidy_strategy name)], Ok 1)
    | Ok (inr opts) =>
        if Double.lt (decompress_ratio opts) Double.zero
           || Double.lt Double.one (decompress_ratio opts)
        then (ev ++ [print_err decratio_must_be_between_0_and_1], Ok 1)
        else
          match or_default (seq_detector_thresh_str (args opts)) to_size_t
                  kDefaultSeqDetectorThreshold with
          | Throw e => (ev, Throw e)
          | Ok v =>
              let opts := set_seq_detector_threshold v opts in
              if DWARFS_BUILTIN_MANPAGE build && is_man (args opts)
              then (ev ++ [show_manpage], Ok 0)
              else if seen_mountpoint (args opts) =? 0
              then (ev ++ [usage], Ok 1)
              else
                let ev := ev ++ [call_load_filesystem opts] in
                match load_filesystem opts with
                | Throw e =>
                    (ev ++ [log_error_initializing_file_system e], Ok 1)
                | Ok _ => (ev ++ [call_run_fuse], Ok run_fuse)
                end
          end
    end.




End DwarfsMain.

End Main.

(** ** A concrete image and a concrete environment *)

Module Sample.
Import Dwarfs Main Errno.

(** Modelled from the spec: [filesystem_v2] and the metadata view behind it
    are not among the sources; this instance follows sections 3 and 4.3 of
    the specification.  An image is the table of its inodes, inode [n]
    being served to the driver as [n + FUSE_ROOT_ID]; a directory is the
    ordered sequence of its (name, inode) pairs, [dirsize] is the number
    of entries and [readdir] returns the entry at the given offset. *)
Inductive inode_data : Type :=
| directory (entries : list (string * Z))
| regular (content : string).

Definition image : Type := list inode_data.

Record image_stat : Type :=
  { ist_ino : Z; ist_is_dir : bool; ist_size : Z }.

Definition image_inode (img : image) (n : Z) : option (Z * inode_data) :=
  if n <? 0 then None
  else
    match nth_error img (Z.to_nat n) with
    | Some data => Some (n, data)
    | None => None
    end.

(** Modelled from the spec: the [filesystem_v2] served from an image, whose
    implementation is not among the sources (sections 3 and 4.3 of the
    specification). *)
Definition image_fs (img : image) : filesystem_v2 :=
  {| inode_view := Z * inode_data;
     directory_view := list (string * Z);
     file_stat := image_stat;
     iovec := string;
     st_ino := ist_ino;
     find := fun ino => image_inode img (ino - FUSE_ROOT_ID);
     find_name := fun parent name =>
       match image_inode img (parent - FUSE_ROOT_ID) with
       | Some (_, directory entries) =>
           match map_find entries name with
           | Some n => image_inode img n
           | None => None
           end
       | _ => None
       end;
     getattr := fun v =>
       (0, {| ist_ino := fst v + FUSE_ROOT_ID;
              ist_is_dir := match snd v with directory _ => true
                                           | regular _ => false end;
              ist_size := match snd v with
                          | directory entries => Z.of_nat (List.length entries)
                          | regular content => strlen content
                          end |});
     is_directory := fun v =>
       match snd v with directory _ => true | regular _ => false end;
     inode_num := fst;
     opendir := fun v =>
       match snd v with directory entries => Some entries
                      | regular _ => None end;
     dirsize := fun dir => Z.of_nat (List.length dir);
     readdir := fun dir off =>
       if off <? 0 then None
       else
         match nth_error dir (Z.to_nat off) with
         | Some (name, n) =>
             match image_inode img n with
             | Some v => Some (v, name)
             | None => None
             end
         | None => None
         end;
     readv := fun ino size off =>
       match image_inode img (ino - FUSE_ROOT_ID) with
       | Some (_, regular content) =>
           let data := substring (Z.to_nat off) (Z.to_nat size) content in
           Ok (strlen data, [data])
       | _ => Ok (- EIO, [])
       end;
     get_inode_info := fun v => "{}"%string |}.

(** The root directory with a file and a subdirectory. *)
Definition small_image : image :=
  [ directory [("bar"%string, 2); ("hello.txt"%string, 1)];
    regular "hello"%string;
    directory [] ].

Definition small_fs : filesystem_v2 := image_fs small_image.

(** Entries take 24 bytes plus the name, rounded up to 8 bytes. *)
Definition direntry_size (name : string) : Z :=
  24 + 8 * ((strlen name + 7) / 8).

(** A vector that gets up to a gigabyte. *)
Definition small_resize (size : Z) : option string :=
  if size <=? 2 ^ 30 then None else Some "std::bad_alloc"%string.

Definition linux_build : build_config :=
  {| DWARFS_PERFMON_ENABLED := true;
     DWARFS_BUILTIN_MANPAGE := false;
     APPLE := false |}.

Definition no_perfmon_build : build_config :=
  {| DWARFS_PERFMON_ENABLED := false;
     DWARFS_BUILTIN_MANPAGE := false;
     APPLE := false |}.

Definition rdonly_info : fuse_file_info :=
  {| flags := Fcntl.O_RDONLY; fh := 0; direct_io := false;
     keep_cache := false |}.

Definition wronly_info : fuse_file_info :=
  {| flags := Fcntl.O_WRONLY; fh := 0; direct_io := false;
     keep_cache := false |}.

Definition stale_handle : fuse_file_info :=
  {| flags := Fcntl.O_RDONLY; fh := 7; direct_io := false;
     keep_cache := false |}.

Definition userdata_with (pm : option string) : dwarfs_userdata :=
  {| opts_cache_files := true; perfmon := pm; getpid := 4242 |}.

(** The double 2.0. *)
Definition two : spec_float := S754_finite false 4503599627370496 (-51).

(** An environment whose parsers understand a few strings. *)
Definition parse_number (s : string) : result Z :=
  if String.eqb s "1" then Ok 1
  else if String.eqb s "8" then Ok 8
  else Throw (std_exception "invalid number").

Definition small_environment (cmdline : Z * option string * bool)
  : environment :=
  {| logger_WARN := 2;
     logger_INFO := 3;
     logger_options_threshold := 2;
     parse_level := fun _ => Throw (std_exception "invalid logger level");
     parse_size_with_unit := parse_number;
     parse_time_with_unit := parse_number;
     parse_mlock_mode := fun _ => Throw (std_exception "invalid lock mode");
     parse_image_offset := parse_number;
     to_size_t := parse_number;
     to_double := fun s =>
       if String.eqb s "2.0" then Ok two
       else if String.eqb s "1.0" then Ok Double.one
       else Throw (std_exception "invalid floating point");
     fuse_parse_cmdline := cmdline;
     make_filesystem := fun _ => Ok tt;
     run_fuse := 0 |}.

(** No option on the command line but an image and a mountpoint. *)
Definition plain_args : option_strings :=
  {| fsimage := Some "image.dwarfs"%string;
     seen_mountpoint := 1;
     cachesize_str := None;
     blocksize_str := None;
     readahead_str := None;
     debuglevel_str := None;
     workers_str := None;
     mlock_str := None;
     decompress_ratio_str := None;
     image_offset_str := None;
     cache_tidy_strategy_str := None;
     cache_tidy_interval_str := None;
     cache_tidy_max_age_str := None;
     seq_detector_thresh_str := None;
     perfmon_enabled_str := None;
     perfmon_trace_file_str := None;
     enable_nlink := 0;
     readonly := 0;
     cache_image := 0;
     cache_files := 1;
     is_help := false;
     is_man := false |}.

(** The options that [plain_args] leads to on a background mount. *)
Definition plain_options : options :=
  {| args := plain_args;
     cachesize := 536870912;
     blocksize := 524288;
     readahead := 0;
     workers := 2;
     lock_mode := mlock_NONE;
     decompress_ratio := Double.lit_0_8;
     logopts_threshold := 2;
     block_cache_tidy_strategy := NONE;
     block_cache_tidy_interval := 300000;
     block_cache_tidy_max_age := 600000;
     seq_detector_threshold := 4 |}.

(** [plain_args] with [-o decratio=ratio], and with [-h] when [help]. *)
Definition decratio_args (ratio : string) (help : bool) : option_strings :=
  {| fsimage := fsimage plain_args;
     seen_mountpoint := seen_mountpoint plain_args;
     cachesize_str := None;
     blocksize_str := None;
     readahead_str := None;
     debuglevel_str := None;
     workers_str := None;
     mlock_str := None;
     decompress_ratio_str := Some ratio;
     image_offset_str := None;
     cache_tidy_strategy_str := None;
     cache_tidy_interval_str := None;
     cache_tidy_max_age_str := None;
     seq_detector_thresh_str := None;
     perfmon_enabled_str := None;
     perfmon_trace_file_str := None;
     enable_nlink := 0;
     readonly := 0;
     cache_image := 0;
     cache_files := 1;
     is_help := help;
     is_man := false |}.

End Sample.

(** ** Nilsimsa hashes as arrays of [uint64_t] *)

Module NilsimsaRange.
Import Nilsimsa.

(** A value of [uint64_t]. *)
Definition is_uint64 (x : Z) : Prop := 0 <= x < 2 ^ 64.

(** A [hash_type] whose four words are values of [uint64_t]. *)
Definition well_formed (a : hash_type) : Prop :=
  is_uint64 (word0 a) /\ is_uint64 (word1 a)
  /\ is_uint64 (word2 a) /\ is_uint64 (word3 a).

(** The number of differing bits that [DWARFS_NILSIMSA_SIMILARITY]
    subtracts from 255. *)
Definition distance (a b : hash_type) : Z := 255 - similarity a b.

End NilsimsaRange.

(** ** Sizes and signed readings for the Rice++ encoder *)

Module RiceppBits.
Import Ricepp.

(** The number of bits that a call asks the [BitstreamWriter] to write:
    the [nbits] of [write_bits], one bit for [write_bit(bit)] and [repeat]
    bits for [write_bit(bit, repeat)]. *)
Definition op_bits (op : write_op) : Z :=
  match op with
  | write_bits _ nbits => nbits
  | write_bit _ => 1
  | write_bit_repeat _ repeat => repeat
  end.

Definition ops_bits (ops : list write_op) : Z :=
  fold_right (fun op acc => op_bits op + acc) 0 ops.

(** The two's complement reading of the [w] low bits of [x]. *)
Definition signed (w x : Z) : Z := (x + 2 ^ (w - 1)) mod 2 ^ w - 2 ^ (w - 1).

(** The sum of a list of difference values. *)
Definition total (l : list Z) : Z := fold_right Z.add 0 l.

(** The array [delta] of [encode_block] after its first loop. *)
Definition deltas {traits : PixelTraits} (block : list Z) (last_value : Z)
    : list Z :=
  fst (fst (fold_left delta_step block ([], 0, last_value))).

(** Pixel traits whose [kBitCount] is the width [w] of their value type,
    as for the pixel types without unused bits. *)
Definition full_width (traits : PixelTraits) (w : Z) : Prop :=
  @value_bits traits = w /\ @kBitCount traits = w.

End RiceppBits.

(** ** Access, readlink and statfs ([src/dwarfs_main.cpp]) *)

Module Lowlevel.
Import Errno Dwarfs.
Local Open Scope monad_scope.

(** [ST_RDONLY] of [<sys/statvfs.h>]. *)
Definition ST_RDONLY : Z := 1.

(** The members of [filesystem_v2] called by the access, readlink and
    statfs operations.  [access] gives the error code or throws;
    [readlink] gives the error code and the contents of [*str] after the
    call, or throws; [statvfs] gives the error code and the [vfs_stat] it
    fills, or throws. *)
Class filesystem_v2_more (fs : filesystem_v2) : Type :=
  { vfs_stat : Type;
    access : inode_view -> Z -> Z -> Z -> result Z;
    readlink : inode_view -> result (Z * string);
    statvfs : result (Z * vfs_stat);
    vfs_readonly : vfs_stat -> bool }.


Section Replies.
Context {fs : filesystem_v2}.

(** The events that answer the request: all but the data reads. *)
Definition is_reply (ev : event) : bool :=
  match ev with
  | fs_readv _ _ _ => false
  | _ => true
  end.

Definition replies (evs : list event) : list event := filter is_reply evs.

(** The request has one event, and this event is a reply. *)
Definition answered_once (evs : list event) : Prop :=
  exists ev, evs = [ev] /\ is_reply ev = true.

End Replies.

Section MoreOperations.
Context {fs : filesystem_v2} {more : filesystem_v2_more fs}.

(** The preprocessor symbol [_WIN32], and the [f_flag] that
    [copy_vfs_stat] leaves in the zeroed [native_statvfs]. *)
Context (WIN32 : bool) (copied_f_flag : vfs_stat -> Z).

(** **** access *)

Definition op_access_common {S : Type} (mode uid gid : Z)
    (find : option inode_view) : M S Z :=
  checked_call
    (match find with
     | Some entry => lift (access entry mode uid gid)
     | None => ret ENOENT
     end).

(** [op_access]; [uid] and [gid] are those of [fuse_req_ctx(req)]. *)
Definition op_access (uid gid : Z) (ino mode : Z) : M request unit :=
  err <- op_access_common mode uid gid (find ino) ;;
  emit (fuse_reply_err err).

(** **** readlink and statfs *)

(** [native_statvfs]: the [vfs_stat] it was copied from, and [f_flag]. *)
Record native_statvfs : Type :=
  { f_copied : vfs_stat; f_flag : Z }.

(** The replies of readlink and statfs beside the events of the other
    operations; a [native_statvfs] that was never written is [None]. *)
Inductive link_event : Type :=
| lowlevel_event (ev : event)
| fuse_reply_readlink (link : string)
| fuse_reply_statfs (st : option native_statvfs).

Definition emit_link (ev : link_event) : M (list link_event) unit :=
  modify (fun req => req ++ [ev]).

Definition run_link {A : Type} (op : M (list link_event) A)
  : list link_event := fst (op []).

(** The state of [op_readlink_common] is [*str]. *)
Definition op_readlink_common (find : option inode_view) : M string Z :=
  checked_call
    (match find with
     | Some entry =>
         r <- lift (readlink entry) ;;
         let '(err, str) := r in
         modify (fun _ => str) ;;; ret err
     | None => ret ENOENT
     end).

Definition op_readlink (ino : Z) : M (list link_event) unit :=
  fun req =>
    match op_readlink_common (find ino) EmptyString with
    | (symlink, Return err) =>
        if err =? 0 then emit_link (fuse_reply_readlink symlink) req
        else emit_link (lowlevel_event (fuse_reply_err err)) req
    | (_, Raise e) => throw e req
    | (_, Abort) => abort req
    end.

(** The state of [op_statfs_common] is [*st]. *)
Definition op_statfs_common : M (option native_statvfs) Z :=
  checked_call
    (r <- lift statvfs ;;
     let '(err, stbuf) := r in
     (if err =? 0 then
        modify (fun _ =>
                  Some {| f_copied := stbuf;
                          f_flag :=
                            if negb WIN32 && vfs_readonly stbuf
                            then Z.lor (copied_f_flag stbuf) ST_RDONLY
                            else copied_f_flag stbuf |})
      else ret tt) ;;;
     ret err).

Definition op_statfs : M (list link_event) unit :=
  fun req =>
    match op_statfs_common None with
    | (st, Return err) =>
        if err =? 0 then emit_link (fuse_reply_statfs st) req
        else emit_link (lowlevel_event (fuse_reply_err err)) req
    | (_, Raise e) => throw e req
    | (_, Abort) => abort req
    end.

End MoreOperations.

End Lowlevel.

(** ** Access, readlink and statfs on the concrete image *)

Module SampleLinks.
Import Dwarfs Lowlevel Sample Errno.

(** Modelled from the spec: the members [access], [readlink] and
    [statvfs] of the file system of [Sample], whose implementation is not
    among the sources (sections 4.3 and 4.8 of the specification).  The
    image has no symbolic link, so that [readlink] gives the error for an
    invalid argument; every access is permitted; [statvfs] reports the
    number of inodes of the read-only image. *)
Definition small_more : filesystem_v2_more small_fs :=
  {| vfs_stat := Z;
     access := fun _ _ _ _ => Ok 0;
     readlink := fun _ => Ok (22, EmptyString);
     statvfs := Ok (0, Z.of_nat (List.length small_image));
     vfs_readonly := fun _ => true |}.

End SampleLinks.

(** ** The option handler and the FUSE session ([src/dwarfs_main.cpp]) *)

Module Cmdline.
Import Dwarfs Main.
Local Open Scope monad_scope.

(** [FUSE_OPT_KEY_OPT] and [FUSE_OPT_KEY_NONOPT] of [<fuse_opt.h>]. *)
Definition FUSE_OPT_KEY_OPT : Z := -1.
Definition FUSE_OPT_KEY_NONOPT : Z := -2.

Definition set_fsimage (v : option string) (a : option_strings) : option_strings :=
  {| fsimage := v;
     seen_mountpoint := seen_mountpoint a;
     cachesize_str := cachesize_str a;
     blocksize_str := blocksize_str a;
     readahead_str := readahead_str a;
     debuglevel_str := debuglevel_str a;
     workers_str := workers_str a;
     mlock_str := mlock_str a;
     decompress_ratio_str := decompress_ratio_str a;
     image_offset_str := image_offset_str a;
     cache_tidy_strategy_str := cache_tidy_strategy_str a;
     cache_tidy_interval_str := cache_tidy_interval_str a;
     cache_tidy_max_age_str := cache_tidy_max_age_str a;
     seq_detector_thresh_str := seq_detector_thresh_str a;
     perfmon_enabled_str := perfmon_enabled_str a;
     perfmon_trace_file_str := perfmon_trace_file_str a;
     enable_nlink := enable_nlink a;
     readonly := readonly a;
     cache_image := cache_image a;
     cache_files := cache_files a;
     is_help := is_help a;
     is_man := is_man a |}.

Definition set_seen_mountpoint (v : Z) (a : option_strings) : option_strings :=
  {| fsimage := fsimage a;
     seen_mountpoint := v;
     cachesize_str := cachesize_str a;
     blocksize_str := blocksize_str a;
     readahead_str := readahead_str a;
     debuglevel_str := debuglevel_str a;
     workers_str := workers_str a;
     mlock_str := mlock_str a;
     decompress_ratio_str := decompress_ratio_str a;
     image_offset_str := image_offset_str a;
     cache_tidy_strategy_str := cache_tidy_strategy_str a;
     cache_tidy_interval_str := cache_tidy_interval_str a;
     cache_tidy_max_age_str := cache_tidy_max_age_str a;
     seq_detector_thresh_str := seq_detector_thresh_str a;
     perfmon_enabled_str := perfmon_enabled_str a;
     perfmon_trace_file_str := perfmon_trace_file_str a;
     enable_nlink := enable_nlink a;
     readonly := readonly a;
     cache_image := cache_image a;
     cache_files := cache_files a;
     is_help := is_help a;
     is_man := is_man a |}.

Definition set_is_help (v : bool) (a : option_strings) : option_strings :=
  {| fsimage := fsimage a;
     seen_mountpoint := seen_mountpoint a;
     cachesize_str := cachesize_str a;
     blocksize_str := blocksize_str a;
     readahead_str := readahead_str a;
     debuglevel_str := debuglevel_str a;
     workers_str := workers_str a;
     mlock_str := mlock_str a;
     decompress_ratio_str := decompress_ratio_str a;
     image_offset_str := image_offset_str a;
     cache_tidy_strategy_str := cache_tidy_strategy_str a;
     cache_tidy_interval_str := cache_tidy_interval_str a;
     cache_tidy_max_age_str := cache_tidy_max_age_str a;
     seq_detector_thresh_str := seq_detector_thresh_str a;
     perfmon_enabled_str := perfmon_enabled_str a;
     perfmon_trace_file_str := perfmon_trace_file_str a;
     enable_nlink := enable_nlink a;
     readonly := readonly a;
     cache_image := cache_image a;
     cache_files := cache_files a;
     is_help := v;
     is_man := is_man a |}.

Definition set_is_man (v : bool) (a : option_strings) : option_strings :=
  {| fsimage := fsimage a;
     seen_mountpoint := seen_mountpoint a;
     cachesize_str := cachesize_str a;
     blocksize_str := blocksize_str a;
     readahead_str := readahead_str a;
     debuglevel_str := debuglevel_str a;
     workers_str := workers_str a;
     mlock_str := mlock_str a;
     decompress_ratio_str := decompress_ratio_str a;
     image_offset_str := image_offset_str a;
     cache_tidy_strategy_str := cache_tidy_strategy_str a;
     cache_tidy_interval_str := cache_tidy_interval_str a;
     cache_tidy_max_age_str := cache_tidy_max_age_str a;
     seq_detector_thresh_str := seq_detector_thresh_str a;
     perfmon_enabled_str := perfmon_enabled_str a;
     perfmon_trace_file_str := perfmon_trace_file_str a;
     enable_nlink := enable_nlink a;
     readonly := readonly a;
     cache_image := cache_image a;
     cache_files := cache_files a;
     is_help := is_help a;
     is_man := v |}.

(** Stores through the table [dwarfs_opts]: [workers=%s],
    [seq_detector=%s] and [tidy_interval=%s]. *)
Definition set_workers_str (v : option string) (a : option_strings) : option_strings :=
  {| fsimage := fsimage a;
     seen_mountpoint := seen_mountpoint a;
     cachesize_str := cachesize_str a;
     blocksize_str := blocksize_str a;
     readahead_str := readahead_str a;
     debuglevel_str := debuglevel_str a;
     workers_str := v;
     mlock_str := mlock_str a;
     decompress_ratio_str := decompress_ratio_str a;
     image_offset_str := image_offset_str a;
     cache_tidy_strategy_str := cache_tidy_strategy_str a;
     cache_tidy_interval_str := cache_tidy_interval_str a;
     cache_tidy_max_age_str := cache_tidy_max_age_str a;
     seq_detector_thresh_str := seq_detector_thresh_str a;
     perfmon_enabled_str := perfmon_enabled_str a;
     perfmon_trace_file_str := perfmon_trace_file_str a;
     enable_nlink := enable_nlink a;
     readonly := readonly a;
     cache_image := cache_image a;
     cache_files := cache_files a;
     is_help := is_help a;
     is_man := is_man a |}.

Definition set_seq_detector_thresh_str (v : option string) (a : option_strings) : option_strings :=
  {| fsimage := fsimage a;
     seen_mountpoint := seen_mountpoint a;
     cachesize_str := cachesize_str a;
     blocksize_str := blocksize_str a;
     readahead_str := readahead_str a;
     debuglevel_str := debuglevel_str a;
     workers_str := workers_str a;
     mlock_str := mlock_str a;
     decompress_ratio_str := decompress_ratio_str a;
     image_offset_str := image_offset_str a;
     cache_tidy_strategy_str := cache_tidy_strategy_str a;
     cache_tidy_interval_str := cache_tidy_interval_str a;
     cache_tidy_max_age_str := cache_tidy_max_age_str a;
     seq_detector_thresh_str := v;
     perfmon_enabled_str := perfmon_enabled_str a;
     perfmon_trace_file_str := perfmon_trace_file_str a;
     enable_nlink := enable_nlink a;
     readonly := readonly a;
     cache_image := cache_image a;
     cache_files := cache_files a;
     is_help := is_help a;
     is_man := is_man a |}.

Definition set_cache_tidy_interval_str (v : option string) (a : option_strings) : option_strings :=
  {| fsimage := fsimage a;
     seen_mountpoint := seen_mountpoint a;
     cachesize_str := cachesize_str a;
     blocksize_str := blocksize_str a;
     readahead_str := readahead_str a;
     debuglevel_str := debuglevel_str a;
     workers_str := workers_str a;
     mlock_str := mlock_str a;
     decompress_ratio_str := decompress_ratio_str a;
     image_offset_str := image_offset_str a;
     cache_tidy_strategy_str := cache_tidy_strategy_str a;
     cache_tidy_interval_str := v;
     cache_tidy_max_age_str := cache_tidy_max_age_str a;
     seq_detector_thresh_str := seq_detector_thresh_str a;
     perfmon_enabled_str := perfmon_enabled_str a;
     perfmon_trace_file_str := perfmon_trace_file_str a;
     enable_nlink := enable_nlink a;
     readonly := readonly a;
     cache_image := cache_image a;
     cache_files := cache_files a;
     is_help := is_help a;
     is_man := is_man a |}.

(** The members of [struct options] with their initializers, after the
    assignments [opts.cache_image = 0] and [opts.cache_files = 1] of
    [dwarfs_main]: the state in which [fuse_opt_parse] starts. *)
Definition unparsed_options : option_strings :=
  {| fsimage := None;
     seen_mountpoint := 0;
     cachesize_str := None;
     blocksize_str := None;
     readahead_str := None;
     debuglevel_str := None;
     workers_str := None;
     mlock_str := None;
     decompress_ratio_str := None;
     image_offset_str := None;
     cache_tidy_strategy_str := None;
     cache_tidy_interval_str := None;
     cache_tidy_max_age_str := None;
     seq_detector_thresh_str := None;
     perfmon_enabled_str := None;
     perfmon_trace_file_str := None;
     enable_nlink := 0;
     readonly := 0;
     cache_image := 0;
     cache_files := 1;
     is_help := false;
     is_man := false |}.

(** The members that only the table [dwarfs_opts] stores into. *)
Definition same_table_members (a a' : option_strings) : Prop :=
  cachesize_str a' = cachesize_str a
  /\ blocksize_str a' = blocksize_str a
  /\ readahead_str a' = readahead_str a
  /\ debuglevel_str a' = debuglevel_str a
  /\ workers_str a' = workers_str a
  /\ mlock_str a' = mlock_str a
  /\ decompress_ratio_str a' = decompress_ratio_str a
  /\ image_offset_str a' = image_offset_str a
  /\ cache_tidy_strategy_str a' = cache_tidy_strategy_str a
  /\ cache_tidy_interval_str a' = cache_tidy_interval_str a
  /\ cache_tidy_max_age_str a' = cache_tidy_max_age_str a
  /\ seq_detector_thresh_str a' = seq_detector_thresh_str a
  /\ perfmon_enabled_str a' = perfmon_enabled_str a
  /\ perfmon_trace_file_str a' = perfmon_trace_file_str a
  /\ enable_nlink a' = enable_nlink a
  /\ readonly a' = readonly a
  /\ cache_image a' = cache_image a
  /\ cache_files a' = cache_files a.

(** No option string but [workers] and [seq_detector] is given. *)
Definition only_numbers_given (a : option_strings) : Prop :=
  debuglevel_str a = None /\ cachesize_str a = None
  /\ blocksize_str a = None /\ readahead_str a = None
  /\ mlock_str a = None /\ decompress_ratio_str a = None
  /\ cache_tidy_strategy_str a = None.


Section OptionHdl.
Context (build : build_config).

(** [option_hdl(data, arg, key, outargs)]; the state is [*data], and
    [::strncmp(arg, s, strlen(s)) == 0] holds when [s] is a prefix of
    [arg]. *)
Definition option_hdl (arg : string) (key : Z) : M option_strings Z :=
  fun opts =>
    if key =? FUSE_OPT_KEY_NONOPT then
      if negb (seen_mountpoint opts =? 0) then ret (-1) opts
      else
        match fsimage opts with
        | Some _ => ret 1 (set_seen_mountpoint 1 opts)
        | None => ret 0 (set_fsimage (Some arg) opts)
        end
    else if key =? FUSE_OPT_KEY_OPT then
      if String.prefix "-h" arg || String.prefix "--help" arg
      then ret (-1) (set_is_help true opts)
      else if DWARFS_BUILTIN_MANPAGE build && String.prefix "--man" arg
      then ret (-1) (set_is_man true opts)
      else ret 1 opts
    else ret 1 opts.

(** The options that [fuse_opt_parse] can leave behind: it starts from
    [unparsed_options] and either calls [option_hdl] or stores into a
    member named by the table [dwarfs_opts], which has no entry for
    [fsimage], [seen_mountpoint], [is_help] or [is_man]. *)
Inductive parsed : option_strings -> Prop :=
| parsed_start : parsed unparsed_options
| parsed_option_hdl (a : option_strings) (arg : string) (key : Z) :
    parsed a -> parsed (fst (option_hdl arg key a))
| parsed_table_store (a a' : option_strings) :
    parsed a ->
    fsimage a' = fsimage a -> seen_mountpoint a' = seen_mountpoint a ->
    is_help a' = is_help a -> is_man a' = is_man a ->
    parsed a'.

End OptionHdl.

(** [cache_tidy_config], and the calls that [op_init_common] makes on
    the file system. *)
Record cache_tidy_config : Type :=
  { strategy : cache_tidy_strategy;
    interval : Z;
    expiry_time : Z }.

Inductive fs_call : Type :=
| set_num_workers (num : Z)
| set_cache_tidy_config (tidy : cache_tidy_config).

Definition op_init_common (opts : options) : list fs_call :=
  [ set_num_workers (workers opts);
    set_cache_tidy_config
      {| strategy := block_cache_tidy_strategy opts;
         interval := block_cache_tidy_interval opts;
         expiry_time := block_cache_tidy_max_age opts |} ].

End Cmdline.

(** ** [run_fuse], for the low-level API of FUSE 3 *)

Module Session.

(** [struct fuse_cmdline_opts], the fields read by [run_fuse]. *)
Record fuse_cmdline_opts : Type :=
  { mountpoint : string;
    foreground : bool;
    singlethread : bool;
    clone_fd : Z;
    max_idle_threads : Z }.

(** What libfuse answers: whether [fuse_session_new] returns a session,
    and the return values of the other calls. *)
Record libfuse : Type :=
  { fuse_session_new : bool;
    fuse_set_signal_handlers : Z;
    fuse_session_mount : Z;
    fuse_daemonize : Z;
    fuse_session_loop : Z;
    fuse_session_loop_mt : Z }.

(** The calls of [run_fuse], in order, with what they returned. *)
Inductive fuse_call : Type :=
| init_fuse_ops (debug : bool)
| session_new (ok : bool)
| set_signal_handlers (rc : Z)
| session_mount (mountpoint : string) (rc : Z)
| daemonize (foreground : bool) (rc : Z)
| session_loop
| session_loop_mt (clone_fd max_idle_threads : Z)
| session_unmount
| check_fusermount
| remove_signal_handlers
| session_destroy
| free_mountpoint
| fuse_opt_free_args.

Section RunFuse.
Context (lib : libfuse) (logger_DEBUG : Z).

(** [run_fuse(args, fuse_opts, userdata)]; [threshold] is
    [userdata.opts.logopts.threshold]. *)
Definition run_fuse (threshold : Z) (fuse_opts : fuse_cmdline_opts)
  : list fuse_call * Z :=
  let fsops := [init_fuse_ops (logger_DEBUG <=? threshold)] in
  let err := 1 in
  let '(session, err) :=
    if fuse_session_new lib then
      let '(handlers, err) :=
        if fuse_set_signal_handlers lib =? 0 then
          let '(mounted, err) :=
            if fuse_session_mount lib =? 0 then
              let '(looped, err) :=
                if fuse_daemonize lib =? 0 then
                  if singlethread fuse_opts
                  then ([session_loop], fuse_session_loop lib)
                  else ([session_loop_mt (clone_fd fuse_opts)
                           (max_idle_threads fuse_opts)],
                        fuse_session_loop_mt lib)
                else ([], err) in
              ([daemonize (foreground fuse_opts) (fuse_daemonize lib)]
               ++ looped ++ [session_unmount], err)
            else ([check_fusermount], err) in
          ([session_mount (mountpoint fuse_opts) (fuse_session_mount lib)]
           ++ mounted ++ [remove_signal_handlers], err)
        else ([], err) in
      ([set_signal_handlers (fuse_set_signal_handlers lib)]
       ++ handlers ++ [session_destroy], err)
    else ([], err) in
  (fsops ++ [session_new (fuse_session_new lib)] ++ session
   ++ [free_mountpoint; fuse_opt_free_args], err).

End RunFuse.

(** The resources that [run_fuse] holds after a list of calls: a
    successful [fuse_session_new], [fuse_set_signal_handlers] or
    [fuse_session_mount] acquires one, and [fuse_session_destroy],
    [fuse_remove_signal_handlers] or [fuse_session_unmount] releases the
    one acquired last, which has to be the matching one. *)
Inductive resource : Type := the_session | the_handlers | the_mount.

Definition resource_eqb (a b : resource) : bool :=
  match a, b with
  | the_session, the_session => true
  | the_handlers, the_handlers => true
  | the_mount, the_mount => true
  | _, _ => false
  end.

Definition release (r : resource) (held : list resource)
  : option (list resource) :=
  match held with
  | top :: rest => if resource_eqb top r then Some rest else None
  | [] => None
  end.

Fixpoint held_after (calls : list fuse_call) (held : list resource)
  : option (list resource) :=
  match calls with
  | [] => Some held
  | call :: rest =>
      match call with
      | session_new true => held_after rest (the_session :: held)
      | set_signal_handlers 0 => held_after rest (the_handlers :: held)
      | session_mount _ 0 => held_after rest (the_mount :: held)
      | session_destroy =>
          match release the_session held with
          | Some held' => held_after rest held'
          | None => None
          end
      | remove_signal_handlers =>
          match release the_handlers held with
          | Some held' => held_after rest held'
          | None => None
          end
      | session_unmount =>
          match release the_mount held with
          | Some held' => held_after rest held'
          | None => None
          end
      | session_loop | session_loop_mt _ _ =>
          match held with
          | [the_mount; the_handlers; the_session] => held_after rest held
          | _ => None
          end
      | _ => held_after rest held
      end
  end.

(** The session loop was entered. *)
Definition looped (calls : list fuse_call) : bool :=
  existsb (fun call =>
             match call with
             | session_loop | session_loop_mt _ _ => true
             | _ => false
             end) calls.

End Session.

(** An environment whose conversion to [double] understands "nan". *)
Module SampleNan.
Import Dwarfs Main Sample.

Definition nan_environment (cmdline : Z * option string * bool)
  : environment :=
  {| logger_WARN := 2;
     logger_INFO := 3;
     logger_options_threshold := 2;
     parse_level := fun _ => Throw (std_exception "invalid logger level");
     parse_size_with_unit := parse_number;
     parse_time_with_unit := parse_number;
     parse_mlock_mode := fun _ => Throw (std_exception "invalid lock mode");
     parse_image_offset := parse_number;
     to_size_t := parse_number;
     to_double := fun s =>
       if String.eqb s "nan" then Ok S754_nan
       else Throw (std_exception "invalid floating point");
     fuse_parse_cmdline := cmdline;
     make_filesystem := fun _ => Ok tt;
     run_fuse := 0 |}.

End SampleNan.

(** A mount that fails, on a single-threaded session. *)
Module SampleSession.
Import Session.

Definition failing_mount : libfuse :=
  {| fuse_session_new := true;
     fuse_set_signal_handlers := 0;
     fuse_session_mount := -1;
     fuse_daemonize := 0;
     fuse_session_loop := 0;
     fuse_session_loop_mt := 0 |}.

Definition working_libfuse : libfuse :=
  {| fuse_session_new := true;
     fuse_set_signal_handlers := 0;
     fuse_session_mount := 0;
     fuse_daemonize := 0;
     fuse_session_loop := 0;
     fuse_session_loop_mt := 0 |}.

Definition sample_cmdline : fuse_cmdline_opts :=
  {| mountpoint := "mnt";
     foreground := false;
     singlethread := true;
     clone_fd := 0;
     max_idle_threads := 10 |}.

End SampleSession.

(** ** readdir with the high-level API ([src/dwarfs_main.cpp]) *)

Module Highlevel.
Import Errno Dwarfs.
Local Open Scope monad_scope.

Section HighlevelReaddir.
Context {fs : filesystem_v2}.

(** [fs.find(path)], and the callback [filler]: its result for the next
    entry, given the entries that it was passed before. *)
Context (find_path : string -> option inode_view)
        (filler : list direntry -> direntry -> Z).

(** [class readdir_policy]; [passed_] holds the entries handed to
    [filler_] so far. *)
Record readdir_policy_state : Type :=
  { path_ : string;
    passed_ : list direntry }.

Definition highlevel_add_entry (name : string) (st : native_stat) (off : Z)
  : M readdir_policy_state bool :=
  fun p =>
    let d := {| d_name := name; d_stat := st; d_off := off + 1 |} in
    ret (filler (passed_ p) d =? 0)
        {| path_ := path_ p; passed_ := passed_ p ++ [d] |}.

#[local] Instance highlevel_policy : readdir_policy readdir_policy_state :=
  {| policy_find := fun p => find_path (path_ p);
     keep_going := fun _ => true;
     add_entry := highlevel_add_entry;
     finalize := ret tt |}.

(** [op_readdir(path, buf, filler, off, fi, flags)]: the entries handed
    to [filler] and the result. *)
Definition op_readdir (path : string) (off : Z)
  : list direntry * outcome Z :=
  let '(policy, r) :=
    checked_call (op_readdir_common off)
      {| path_ := path; passed_ := [] |} in
  (passed_ policy,
   match r with
   | Return err => Return (- err)
   | Raise e => Raise e
   | Abort => Abort
   end).

End HighlevelReaddir.

End Highlevel.

(* ================================================================== *)
(** * Properties *)
(* ================================================================== *)

Module NilsimsaFacts.
Import Nilsimsa.

Lemma popcount_bits_range (n : nat) (x : Z) :
  0 <= popcount_bits n x <= Z.of_nat n.
Proof.
  induction n as [|n IH]; simpl popcount_bits.
  - lia.
  - destruct (Z.testbit x (Z.of_nat n)); simpl Z.b2z; lia.
Qed.

Lemma popcount_bits_full (n : nat) (x : Z) :
  popcount_bits n x = Z.of_nat n <->
  (forall j, 0 <= j < Z.of_nat n -> Z.testbit x j = true).
Proof.
  induction n as [|n IH]; simpl popcount_bits.
  - split; [intros _ j Hj; lia | reflexivity].
  - pose proof (popcount_bits_range n x) as Hr.
    split.
    + intros Heq j Hj.
      destruct (Z.testbit x (Z.of_nat n)) eqn:Hb; simpl Z.b2z in Heq;
        [|lia].
      destruct (Z.eq_dec j (Z.of_nat n)) as [-> | Hne]; [exact Hb|].
      apply IH; lia.
    + intros Hall.
      rewrite (Hall (Z.of_nat n)) by lia. simpl Z.b2z.
      assert (popcount_bits n x = Z.of_nat n) by (apply IH; intros; apply Hall; lia).
      lia.
Qed.

Lemma popcount_bits_zero (n : nat) : popcount_bits n 0 = 0.
Proof.
  induction n as [|n IH]; simpl popcount_bits; [reflexivity|].
  rewrite Z.testbit_0_l, IH. reflexivity.
Qed.

Lemma popcountl_range (x : Z) : 0 <= popcountl x <= 64.
Proof. exact (popcount_bits_range 64 x). Qed.

Lemma similarity_bits_unfold (a b : hash_type) :
  similarity_bits a b =
  popcountl (Z.lxor (word0 a) (word0 b)) + popcountl (Z.lxor (word1 a) (word1 b))
  + popcountl (Z.lxor (word2 a) (word2 b)) + popcountl (Z.lxor (word3 a) (word3 b)).
Proof. unfold similarity_bits. simpl. lia. Qed.

Lemma xor_bits_differ (x y : Z) :
  popcountl (Z.lxor x y) = 64 <->
  (forall j, 0 <= j < 64 -> Z.testbit x j <> Z.testbit y j).
Proof.
  unfold popcountl. rewrite (popcount_bits_full 64).
  change (Z.of_nat 64) with 64.
  split; intros H j Hj; specialize (H j Hj); rewrite Z.lxor_spec in *;
    destruct (Z.testbit x j), (Z.testbit y j); simpl in *; congruence.
Qed.

(** C9: the score of a hash against itself is 255, the score is symmetric,
    it lies in [-1, 255], and it is negative exactly when every one of the
    4 * 64 bits differs between the two hashes. *)
Theorem similarity_properties (a b : hash_type) :
  similarity a a = 255
  /\ similarity a b = similarity b a
  /\ -1 <= similarity a b <= 255
  /\ (similarity a b < 0 <->
      forall i j, (i < 4)%nat -> 0 <= j < 64 -> bit_differs a b i j).
Proof.
  unfold similarity. rewrite !similarity_bits_unfold.
  pose proof (popcountl_range (Z.lxor (word0 a) (word0 b))) as H0.
  pose proof (popcountl_range (Z.lxor (word1 a) (word1 b))) as H1.
  pose proof (popcountl_range (Z.lxor (word2 a) (word2 b))) as H2.
  pose proof (popcountl_range (Z.lxor (word3 a) (word3 b))) as H3.
  repeat split.
  - rewrite !Z.lxor_nilpotent. unfold popcountl.
    rewrite popcount_bits_zero. reflexivity.
  - rewrite (Z.lxor_comm (word0 a)), (Z.lxor_comm (word1 a)),
      (Z.lxor_comm (word2 a)), (Z.lxor_comm (word3 a)). reflexivity.
  - lia.
  - lia.
  - intros Hneg i j Hi Hj. unfold bit_differs.
    assert (Hi' : i = 0%nat \/ i = 1%nat \/ i = 2%nat \/ i = 3%nat) by lia.
    destruct Hi' as [-> | [-> | [-> | ->]]]; simpl at_;
      apply xor_bits_differ; trivial; lia.
  - intros Hall.
    assert (E0 : popcountl (Z.lxor (word0 a) (word0 b)) = 64)
      by (apply xor_bits_differ; intros j Hj; apply (Hall 0%nat j); [lia|exact Hj]).
    assert (E1 : popcountl (Z.lxor (word1 a) (word1 b)) = 64)
      by (apply xor_bits_differ; intros j Hj; apply (Hall 1%nat j); [lia|exact Hj]).
    assert (E2 : popcountl (Z.lxor (word2 a) (word2 b)) = 64)
      by (apply xor_bits_differ; intros j Hj; apply (Hall 2%nat j); [lia|exact Hj]).
    assert (E3 : popcountl (Z.lxor (word3 a) (word3 b)) = 64)
      by (apply xor_bits_differ; intros j Hj; apply (Hall 3%nat j); [lia|exact Hj]).
    lia.
Qed.

(** All-zero against all-one words: every bit differs and the score is -1. *)
Lemma similarity_properties_witness :
  similarity (mk_hash 0 0 0 0) (mk_hash 0 0 0 0) = 255
  /\ similarity (mk_hash 0 0 0 0)
       (mk_hash (2 ^ 64 - 1) (2 ^ 64 - 1) (2 ^ 64 - 1) (2 ^ 64 - 1))
     = similarity (mk_hash (2 ^ 64 - 1) (2 ^ 64 - 1) (2 ^ 64 - 1) (2 ^ 64 - 1))
         (mk_hash 0 0 0 0)
  /\ -1 <= similarity (mk_hash 0 0 0 0)
             (mk_hash (2 ^ 64 - 1) (2 ^ 64 - 1) (2 ^ 64 - 1) (2 ^ 64 - 1))
        <= 255.
Proof.
  destruct (similarity_properties (mk_hash 0 0 0 0)
              (mk_hash (2 ^ 64 - 1) (2 ^ 64 - 1) (2 ^ 64 - 1) (2 ^ 64 - 1)))
    as [Hself [Hsym [Hrange _]]].
  split; [exact Hself | split; [exact Hsym | exact Hrange]].
Defined.

Example similarity_of_complement :
  similarity (mk_hash 0 0 0 0)
    (mk_hash (2 ^ 64 - 1) (2 ^ 64 - 1) (2 ^ 64 - 1) (2 ^ 64 - 1)) = -1.
Proof. vm_compute. reflexivity. Qed.

End NilsimsaFacts.

Module RiceppFacts.
Import Ricepp.

Section EncodeFacts.
Context {traits : PixelTraits}.

Lemma wrap_range (w x : Z) : 0 <= w -> 0 <= wrap w x < 2 ^ w.
Proof. intros Hw. unfold wrap. apply Z.mod_pos_bound. lia. Qed.

Lemma wrap_small (w x : Z) : 0 <= x < 2 ^ w -> wrap w x = x.
Proof. intros Hx. unfold wrap. apply Z.mod_small. exact Hx. Qed.

Lemma wrap_zero (w : Z) : wrap w 0 = 0.
Proof. unfold wrap. apply Zmod_0_l. Qed.

(** *** The first loop of [encode_block] *)

Lemma last_cons (l : list Z) (x d : Z) :
  List.last (x :: l) d = List.last l x.
Proof.
  revert x d. induction l as [|y l IH]; intros x d.
  - reflexivity.
  - change (List.last (x :: y :: l) d) with (List.last (y :: l) d).
    rewrite (IH y d), (IH y x). reflexivity.
Qed.

Lemma delta_loop_last (block : list Z) (delta : list Z) (sum last : Z) :
  snd (fold_left delta_step block (delta, sum, last))
  = List.last (map read block) last.
Proof.
  revert delta sum last.
  induction block as [|px rest IH]; intros delta sum last.
  - reflexivity.
  - cbn [fold_left delta_step]. rewrite IH.
    cbn [map]. symmetry. apply last_cons.
Qed.

Lemma delta_loop_sum_range (block : list Z) (delta : list Z) (sum last : Z) :
  0 <= sum < 2 ^ 64 ->
  0 <= snd (fst (fold_left delta_step block (delta, sum, last))) < 2 ^ 64.
Proof.
  revert delta sum last.
  induction block as [|px rest IH]; intros delta sum last Hs.
  - exact Hs.
  - cbn [fold_left delta_step]. apply IH. apply wrap_range. lia.
Qed.

Lemma zero_delta (pixel : Z) :
  wrap value_bits
    (if negb (Z.land (wrap value_bits (pixel - pixel)) kPixelMsb =? 0)
     then Z.lnot (Z.shiftl (wrap value_bits (pixel - pixel)) 1)
     else Z.shiftl (wrap value_bits (pixel - pixel)) 1) = 0.
Proof.
  rewrite Z.sub_diag, wrap_zero. reflexivity.
Qed.

Lemma delta_loop_zero (block : list Z) (delta : list Z) (last : Z) :
  equals_predecessor last block ->
  snd (fst (fold_left delta_step block (delta, 0, last))) = 0.
Proof.
  revert delta last.
  induction block as [|px rest IH]; intros delta last Heq.
  - reflexivity.
  - destruct Heq as [Hpx Hrest].
    cbn [fold_left delta_step]. rewrite Hpx, zero_delta.
    rewrite Z.add_0_l, wrap_zero. rewrite Hpx in Hrest. apply IH, Hrest.
Qed.

(** *** Termination of [compute_best_split] *)

Lemma split_loop_terminates (fuel : nat) (FsMax : Z) (delta : list Z)
    (size : nat) (direction : Z) :
  FsMax < 2 ^ 32 ->
  direction = 1 \/ direction = -1 ->
  forall cand_fs bits,
    0 <= cand_fs < 2 ^ 32 ->
    (0 < cand_fs < FsMax ->
     (direction = 1 -> FsMax - cand_fs <= Z.of_nat fuel)
     /\ (direction = -1 -> cand_fs <= Z.of_nat fuel)) ->
    exists r, split_loop fuel FsMax delta size direction cand_fs bits = Some r.
Proof.
  intros HFs Hdir.
  induction fuel as [|fuel IH]; intros cand_fs bits Hc Hm.
  - cbn [split_loop].
    destruct ((0 <? cand_fs) && (wrap 32 cand_fs <? FsMax)) eqn:Hg;
      [|eexists; reflexivity].
    apply andb_prop in Hg. destruct Hg as [Hg1 Hg2].
    rewrite wrap_small in Hg2 by exact Hc.
    apply Z.ltb_lt in Hg1, Hg2. cbn [Z.of_nat] in Hm. lia.
  - cbn [split_loop].
    destruct ((0 <? cand_fs) && (wrap 32 cand_fs <? FsMax)) eqn:Hg;
      [|eexists; reflexivity].
    apply andb_prop in Hg. destruct Hg as [Hg1 Hg2].
    rewrite wrap_small in Hg2 by exact Hc.
    apply Z.ltb_lt in Hg1, Hg2.
    destruct (wrap 64 bits <? bits_for_fs delta size (cand_fs + direction));
      [eexists; reflexivity|].
    apply IH; lia.
Qed.

Lemma countl_zero64_range (x : Z) : x < 2 ^ 64 -> 0 <= countl_zero64 x <= 64.
Proof.
  intros Hx. unfold countl_zero64.
  destruct (x <=? 0) eqn:Hle; [lia|].
  apply Z.leb_gt in Hle.
  pose proof (Z.log2_nonneg x).
  assert (Z.log2 x < 64) by (apply Z.log2_lt_pow2; lia).
  lia.
Qed.

Lemma compute_best_split_terminates (FsMax : Z) (delta : list Z) (size : nat)
    (sum : Z) :
  0 <= FsMax < 2 ^ 32 -> 0 <= sum < 2 ^ 64 ->
  exists r, compute_best_split FsMax delta size sum = Some r.
Proof.
  intros HFs Hsum. unfold compute_best_split.
  assert (Hq : sum / Z.of_nat size < 2 ^ 64).
  { destruct size as [|n].
    - cbn [Z.of_nat]. rewrite Z.div_0_r. lia.
    - apply Z.le_lt_trans with sum; [|lia].
      apply Z.div_le_upper_bound; nia. }
  pose proof (countl_zero64_range _ Hq) as Hclz.
  set (start_fs := 64 - Z.min 64 (countl_zero64 (sum / Z.of_nat size) + 2)).
  assert (Hstart : 0 <= start_fs <= 62) by (unfold start_fs; lia).
  set (bits0 := bits_for_fs delta size start_fs).
  set (bits1 := bits_for_fs delta size (start_fs + 1)).
  destruct (bits1 <=? bits0).
  - destruct (negb (bits0 =? bits1)).
    + destruct (split_loop_terminates (Z.to_nat FsMax) FsMax delta size 1
                  ltac:(lia) ltac:(left; reflexivity)
                  (start_fs + 1) (to_int bits1)) as [[c b] Hr];
        [lia | intros; rewrite Z2Nat.id by lia; lia |].
      rewrite Hr. eexists; reflexivity.
    + eexists; reflexivity.
  - destruct (negb (bits0 =? bits1)).
    + destruct (split_loop_terminates (Z.to_nat FsMax) FsMax delta size (-1)
                  ltac:(lia) ltac:(right; reflexivity)
                  start_fs (to_int bits0)) as [[c b] Hr];
        [lia | intros; rewrite Z2Nat.id by lia; lia |].
      rewrite Hr. eexists; reflexivity.
    + eexists; reflexivity.
Qed.

Lemma kFsMax_range : 0 <= kFsMax < 2 ^ 32.
Proof. unfold kFsMax. apply wrap_range. lia. Qed.

(** C10: a block whose pixels all equal their predecessor makes
    [encode_block] emit the single field [write_bits(0, kFsBits)] and
    nothing else; and for every block within [MaxBlockSize], [encode_block]
    returns and leaves in [last_value] the value read from the final pixel
    of the block (the old [last_value] when the block is empty). *)
Theorem encode_block_zero_block_and_last_value
    (MaxBlockSize : nat) (block : list Z) (last_value : Z) :
  (List.length block <= MaxBlockSize)%nat ->
  (equals_predecessor last_value block ->
   encode_block MaxBlockSize block last_value
   = Some ([write_bits 0 kFsBits], List.last (map read block) last_value))
  /\ (exists ops,
       encode_block MaxBlockSize block last_value
       = Some (ops, List.last (map read block) last_value)).
Proof.
  intros Hlen. unfold encode_block.
  assert (Hguard : (MaxBlockSize <? List.length block)%nat = false)
    by (apply Nat.ltb_ge; exact Hlen).
  rewrite Hguard.
  pose proof (delta_loop_last block [] 0 last_value) as Hlast.
  pose proof (delta_loop_sum_range block [] 0 last_value ltac:(lia)) as Hsum.
  pose proof (delta_loop_zero block [] last_value) as Hzero.
  destruct (fold_left delta_step block ([], 0, last_value))
    as [[delta sum] last].
  cbn [fst snd] in Hlast, Hsum, Hzero. subst last.
  split.
  - intros Heq. rewrite (Hzero Heq). reflexivity.
  - destruct (sum =? 0); [eexists; reflexivity|].
    destruct (compute_best_split_terminates kFsMax delta (List.length block)
                sum kFsMax_range Hsum) as [[fs bits_used] Hr].
    rewrite Hr.
    destruct ((kFsMax <=? fs)
              || (wrap 64 (kPixelBits * Z.of_nat (List.length block))
                  <=? bits_used)); eexists; reflexivity.
Qed.

End EncodeFacts.

Lemma encode_block_zero_block_and_last_value_witness :
  @encode_block uint16_traits 8 [5; 5; 5; 5] 5 = Some ([write_bits 0 4], 5)
  /\ exists ops,
       @encode_block uint16_traits 8 [5; 5; 5; 5] 5 = Some (ops, 5).
Proof.
  destruct (@encode_block_zero_block_and_last_value uint16_traits 8
              [5; 5; 5; 5] 5) as [Hzero Hlast].
  - simpl. lia.
  - split; [apply Hzero; simpl; repeat split | exact Hlast].
Defined.

End RiceppFacts.

Module DwarfsFacts.
Import Dwarfs Errno Fcntl.
Local Open Scope monad_scope.

Section OperationFacts.
Context {fs : filesystem_v2}.

(** *** [checked_call] and [checked_reply_err] on code that returns *)

Lemma checked_call_ret {S : Type} (v : Z) (s : S) :
  checked_call (ret v) s = (s, Return v).
Proof. reflexivity. Qed.

Lemma run_checked_reply_err_ret (err : Z) :
  err <> 0 -> run (checked_reply_err (ret err)) = [fuse_reply_err err].
Proof.
  intros Hne. unfold run, checked_reply_err, bind. rewrite checked_call_ret.
  destruct (err =? 0) eqn:E; [apply Z.eqb_eq in E; contradiction|].
  reflexivity.
Qed.

(** *** open *)

Lemma flags_not_read_only (fl : Z) :
  Z.land fl O_ACCMODE <> O_RDONLY \/ Z.land fl O_APPEND <> 0
  \/ Z.land fl O_TRUNC <> 0 <->
  negb (Z.land fl O_ACCMODE =? O_RDONLY)
  || negb (Z.land fl (Z.lor O_APPEND O_TRUNC) =? 0) = true.
Proof.
  rewrite Z.land_lor_distr_r, orb_true_iff, !negb_true_iff, !Z.eqb_neq.
  rewrite Z.lor_eq_0_iff. split.
  - intros [H | [H | H]]; [left; exact H | right; tauto | right; tauto].
  - intros [H | H]; [left; exact H|].
    destruct (Z.eq_dec (Z.land fl O_APPEND) 0) as [E | E];
      [right; right; tauto | right; left; exact E].
Qed.

(** C1: [op_open_common] returns ENOENT when the entry is not found;
    otherwise EISDIR when the entry is a directory; otherwise EACCES when
    the flags ask for more than reading (an access mode other than
    O_RDONLY, or O_APPEND or O_TRUNC set); otherwise 0, and then [fi->fh]
    holds the inode number of the entry. *)
Theorem op_open_common_errno (userdata : dwarfs_userdata)
    (found : option inode_view) (fi : fuse_file_info) :
  (found = None -> op_open_common userdata found fi = (fi, Return ENOENT))
  /\ (forall entry,
        found = Some entry -> is_directory entry = true ->
        op_open_common userdata found fi = (fi, Return EISDIR))
  /\ (forall entry,
        found = Some entry -> is_directory entry = false ->
        Z.land (flags fi) O_ACCMODE <> O_RDONLY
        \/ Z.land (flags fi) O_APPEND <> 0
        \/ Z.land (flags fi) O_TRUNC <> 0 ->
        op_open_common userdata found fi = (fi, Return EACCES))
  /\ (forall entry,
        found = Some entry -> is_directory entry = false ->
        Z.land (flags fi) O_ACCMODE = O_RDONLY ->
        Z.land (flags fi) O_APPEND = 0 ->
        Z.land (flags fi) O_TRUNC = 0 ->
        exists fi',
          op_open_common userdata found fi = (fi', Return 0)
          /\ fh fi' = inode_num entry /\ flags fi' = flags fi).
Proof.
  repeat split.
  - intros ->. reflexivity.
  - intros entry -> Hdir. unfold op_open_common. rewrite Hdir. reflexivity.
  - intros entry -> Hdir Hfl. unfold op_open_common, checked_call.
    rewrite Hdir. apply flags_not_read_only in Hfl. rewrite Hfl.
    reflexivity.
  - intros entry -> Hdir Hacc Happ Htr. unfold op_open_common, checked_call.
    rewrite Hdir.
    destruct (negb (Z.land (flags fi) O_ACCMODE =? O_RDONLY)
              || negb (Z.land (flags fi) (Z.lor O_APPEND O_TRUNC) =? 0))
      eqn:Hfl.
    + apply flags_not_read_only in Hfl. tauto.
    + eexists. split; [reflexivity|]. split; reflexivity.
Qed.

(** The reply of the low-level [op_open] follows the result of
    [op_open_common]. *)
Lemma op_open_reply (userdata : dwarfs_userdata) (ino : Z)
    (fi fi' : fuse_file_info) (err : Z) :
  op_open_common userdata (find ino) fi = (fi', Return err) ->
  run (op_open userdata ino fi)
  = [if err =? 0 then fuse_reply_open fi' else fuse_reply_err err].
Proof.
  intros H. unfold run, op_open. rewrite H.
  destruct (err =? 0); reflexivity.
Qed.

(** *** read *)

(** C5 (amended): when [FUSE_ROOT_ID + fi->fh] differs from the inode
    number, [op_read] replies with the error EIO and issues no data read:
    the error reply is the only event of the request. *)
Theorem op_read_handle_mismatch_is_EIO (reply_rc ino size off : Z)
    (fi : fuse_file_info) :
  (FUSE_ROOT_ID + fh fi) mod 2 ^ 64 <> ino ->
  run (op_read reply_rc ino size off fi) = [fuse_reply_err EIO]
  /\ ~ In (fs_readv ino size off) (run (op_read reply_rc ino size off fi)).
Proof.
  intros Hne. unfold op_read.
  apply Z.eqb_neq in Hne. rewrite Hne. cbn [negb].
  rewrite run_checked_reply_err_ret by (unfold EIO; lia).
  split; [reflexivity|].
  intros [H | []]. discriminate H.
Qed.

(** With a matching handle the data read is issued. *)
Lemma op_read_handle_match_reads (reply_rc ino size off : Z)
    (fi : fuse_file_info) :
  (FUSE_ROOT_ID + fh fi) mod 2 ^ 64 = ino ->
  In (fs_readv ino size off) (run (op_read reply_rc ino size off fi)).
Proof.
  intros Heq. unfold op_read. apply Z.eqb_eq in Heq. rewrite Heq.
  cbn [negb]. unfold run, checked_reply_err, checked_call, bind, emit,
    modify, lift, ret. cbn [app].
  destruct (readv ino size off) as [[rv buf] | e].
  - destruct (rv <? 0).
    + destruct (- rv =? 0); cbn; auto.
    + cbn. destruct (- reply_rc =? 0); cbn; auto.
  - destruct e as [errno | what | what]; cbn; auto.
    destruct (errno =? 0); cbn; auto.
Qed.

(** *** lookup and getattr *)

Lemma digits2_pos_bound (m : positive) :
  Z.pos m < 2 ^ Z.pos (digits2_pos m).
Proof.
  induction m as [m IH | m IH |]; cbn [digits2_pos].
  - rewrite Pos2Z.inj_succ, Z.pow_succ_r by lia. lia.
  - rewrite Pos2Z.inj_succ, Z.pow_succ_r by lia. lia.
  - reflexivity.
Qed.

(** [std::numeric_limits<double>::max()] is not below any finite double. *)
Lemma double_max_is_largest (x : spec_float) :
  Double.finite x -> Double.lt Double.max x = false.
Proof.
  destruct x as [s | s | | s m e]; cbn [Double.finite]; try contradiction.
  - intros _. reflexivity.
  - unfold bounded, canonical_mantissa, fexp, emin, Double.prec, Double.emax.
    intros Hb. apply andb_prop in Hb. destruct Hb as [Hc He].
    apply Z.eqb_eq in Hc. apply Z.leb_le in He.
    pose proof (digits2_pos_bound m) as Hd.
    unfold Double.lt, SFltb, Double.max, SFcompare.
    destruct s; [reflexivity|].
    destruct (Z.compare_spec 971 e) as [Heq | Hlt | Hgt]; [|lia|reflexivity].
    subst e.
    assert (Hdig : Z.pos (digits2_pos m) <= 53) by lia.
    assert (Hm : Z.pos m < 2 ^ 53).
    { apply Z.lt_le_trans with (2 ^ Z.pos (digits2_pos m)); [exact Hd|].
      apply Z.pow_le_mono_r; lia. }
    change (2 ^ 53) with 9007199254740992 in Hm.
    change (Pos.compare_cont Eq 9007199254740991 m)
      with (9007199254740991 ?= m)%positive.
    destruct (9007199254740991 ?= m)%positive eqn:Hcmp; try reflexivity.
    assert (Hlt : (9007199254740991 < m)%positive) by exact Hcmp.
    clear - Hlt Hm. lia.
Qed.

(** C6: a successful lookup replies with an entry whose attribute and
    entry timeouts are both [std::numeric_limits<double>::max()], a
    successful getattr replies with that same attribute timeout, no entry
    or attribute reply of these operations carries another timeout, and no
    finite double is larger than this value. *)
Theorem lookup_getattr_timeouts_are_max :
  (forall parent name entry st,
      find_name parent name = Some entry -> getattr entry = (0, st) ->
      exists e,
        run (op_lookup parent name) = [fuse_reply_entry e]
        /\ attr e = st /\ ino e = st_ino st
        /\ attr_timeout e = Double.max /\ entry_timeout e = Double.max)
  /\ (forall ino entry st,
        find ino = Some entry -> getattr entry = (0, st) ->
        run (op_getattr ino) = [fuse_reply_attr st Double.max])
  /\ (forall parent name e,
        In (fuse_reply_entry e) (run (op_lookup parent name)) ->
        attr_timeout e = Double.max /\ entry_timeout e = Double.max)
  /\ (forall ino st timeout,
        In (fuse_reply_attr st timeout) (run (op_getattr ino)) ->
        timeout = Double.max)
  /\ (forall x, Double.finite x -> Double.lt Double.max x = false).
Proof.
  split; [|split; [|split; [|split]]].
  - intros parent name entry st Hfind Hattr.
    eexists. unfold op_lookup. rewrite Hfind, Hattr. cbn.
    repeat split; reflexivity.
  - intros ino entry st Hfind Hattr.
    unfold op_getattr, op_getattr_common, run. rewrite Hfind, Hattr.
    reflexivity.
  - intros parent name e. unfold op_lookup.
    destruct (find_name parent name) as [entry|].
    + destruct (getattr entry) as [err st].
      destruct (err =? 0) eqn:Herr.
      * apply Z.eqb_eq in Herr. subst err. cbn.
        intros [H | []]. injection H as <-. split; reflexivity.
      * unfold run, checked_reply_err, checked_call, bind, ret, emit, modify.
        cbn. rewrite Herr. cbn. intros [H | []]. discriminate H.
    + cbn. intros [H | []]. discriminate H.
  - intros ino st timeout. unfold op_getattr, op_getattr_common, run.
    destruct (find ino) as [entry|].
    + destruct (getattr entry) as [err st'].
      destruct (err =? 0) eqn:Herr.
      * unfold checked_call, bind, ret, modify. cbn. rewrite Herr. cbn.
        intros [H | []]. injection H as _ <-. reflexivity.
      * unfold checked_call, bind, ret, modify. cbn. rewrite Herr. cbn.
        intros [H | []]. discriminate H.
    + cbn. intros [H | []]. discriminate H.
  - apply double_max_is_largest.
Qed.

(** *** readdir *)

Section ReaddirFacts.
Context (fuse_direntry_size : string -> Z)
        (resize_throws : Z -> option string).

Lemma offsets_cons (off : Z) (n : nat) :
  offsets off (S n) = off :: offsets (off + 1) n.
Proof.
  unfold offsets. cbn [seq map]. rewrite Z.add_0_r. f_equal.
  rewrite <- seq_shift, map_map. apply map_ext. intros i. lia.
Qed.

Lemma in_offsets (off : Z) (n : nat) (i : Z) :
  In i (offsets off n) -> off <= i < off + Z.of_nat n.
Proof.
  unfold offsets. rewrite in_map_iff. intros [j [<- Hj]].
  apply in_seq in Hj. lia.
Qed.

Lemma entries_size_nonneg (dir : directory_view) (offs : list Z) :
  (forall i, In i offs -> 0 < entry_size fuse_direntry_size dir i) ->
  0 <= entries_size fuse_direntry_size dir offs.
Proof.
  unfold entries_size. induction offs as [|i offs IH]; intros Hpos.
  - cbn. lia.
  - cbn [map fold_right].
    pose proof (Hpos i (or_introl eq_refl)).
    assert (0 <= fold_right Z.add 0 (map (entry_size fuse_direntry_size dir) offs))
      by (apply IH; intros j Hj; apply Hpos; right; exact Hj).
    lia.
Qed.

Lemma policy_with_nil (p : readdir_lowlevel_policy) :
  policy_with p [] 0 = p.
Proof.
  destruct p. unfold policy_with. cbn. rewrite app_nil_r, Z.add_0_r.
  reflexivity.
Qed.

Lemma entries_size_cons (dir : directory_view) (i : Z) (offs : list Z) :
  entries_size fuse_direntry_size dir (i :: offs)
  = entry_size fuse_direntry_size dir i
    + entries_size fuse_direntry_size dir offs.
Proof. reflexivity. Qed.

(** The loop of [op_readdir_common] under the low-level policy adds the
    entries at [off, off + 1, ...] to the buffer, in this order.  Every
    entry that it adds found the buffer not yet full and fits into it
    with the entries before; and when the loop stops before [n] entries,
    the buffer is full or the next entry does not fit. *)
Lemma readdir_loop_lowlevel (dir : directory_view) (n : nat) :
  forall (off : Z) (p : readdir_lowlevel_policy),
    (forall i, In i (offsets off n) -> readdir dir i <> None) ->
    exists (k : nat) (entries : list direntry),
      (k <= n)%nat
      /\ readdir_loop (ops := lowlevel_policy fuse_direntry_size) n dir off p
         = (policy_with p entries
              (entries_size fuse_direntry_size dir (offsets off k)), Return tt)
      /\ map Some entries = map (entry_at dir) (offsets off k)
      /\ (entries_fit fuse_direntry_size dir off n
            (buf_size p - written_ p) -> k = n)
      /\ (forall j, (j < k)%nat ->
            written_ p + entries_size fuse_direntry_size dir (offsets off j)
            < buf_size p
            /\ written_ p
               + entries_size fuse_direntry_size dir (offsets off (S j))
               <= buf_size p)
      /\ ((k < n)%nat ->
          buf_size p
          <= written_ p + entries_size fuse_direntry_size dir (offsets off k)
          \/ buf_size p
             < written_ p
               + entries_size fuse_direntry_size dir (offsets off (S k))).
Proof.
  induction n as [|n IH]; intros off p Hsome.
  - exists 0%nat, []. cbn [readdir_loop offsets seq map entries_size fold_right].
    rewrite policy_with_nil.
    split; [lia|]. split; [reflexivity|]. split; [reflexivity|].
    split; [reflexivity|]. split; intros; lia.
  - rewrite offsets_cons in Hsome.
    cbn [readdir_loop]. cbn [keep_going lowlevel_policy].
    destruct (written_ p <? buf_size p) eqn:Hkeep.
    2:{ exists 0%nat, [].
        cbn [offsets seq map entries_size fold_right].
        rewrite policy_with_nil. apply Z.ltb_ge in Hkeep.
        split; [lia|]. split; [reflexivity|]. split; [reflexivity|].
        split; [|split; [intros; lia | intros _; left; lia]].
        intros [Hpos Hfit]. rewrite offsets_cons in Hpos, Hfit.
        pose proof (Hpos off (or_introl eq_refl)) as Hfirst.
        assert (0 <= entries_size fuse_direntry_size dir (offsets (off + 1) n))
          by (apply entries_size_nonneg; intros j Hj; apply Hpos; right;
              exact Hj).
        unfold entries_size in *. cbn [map fold_right] in Hfit. lia. }
    destruct (readdir dir off) as [[entry name]|] eqn:Hread.
    2:{ exfalso. apply (Hsome off); [left; reflexivity | exact Hread]. }
    assert (Hcons : forall m,
               entries_size fuse_direntry_size dir (offsets off (S m))
               = fuse_direntry_size name
                 + entries_size fuse_direntry_size dir (offsets (off + 1) m)).
    { intros m. rewrite offsets_cons, entries_size_cons.
      unfold entry_size. rewrite Hread. reflexivity. }
    unfold bind at 1. cbn [assert_some ret].
    unfold bind at 1. cbn [add_entry lowlevel_policy].
    unfold lowlevel_add_entry. rewrite Hkeep. cbn [negb].
    apply Z.ltb_lt in Hkeep.
    destruct (buf_size p <? written_ p + fuse_direntry_size name) eqn:Hfull.
    + exists 0%nat, []. apply Z.ltb_lt in Hfull.
      cbn [ret negb]. change (offsets off 0) with (@nil Z).
      cbn [map entries_size fold_right].
      rewrite policy_with_nil.
      split; [lia|]. split; [reflexivity|]. split; [reflexivity|].
      split; [|split; [intros; lia|]].
      * intros [Hpos Hfit]. rewrite offsets_cons in Hpos, Hfit.
        assert (0 <= entries_size fuse_direntry_size dir (offsets (off + 1) n))
          by (apply entries_size_nonneg; intros j Hj; apply Hpos; right;
              exact Hj).
        rewrite entries_size_cons in Hfit.
        unfold entry_size at 1 in Hfit. rewrite Hread in Hfit. lia.
      * intros _. right. rewrite (Hcons 0%nat).
        change (offsets (off + 1) 0) with (@nil Z).
        cbn [map entries_size fold_right]. lia.
    + cbn [ret negb]. apply Z.ltb_ge in Hfull.
      set (d := {| d_name := name; d_stat := snd (getattr entry);
                   d_off := off + 1 |}).
      set (p' := {| req_ := req_ p; ino_ := ino_ p; buf_size := buf_size p;
                    buf_ := buf_ p ++ [d];
                    written_ := written_ p + fuse_direntry_size name |}).
      destruct (IH (off + 1) p')
        as [k [entries [Hk [Hloop [Hmap [Hall [Hacc Hstop]]]]]]].
      { intros i Hi. apply Hsome. right. exact Hi. }
      unfold p' in Hacc, Hstop. cbn [buf_size written_] in Hacc, Hstop.
      exists (S k), (d :: entries). split; [lia|].
      split; [|split; [|split; [|split]]].
      * rewrite Hloop. f_equal. unfold policy_with, p'.
        cbn [req_ ino_ buf_size buf_ written_].
        rewrite (Hcons k).
        rewrite <- app_assoc. cbn [app]. f_equal. lia.
      * rewrite offsets_cons. cbn [map]. rewrite Hmap. f_equal.
        unfold entry_at. rewrite Hread. reflexivity.
      * intros [Hpos Hfit]. rewrite offsets_cons in Hpos, Hfit.
        f_equal. apply Hall. split.
        -- intros i Hi. apply Hpos. right. exact Hi.
        -- unfold p'. cbn [buf_size written_].
           rewrite entries_size_cons in Hfit.
           unfold entry_size at 1 in Hfit. rewrite Hread in Hfit. lia.
      * intros j Hj. destruct j as [|j].
        -- rewrite (Hcons 0%nat). change (offsets off 0) with (@nil Z).
           change (offsets (off + 1) 0) with (@nil Z).
           cbn [map entries_size fold_right]. lia.
        -- rewrite (Hcons j), (Hcons (S j)).
           destruct (Hacc j ltac:(lia)) as [H1 H2]. lia.
      * intros Hlt. rewrite (Hcons k), (Hcons (S k)).
        destruct (Hstop ltac:(lia)) as [H1 | H1]; [left | right]; lia.
Qed.

Lemma run_checked_reply_err_throw (what : string) :
  run (checked_reply_err (fun req => throw (std_exception what) req))
  = [fuse_reply_err EIO].
Proof. reflexivity. Qed.

(** C2: provided that the buffer of the reply can be allocated,
    [op_readdir] on an inode that does not exist replies ENOENT and on an
    inode that is not a directory ENOTDIR; on a directory and for an
    offset between 0 and [dirsize], the reply holds the entries at the
    offsets [off], [off + 1], ... in this order, each once and with the
    following offset as its cookie.  The reply holds as many entries as
    the reply policy accepts: every entry in it found the buffer not yet
    full and fits into the buffer together with the entries before it;
    when the reply ends before [dirsize], the buffer is full or the next
    entry does not fit; and it reaches [dirsize - 1] when the policy
    accepts all the entries.  When the buffer cannot be allocated the
    reply is EIO. *)
Theorem op_readdir_yields_entries (ino size off : Z) :
  (resize_throws size = None -> find ino = None ->
   run (op_readdir fuse_direntry_size resize_throws ino size off)
   = [fuse_reply_err ENOENT])
  /\ (forall dirent,
        resize_throws size = None ->
        find ino = Some dirent -> opendir dirent = None ->
        run (op_readdir fuse_direntry_size resize_throws ino size off)
        = [fuse_reply_err ENOTDIR])
  /\ (forall dirent dir,
        resize_throws size = None ->
        find ino = Some dirent -> opendir dirent = Some dir ->
        0 <= off <= dirsize dir ->
        (forall i, 0 <= i < dirsize dir -> readdir dir i <> None) ->
        exists (k : nat) (entries : list direntry),
          Z.of_nat k <= dirsize dir - off
          /\ run (op_readdir fuse_direntry_size resize_throws ino size off)
             = [fuse_reply_direntries entries]
          /\ map Some entries = map (entry_at dir) (offsets off k)
          /\ (entries_fit fuse_direntry_size dir off
                (Z.to_nat (dirsize dir - off)) size ->
              Z.of_nat k = dirsize dir - off)
          /\ (forall j, (j < k)%nat ->
                entries_size fuse_direntry_size dir (offsets off j) < size
                /\ entries_size fuse_direntry_size dir (offsets off (S j))
                   <= size)
          /\ (Z.of_nat k < dirsize dir - off ->
              size <= entries_size fuse_direntry_size dir (offsets off k)
              \/ size
                 < entries_size fuse_direntry_size dir (offsets off (S k))))
  /\ (forall what,
        resize_throws size = Some what ->
        run (op_readdir fuse_direntry_size resize_throws ino size off)
        = [fuse_reply_err EIO]).
Proof.
  split; [|split; [|split]].
  - intros Halloc Hfind. unfold op_readdir, op_readdir_common.
    rewrite Halloc.
    cbn [policy_find lowlevel_policy ino_]. rewrite Hfind. reflexivity.
  - intros dirent Halloc Hfind Hdir. unfold op_readdir, op_readdir_common.
    rewrite Halloc.
    cbn [policy_find lowlevel_policy ino_]. rewrite Hfind, Hdir. reflexivity.
  - intros dirent dir Halloc Hfind Hdir Hoff Hsome.
    set (p := {| req_ := []; ino_ := ino; buf_size := size; buf_ := [];
                 written_ := 0 |}).
    destruct (readdir_loop_lowlevel dir (Z.to_nat (dirsize dir - off)) off p)
      as [k [entries [Hk [Hloop [Hmap [Hall [Hacc Hstop]]]]]]].
    { intros i Hi. apply in_offsets in Hi. apply Hsome. lia. }
    unfold p in Hacc, Hstop. cbn [buf_size written_] in Hacc, Hstop.
    exists k, entries. split; [lia|].
    split; [|split; [|split; [|split]]].
    + unfold run, op_readdir, checked_reply_err, checked_call, bind,
        op_readdir_common.
      rewrite Halloc.
      cbn [policy_find lowlevel_policy ino_]. rewrite Hfind, Hdir.
      fold p. unfold bind. rewrite Hloop. reflexivity.
    + exact Hmap.
    + intros Hfit. rewrite Hall; [lia|].
      unfold p. cbn [buf_size written_]. rewrite Z.sub_0_r. exact Hfit.
    + intros j Hj. destruct (Hacc j Hj) as [H1 H2]. lia.
    + intros Hlt. destruct (Hstop ltac:(lia)) as [H1 | H1];
        [left | right]; lia.
  - intros what Halloc. unfold op_readdir. rewrite Halloc.
    apply run_checked_reply_err_throw.
Qed.

End ReaddirFacts.

(** *** Extended attributes *)

Lemma run_checked_reply_err_emit (ev : event) :
  run (checked_reply_err (emit ev ;;; ret 0)) = [ev].
Proof. reflexivity. Qed.

Section XattrFacts.
Context (build : build_config).

Lemma run_getxattr_reply_empty (extra_size size : Z) :
  run (checked_reply_err (getxattr_reply build EmptyString extra_size size))
  = [fuse_reply_err (attribute_not_found build)].
Proof.
  unfold getxattr_reply, attribute_not_found. cbn [String.eqb].
  apply run_checked_reply_err_ret.
  destruct (APPLE build); unfold ENOATTR, ENODATA; lia.
Qed.

Lemma run_getxattr_reply_value (value : string) (extra_size size : Z) :
  value <> EmptyString ->
  run (checked_reply_err (getxattr_reply build value extra_size size))
  = if size =? 0 then [fuse_reply_xattr (strlen value + extra_size)]
    else if strlen value <=? size then [fuse_reply_buf value]
    else [fuse_reply_err ERANGE].
Proof.
  intros Hne. unfold getxattr_reply.
  apply String.eqb_neq in Hne. rewrite Hne.
  destruct (size =? 0); [apply run_checked_reply_err_emit|].
  destruct (strlen value <=? size); [apply run_checked_reply_err_emit|].
  apply run_checked_reply_err_ret. unfold ERANGE. lia.
Qed.

(** [op_getxattr] in terms of the resolver: the inodeinfo attribute of an
    inode that does not exist is answered with ENOENT, every other request
    goes through [getxattr_reply] with the synthesized value, or with the
    empty string when there is none. *)
Lemma op_getxattr_resolver (userdata : dwarfs_userdata) (ino : Z)
    (name : string) (size : Z) :
  run (op_getxattr build userdata ino name size)
  = match synthesized_value build userdata ino name with
    | Some value =>
        run (checked_reply_err
               (getxattr_reply build value
                  (extra_size_for build userdata ino name) size))
    | None =>
        if String.eqb name inodeinfo_xattr then [fuse_reply_err ENOENT]
        else
          run (checked_reply_err
                 (getxattr_reply build EmptyString
                    (extra_size_for build userdata ino name) size))
    end.
Proof.
  unfold op_getxattr, synthesized_value, extra_size_for, perfmon_text.
  destruct (ino =? FUSE_ROOT_ID); cbn [andb].
  - destruct (String.eqb name pid_xattr) eqn:Epid.
    { apply String.eqb_eq in Epid. subst name. reflexivity. }
    destruct (String.eqb name perfmon_xattr) eqn:Eperf.
    { apply String.eqb_eq in Eperf. subst name.
      destruct (DWARFS_PERFMON_ENABLED build);
        [destruct (perfmon userdata)|]; reflexivity. }
    destruct (String.eqb name inodeinfo_xattr);
      [destruct (find ino)|]; reflexivity.
  - destruct (String.eqb name inodeinfo_xattr);
      [destruct (find ino)|]; reflexivity.
Qed.

(** C3 (amended): a name that has no synthesized value for the inode is
    answered with the errno for "attribute not found" of the platform,
    except the inodeinfo attribute of an inode that does not exist, which
    is answered with ENOENT; for a synthesized, non-empty value and size 0
    the reply carries the size of the value plus the extra room (4096
    bytes for the summary of a running performance monitor, 0 otherwise);
    and for 0 < size < size of the value the result is ERANGE. *)
Theorem op_getxattr_replies (userdata : dwarfs_userdata) (ino : Z)
    (name : string) (size : Z) :
  (synthesized_value build userdata ino name = None ->
   name <> inodeinfo_xattr ->
   run (op_getxattr build userdata ino name size)
   = [fuse_reply_err (attribute_not_found build)])
  /\ (name = inodeinfo_xattr -> find ino = None ->
      run (op_getxattr build userdata ino name size)
      = [fuse_reply_err ENOENT])
  /\ (forall value,
        synthesized_value build userdata ino name = Some value ->
        value <> EmptyString -> size = 0 ->
        run (op_getxattr build userdata ino name size)
        = [fuse_reply_xattr
             (strlen value + extra_size_for build userdata ino name)])
  /\ (forall value,
        synthesized_value build userdata ino name = Some value ->
        0 < size < strlen value ->
        run (op_getxattr build userdata ino name size)
        = [fuse_reply_err ERANGE]).
Proof.
  rewrite op_getxattr_resolver. repeat split.
  - intros Hnone Hname. rewrite Hnone.
    apply String.eqb_neq in Hname. rewrite Hname.
    apply run_getxattr_reply_empty.
  - intros -> Hfind. unfold synthesized_value. rewrite Hfind.
    destruct (ino =? FUSE_ROOT_ID); reflexivity.
  - intros value Hval Hne ->. rewrite Hval.
    rewrite run_getxattr_reply_value by exact Hne. reflexivity.
  - intros value Hval Hsize. rewrite Hval.
    assert (Hne : value <> EmptyString).
    { intros ->. unfold strlen in Hsize. cbn in Hsize. lia. }
    rewrite run_getxattr_reply_value by exact Hne.
    destruct (size =? 0) eqn:E0; [apply Z.eqb_eq in E0; lia|].
    destruct (strlen value <=? size) eqn:E1; [apply Z.leb_le in E1; lia|].
    reflexivity.
Qed.

End XattrFacts.

(** [op_listxattr] builds the null-separated list of [listxattr_names]. *)
Lemma op_listxattr_names (ino size : Z) :
  run (op_listxattr ino size)
  = let xattrs := null_separated (listxattr_names ino) in
    if size =? 0 then [fuse_reply_xattr (strlen xattrs)]
    else if strlen xattrs <=? size then [fuse_reply_buf xattrs]
    else [fuse_reply_err ERANGE].
Proof.
  unfold op_listxattr, listxattr_names.
  destruct (ino =? FUSE_ROOT_ID); cbv zeta;
    match goal with
    | |- context [if _ then [fuse_reply_xattr (strlen ?names)] else _] =>
        match goal with
        | |- context [emit (fuse_reply_buf ?s)] => change s with names
        end
    end;
    (destruct (size =? 0); [reflexivity|]);
    match goal with
    | |- context [strlen ?s <=? size] =>
        destruct (strlen s <=? size); reflexivity
    end.
Qed.

(** C4 (amended): [op_listxattr] answers with the null-separated names of
    the pid attribute, the perfmon attribute and the inodeinfo attribute
    on the root inode, whether or not the performance monitor is enabled,
    and with the inodeinfo attribute alone on every other inode; for size
    0 it reports the number of bytes of this list, for a non-zero size
    below that number the result is ERANGE, and otherwise the list is
    returned. *)
Theorem op_listxattr_replies (ino size : Z) :
  listxattr_names ino
  = (if ino =? FUSE_ROOT_ID
     then [pid_xattr; perfmon_xattr; inodeinfo_xattr]
     else [inodeinfo_xattr])
  /\ (size = 0 ->
      run (op_listxattr ino size)
      = [fuse_reply_xattr (strlen (null_separated (listxattr_names ino)))])
  /\ (0 < size < strlen (null_separated (listxattr_names ino)) ->
      run (op_listxattr ino size) = [fuse_reply_err ERANGE])
  /\ (strlen (null_separated (listxattr_names ino)) <= size ->
      run (op_listxattr ino size)
      = [fuse_reply_buf (null_separated (listxattr_names ino))]).
Proof.
  rewrite op_listxattr_names. cbv zeta. repeat split.
  - intros ->. reflexivity.
  - intros Hsize.
    destruct (size =? 0) eqn:E0; [apply Z.eqb_eq in E0; lia|].
    destruct (_ <=? size) eqn:E1; [apply Z.leb_le in E1; lia|].
    reflexivity.
  - intros Hsize.
    destruct (size =? 0) eqn:E0.
    + apply Z.eqb_eq in E0. subst size. exfalso.
      unfold listxattr_names in Hsize.
      destruct (ino =? FUSE_ROOT_ID); vm_compute in Hsize; apply Hsize;
        reflexivity.
    + apply Z.leb_le in Hsize. rewrite Hsize. reflexivity.
Qed.

End OperationFacts.

Import Sample.

(** C3 (as stated): on the root inode, with a running performance
    monitor whose summary is the one character "x", a request for the size
    of the perfmon attribute is not answered with the size of the value. *)
Lemma op_getxattr_perfmon_size_is_not_value_size :
  synthesized_value (fs := small_fs) linux_build
    (userdata_with (Some "x"%string)) FUSE_ROOT_ID perfmon_xattr
  = Some "x"%string
  /\ run (op_getxattr (fs := small_fs) linux_build
            (userdata_with (Some "x"%string)) FUSE_ROOT_ID perfmon_xattr 0)
     <> [fuse_reply_xattr (strlen "x")].
Proof. split; [reflexivity | vm_compute; discriminate]. Qed.

(** The inodeinfo attribute of an inode that does not exist: ENOENT. *)
Example op_getxattr_inodeinfo_of_missing_inode :
  synthesized_value (fs := small_fs) linux_build (userdata_with None) 9
    inodeinfo_xattr = None
  /\ run (op_getxattr (fs := small_fs) linux_build (userdata_with None) 9
            inodeinfo_xattr 0) = [fuse_reply_err ENOENT].
Proof. split; reflexivity. Qed.

Lemma op_getxattr_replies_witness :
  run (op_getxattr (fs := small_fs) linux_build (userdata_with None) 2
         "user.foo" 0) = [fuse_reply_err ENODATA]
  /\ run (op_getxattr (fs := small_fs) linux_build (userdata_with None) 9
            inodeinfo_xattr 0) = [fuse_reply_err ENOENT]
  /\ run (op_getxattr (fs := small_fs) linux_build
            (userdata_with (Some "x"%string)) FUSE_ROOT_ID perfmon_xattr 0)
     = [fuse_reply_xattr 4097]
  /\ run (op_getxattr (fs := small_fs) linux_build (userdata_with None) 2
            inodeinfo_xattr 1) = [fuse_reply_err ERANGE].
Proof.
  split; [|split; [|split]].
  - apply (proj1 (@op_getxattr_replies small_fs linux_build
                    (userdata_with None) 2 "user.foo"%string 0));
      [reflexivity | vm_compute; discriminate].
  - apply (proj1 (proj2 (@op_getxattr_replies small_fs linux_build
                           (userdata_with None) 9 inodeinfo_xattr 0)));
      reflexivity.
  - apply (proj1 (proj2 (proj2 (@op_getxattr_replies small_fs linux_build
                                  (userdata_with (Some "x"%string))
                                  FUSE_ROOT_ID perfmon_xattr 0)))
             "x"%string);
      [reflexivity | discriminate | reflexivity].
  - apply (proj2 (proj2 (proj2 (@op_getxattr_replies small_fs linux_build
                                  (userdata_with None) 2 inodeinfo_xattr 1)))
             ("{}" ++ nl)%string);
      [reflexivity | vm_compute; split; reflexivity].
Defined.

(** C4 (as stated): without a performance monitor the list of the root
    inode is not the one of the pid and inodeinfo attributes alone: it has
    72 bytes, not 45. *)
Lemma op_listxattr_lists_perfmon_when_disabled :
  run (op_listxattr (fs := small_fs) FUSE_ROOT_ID 0)
  <> [fuse_reply_xattr
        (strlen (null_separated
                   (listxattr_names_as_specified false FUSE_ROOT_ID)))].
Proof. vm_compute. discriminate. Qed.

(** In a build without performance monitor the perfmon attribute of the
    root inode is listed and can be read: its value is the 31 bytes of
    "no performance monitor support" and a newline. *)
Example op_getxattr_perfmon_without_support :
  run (op_getxattr (fs := small_fs) no_perfmon_build (userdata_with None)
         FUSE_ROOT_ID perfmon_xattr 0) = [fuse_reply_xattr 31]
  /\ In perfmon_xattr (listxattr_names FUSE_ROOT_ID).
Proof. split; [reflexivity | right; left; reflexivity]. Qed.

Lemma op_readdir_yields_entries_witness :
  run (op_readdir (fs := small_fs) direntry_size small_resize 9 4096 0)
  = [fuse_reply_err ENOENT]
  /\ run (op_readdir (fs := small_fs) direntry_size small_resize 2 4096 0)
     = [fuse_reply_err ENOTDIR]
  /\ (exists (k : nat) (entries : list direntry),
        Z.of_nat k <= 2 - 0
        /\ run (op_readdir (fs := small_fs) direntry_size small_resize
                  FUSE_ROOT_ID 40 0)
           = [fuse_reply_direntries entries]
        /\ map Some entries
           = map (entry_at (fs := small_fs)
                    [("bar"%string, 2); ("hello.txt"%string, 1)])
               (offsets 0 k)
        /\ (entries_fit (fs := small_fs) direntry_size
              [("bar"%string, 2); ("hello.txt"%string, 1)] 0 2 40 ->
            Z.of_nat k = 2 - 0)
        /\ (forall j, (j < k)%nat ->
              entries_size (fs := small_fs) direntry_size
                [("bar"%string, 2); ("hello.txt"%string, 1)] (offsets 0 j)
              < 40
              /\ entries_size (fs := small_fs) direntry_size
                   [("bar"%string, 2); ("hello.txt"%string, 1)]
                   (offsets 0 (S j))
                 <= 40)
        /\ (Z.of_nat k < 2 - 0 ->
            40 <= entries_size (fs := small_fs) direntry_size
                    [("bar"%string, 2); ("hello.txt"%string, 1)]
                    (offsets 0 k)
            \/ 40 < entries_size (fs := small_fs) direntry_size
                      [("bar"%string, 2); ("hello.txt"%string, 1)]
                      (offsets 0 (S k))))
  /\ run (op_readdir (fs := small_fs) direntry_size small_resize 9
            (2 ^ 40) 0)
     = [fuse_reply_err EIO].
Proof.
  split; [|split; [|split]].
  - apply (proj1 (@op_readdir_yields_entries small_fs direntry_size
                    small_resize 9 4096 0)); reflexivity.
  - apply (proj1 (proj2 (@op_readdir_yields_entries small_fs direntry_size
                           small_resize 2 4096 0))
             (1, regular "hello"%string)); reflexivity.
  - apply (proj1 (proj2 (proj2 (@op_readdir_yields_entries small_fs
                                  direntry_size small_resize
                                  FUSE_ROOT_ID 40 0)))
             (0, directory [("bar"%string, 2); ("hello.txt"%string, 1)])
             [("bar"%string, 2); ("hello.txt"%string, 1)]).
    + reflexivity.
    + reflexivity.
    + reflexivity.
    + simpl. lia.
    + intros i Hi. simpl in Hi.
      assert (Hcases : i = 0 \/ i = 1) by lia.
      destruct Hcases as [-> | ->]; discriminate.
  - apply (proj2 (proj2 (proj2 (@op_readdir_yields_entries small_fs
                                  direntry_size small_resize 9 (2 ^ 40) 0)))
             "std::bad_alloc"%string).
    reflexivity.
Defined.

(** With room for 40 bytes the reply to a request at offset 0 holds the
    first entry of the root directory, which takes 32 bytes, and stops
    before the second, which would take 40 more. *)
Example small_root_first_entry :
  run (op_readdir (fs := small_fs) direntry_size small_resize FUSE_ROOT_ID
         40 0)
  = [fuse_reply_direntries
       [{| d_name := "bar"%string;
           d_stat := {| ist_ino := 3; ist_is_dir := true; ist_size := 0 |}
                     : @native_stat small_fs;
           d_off := 1 |}]].
Proof. vm_compute. reflexivity. Qed.

(** The whole root directory of the small image fits into 4096 bytes. *)
Example small_root_fits :
  entries_fit (fs := small_fs) direntry_size
    [("bar"%string, 2); ("hello.txt"%string, 1)] 0 2 4096.
Proof.
  split.
  - intros i [<- | [<- | []]]; reflexivity.
  - vm_compute. discriminate.
Qed.

Lemma op_listxattr_replies_witness :
  run (op_listxattr (fs := small_fs) FUSE_ROOT_ID 0) = [fuse_reply_xattr 72]
  /\ run (op_listxattr (fs := small_fs) 2 5) = [fuse_reply_err ERANGE]
  /\ run (op_listxattr (fs := small_fs) 2 22)
     = [fuse_reply_buf (inodeinfo_xattr ++ nul)%string].
Proof.
  split; [|split].
  - apply (proj1 (proj2 (op_listxattr_replies (fs := small_fs) FUSE_ROOT_ID 0))). reflexivity.
  - apply (proj1 (proj2 (proj2 (op_listxattr_replies (fs := small_fs) 2 5)))).
    vm_compute. split; reflexivity.
  - apply (proj2 (proj2 (proj2 (op_listxattr_replies (fs := small_fs) 2 22)))).
    vm_compute. discriminate.
Defined.

Lemma op_open_common_errno_witness :
  @op_open_common small_fs (userdata_with None) (@find small_fs 9) rdonly_info
  = (rdonly_info, Return ENOENT)
  /\ @op_open_common small_fs (userdata_with None) (@find small_fs 1)
       rdonly_info
     = (rdonly_info, Return EISDIR)
  /\ @op_open_common small_fs (userdata_with None) (@find small_fs 2)
       wronly_info
     = (wronly_info, Return EACCES)
  /\ exists fi',
       @op_open_common small_fs (userdata_with None) (@find small_fs 2)
         rdonly_info = (fi', Return 0)
       /\ fh fi' = 1 /\ flags fi' = O_RDONLY.
Proof.
  split; [|split; [|split]].
  - apply (proj1 (@op_open_common_errno small_fs (userdata_with None)
                    (@find small_fs 9) rdonly_info)).
    reflexivity.
  - apply (proj1 (proj2 (@op_open_common_errno small_fs (userdata_with None)
                           (@find small_fs 1) rdonly_info))
             (0, directory [("bar"%string, 2); ("hello.txt"%string, 1)]));
      reflexivity.
  - apply (proj1 (proj2 (proj2 (@op_open_common_errno small_fs
                                  (userdata_with None) (@find small_fs 2)
                                  wronly_info)))
             (1, regular "hello"%string));
      [reflexivity | reflexivity | left; vm_compute; discriminate].
  - apply (proj2 (proj2 (proj2 (@op_open_common_errno small_fs
                                  (userdata_with None) (@find small_fs 2)
                                  rdonly_info)))
             (1, regular "hello"%string)); reflexivity.
Defined.

(** C5 (as stated): a read whose handle does not belong to the inode is
    not answered with EBADF. *)
Lemma op_read_handle_mismatch_is_not_EBADF :
  (FUSE_ROOT_ID + fh stale_handle) mod 2 ^ 64 <> 2
  /\ run (@op_read small_fs 0 2 5 0 stale_handle) <> [fuse_reply_err EBADF].
Proof. split; vm_compute; discriminate. Qed.

Lemma op_read_handle_mismatch_is_EIO_witness :
  run (@op_read small_fs 0 2 5 0 stale_handle) = [fuse_reply_err EIO]
  /\ ~ In (fs_readv 2 5 0) (run (@op_read small_fs 0 2 5 0 stale_handle)).
Proof.
  apply (@op_read_handle_mismatch_is_EIO small_fs 0 2 5 0 stale_handle).
  vm_compute. discriminate.
Defined.

Lemma lookup_getattr_timeouts_are_max_witness :
  (exists e,
      run (@op_lookup small_fs 1 "hello.txt") = [fuse_reply_entry e]
      /\ attr_timeout e = Double.max /\ entry_timeout e = Double.max)
  /\ run (@op_getattr small_fs 2)
     = [fuse_reply_attr
          ({| ist_ino := 2; ist_is_dir := false; ist_size := 5 |}
            : @native_stat small_fs)
          Double.max]
  /\ Double.lt Double.max Double.one = false.
Proof.
  destruct (@lookup_getattr_timeouts_are_max small_fs)
    as [Hlookup [Hgetattr [_ [_ Hmax]]]].
  split; [|split].
  - destruct (Hlookup 1 "hello.txt"%string (1, regular "hello"%string)
                {| ist_ino := 2; ist_is_dir := false; ist_size := 5 |}
                eq_refl eq_refl) as [e [He [_ [_ [Ha Hb]]]]].
    exists e. auto.
  - apply (Hgetattr 2 (1, regular "hello"%string)); reflexivity.
  - apply Hmax. reflexivity.
Defined.

End DwarfsFacts.

Module MainFacts.
Import Dwarfs Main.

Section DwarfsMainFacts.
Context (build : build_config) {env : environment}.


Lemma rbind_ok {A B : Type} (r : result A) (k : A -> result B) (b : B) :
  rbind r k = Ok b -> exists a, r = Ok a /\ k a = Ok b.
Proof.
  destruct r as [a | e]; cbn [rbind]; intros H; [|discriminate H].
  exists a. split; [reflexivity | exact H].
Qed.

Ltac step_rbind H v E :=
  apply rbind_ok in H; destruct H as [v [E H]]; cbv beta zeta in H.

(** What the first [try] block leaves in the options when it runs to its
    end. *)
Lemma evaluate_options_inr_from (foreground : bool) (o0 o : options) :
  evaluate_options foreground o0 = Ok (inr o) ->
  args o = args o0
  /\ or_default (cachesize_str (args o0)) parse_size_with_unit
       (Z.shiftl 512 20) = Ok (cachesize o)
  /\ or_default (blocksize_str (args o0)) parse_size_with_unit
       kDefaultBlockSize = Ok (blocksize o)
  /\ or_default (readahead_str (args o0)) parse_size_with_unit 0
     = Ok (readahead o)
  /\ or_default (workers_str (args o0)) to_size_t 2 = Ok (workers o)
  /\ or_default (decompress_ratio_str (args o0)) to_double Double.lit_0_8
     = Ok (decompress_ratio o)
  /\ (cache_tidy_interval_str (args o0) = None ->
      block_cache_tidy_interval o = block_cache_tidy_interval o0)
  /\ (cache_tidy_max_age_str (args o0) = None ->
      block_cache_tidy_max_age o = block_cache_tidy_max_age o0)
  /\ seq_detector_threshold o = seq_detector_threshold o0
  /\ (forall name,
        cache_tidy_strategy_str (args o0) = Some name ->
        map_find cache_tidy_strategy_map name <> None).
Proof.
  intros H. unfold evaluate_options in H.
  step_rbind H threshold Ethreshold.
  step_rbind H vcache Ecache.
  step_rbind H vblock Eblock.
  step_rbind H vread Eread.
  step_rbind H vwork Ework.
  step_rbind H vlock Elock.
  step_rbind H vratio Eratio.
  change (args (set_logopts_threshold threshold o0)) with (args o0) in *.
  change (args (set_cachesize vcache (set_logopts_threshold threshold o0)))
    with (args o0) in *.
  set (o1 := set_cachesize vcache (set_logopts_threshold threshold o0)) in *.
  change (args (set_blocksize vblock o1)) with (args o0) in *.
  set (o2 := set_blocksize vblock o1) in *.
  change (args (set_readahead vread o2)) with (args o0) in *.
  set (o3 := set_readahead vread o2) in *.
  change (args (set_workers vwork o3)) with (args o0) in *.
  set (o4 := set_workers vwork o3) in *.
  change (args (set_lock_mode vlock o4)) with (args o0) in *.
  set (o5 := set_lock_mode vlock o4) in *.
  change (args (set_decompress_ratio vratio o5)) with (args o0) in *.
  set (o6 := set_decompress_ratio vratio o5) in *.
  destruct (cache_tidy_strategy_str (args o0)) as [name|].
  - destruct (map_find cache_tidy_strategy_map name) as [strategy|] eqn:Hfind;
      [|discriminate H].
    assert (Hknown : map_find cache_tidy_strategy_map name <> None)
      by congruence.
    clear Hfind.
    step_rbind H vinterval Einterval.
    step_rbind H vage Eage.
    change (args (set_block_cache_tidy_strategy strategy o6))
      with (args o0) in *.
    change (args (set_block_cache_tidy_interval vinterval
                    (set_block_cache_tidy_strategy strategy o6)))
      with (args o0) in *.
    change (block_cache_tidy_interval
              (set_block_cache_tidy_strategy strategy o6))
      with (block_cache_tidy_interval o0) in *.
    change (block_cache_tidy_max_age
              (set_block_cache_tidy_interval vinterval
                 (set_block_cache_tidy_strategy strategy o6)))
      with (block_cache_tidy_max_age o0) in *.
    injection H as <-.
    repeat split; auto.
    + intros Hnone. rewrite Hnone in Einterval. cbn [or_default] in Einterval.
      injection Einterval as <-. reflexivity.
    + intros Hnone. rewrite Hnone in Eage. cbn [or_default] in Eage.
      injection Eage as <-. reflexivity.
    + intros name' Heq. injection Heq as <-. exact Hknown.
  - injection H as <-. repeat split; auto. discriminate.
Qed.

Lemma evaluate_options_inr (foreground : bool) (a : option_strings)
    (o : options) :
  evaluate_options foreground (initial_options a) = Ok (inr o) ->
  args o = a
  /\ or_default (cachesize_str a) parse_size_with_unit (Z.shiftl 512 20)
     = Ok (cachesize o)
  /\ or_default (blocksize_str a) parse_size_with_unit kDefaultBlockSize
     = Ok (blocksize o)
  /\ or_default (readahead_str a) parse_size_with_unit 0 = Ok (readahead o)
  /\ or_default (workers_str a) to_size_t 2 = Ok (workers o)
  /\ or_default (decompress_ratio_str a) to_double Double.lit_0_8
     = Ok (decompress_ratio o)
  /\ (cache_tidy_interval_str a = None ->
      block_cache_tidy_interval o = minutes 5)
  /\ (cache_tidy_max_age_str a = None ->
      block_cache_tidy_max_age o = minutes 10)
  /\ seq_detector_threshold o = kDefaultSeqDetectorThreshold
  /\ (forall name,
        cache_tidy_strategy_str a = Some name ->
        map_find cache_tidy_strategy_map name <> None).
Proof.
  intros H. exact (evaluate_options_inr_from foreground _ o H).
Qed.

(** The options with which [load_filesystem] is called come out of the
    first [try] block, with a decompress ratio that passed the range
    check, and then receive the sequential detector threshold. *)
Lemma dwarfs_main_load_filesystem (a : option_strings) (o : options) :
  In (call_load_filesystem o) (fst (dwarfs_main build a)) ->
  exists foreground o1 v,
    evaluate_options foreground (initial_options a) = Ok (inr o1)
    /\ or_default (seq_detector_thresh_str (args o1)) to_size_t
         kDefaultSeqDetectorThreshold = Ok v
    /\ o = set_seq_detector_threshold v o1.
Proof.
  unfold dwarfs_main.
  destruct fuse_parse_cmdline as [[rc mountpoint] foreground].
  destruct ((rc =? -1)
            || match mountpoint with None => true | Some _ => false end).
  { destruct (DWARFS_BUILTIN_MANPAGE build && is_man (args (initial_options a)));
      cbn; intuition discriminate. }
  destruct (evaluate_options foreground (initial_options a))
    as [[name | o1] | e] eqn:Heval.
  - destruct foreground; cbn; intuition discriminate.
  - destruct (Double.lt (decompress_ratio o1) Double.zero
              || Double.lt Double.one (decompress_ratio o1)).
    { destruct foreground; cbn; intuition discriminate. }
    destruct (or_default (seq_detector_thresh_str (args o1)) to_size_t
                kDefaultSeqDetectorThreshold) as [v | e] eqn:Hseq.
    2:{ destruct foreground; cbn; intuition discriminate. }
    destruct (DWARFS_BUILTIN_MANPAGE build
              && is_man (args (set_seq_detector_threshold v o1))).
    { destruct foreground; cbn; intuition discriminate. }
    destruct (seen_mountpoint (args (set_seq_detector_threshold v o1)) =? 0).
    { destruct foreground; cbn; intuition discriminate. }
    intros Hin. exists foreground, o1, v. repeat split; auto.
    destruct (load_filesystem (set_seq_detector_threshold v o1));
      destruct foreground; cbn in Hin;
      intuition (try discriminate; congruence).
  - destruct e; destruct foreground; cbn; intuition discriminate.
Qed.

(** C7: in the options with which the filesystem is loaded, every value
    whose mount option string is absent has its default: cache size 512
    MiB, block size 512 KiB, readahead 0, 2 workers, decompress ratio 0.8,
    tidy interval 5 minutes, tidy max age 10 minutes and sequential
    detector threshold 4. *)
Theorem absent_options_take_defaults (a : option_strings) (o : options) :
  In (call_load_filesystem o) (fst (dwarfs_main build a)) ->
  (cachesize_str a = None -> cachesize o = 512 * 2 ^ 20)
  /\ (blocksize_str a = None -> blocksize o = 512 * 2 ^ 10)
  /\ (readahead_str a = None -> readahead o = 0)
  /\ (workers_str a = None -> workers o = 2)
  /\ (decompress_ratio_str a = None -> decompress_ratio o = Double.lit_0_8)
  /\ (cache_tidy_interval_str a = None ->
      block_cache_tidy_interval o = 5 * 60 * 1000)
  /\ (cache_tidy_max_age_str a = None ->
      block_cache_tidy_max_age o = 10 * 60 * 1000)
  /\ (seq_detector_thresh_str a = None -> seq_detector_threshold o = 4).
Proof.
  intros Hin.
  destruct (dwarfs_main_load_filesystem a o Hin)
    as [foreground [o1 [v [Heval [Hseq ->]]]]].
  destruct (evaluate_options_inr foreground a o1 Heval)
    as [Hargs [Hcache [Hblock [Hread [Hwork [Hratio [Hint [Hage _]]]]]]]].
  rewrite Hargs in Hseq. clear Hin Heval.
  cbn [cachesize blocksize readahead workers decompress_ratio
         block_cache_tidy_interval block_cache_tidy_max_age
         seq_detector_threshold set_seq_detector_threshold].
  repeat split; intros Hnone.
  - rewrite Hnone in Hcache. injection Hcache as <-. reflexivity.
  - rewrite Hnone in Hblock. injection Hblock as <-. reflexivity.
  - rewrite Hnone in Hread. injection Hread as <-. reflexivity.
  - rewrite Hnone in Hwork. injection Hwork as <-. reflexivity.
  - rewrite Hnone in Hratio. injection Hratio as <-. reflexivity.
  - rewrite (Hint Hnone). reflexivity.
  - rewrite (Hage Hnone). reflexivity.
  - rewrite Hnone in Hseq. injection Hseq as <-. reflexivity.
Qed.



End DwarfsMainFacts.

Import Sample.

Lemma absent_options_take_defaults_witness :
  In (call_load_filesystem plain_options)
     (fst (dwarfs_main (env := small_environment (0, Some "mnt"%string, false))
             linux_build plain_args))
  /\ cachesize plain_options = 512 * 2 ^ 20
  /\ blocksize plain_options = 512 * 2 ^ 10
  /\ readahead plain_options = 0
  /\ workers plain_options = 2
  /\ decompress_ratio plain_options = Double.lit_0_8
  /\ block_cache_tidy_interval plain_options = 5 * 60 * 1000
  /\ block_cache_tidy_max_age plain_options = 10 * 60 * 1000
  /\ seq_detector_threshold plain_options = 4.
Proof.
  assert (Hin : In (call_load_filesystem plain_options)
                  (fst (dwarfs_main
                          (env := small_environment
                                    (0, Some "mnt"%string, false))
                          linux_build plain_args)))
    by (vm_compute; left; reflexivity).
  destruct (@absent_options_take_defaults linux_build
              (small_environment (0, Some "mnt"%string, false)) plain_args
              plain_options Hin)
    as [H1 [H2 [H3 [H4 [H5 [H6 [H7 H8]]]]]]].
  split; [exact Hin|].
  split; [exact (H1 eq_refl)|].
  split; [exact (H2 eq_refl)|].
  split; [exact (H3 eq_refl)|].
  split; [exact (H4 eq_refl)|].
  split; [exact (H5 eq_refl)|].
  split; [exact (H6 eq_refl)|].
  split; [exact (H7 eq_refl) | exact (H8 eq_refl)].
Defined.



(** With [-o decratio=nan] the file system is loaded and the FUSE session
    runs: the exit status is the result of [run_fuse]. *)
Example nan_decratio_is_mounted :
  snd (dwarfs_main
         (env := SampleNan.nan_environment (0, Some "mnt"%string, false))
         linux_build (decratio_args "nan" false))
  = Ok 0
  /\ In call_run_fuse
        (fst (dwarfs_main
                (env := SampleNan.nan_environment
                          (0, Some "mnt"%string, false))
                linux_build (decratio_args "nan" false))).
Proof. split; [vm_compute; reflexivity | vm_compute; right; left; reflexivity]. Qed.

End MainFacts.

(* ================================================================== *)
(** * Further properties *)
(* ================================================================== *)

Module NilsimsaMetric.
Import Nilsimsa NilsimsaRange NilsimsaFacts.

Lemma popcount_bits_none (n : nat) (x : Z) :
  popcount_bits n x = 0 <->
  (forall j, 0 <= j < Z.of_nat n -> Z.testbit x j = false).
Proof.
  induction n as [|n IH]; simpl popcount_bits.
  - split; [intros _ j Hj; lia | reflexivity].
  - pose proof (popcount_bits_range n x) as Hr. split.
    + intros Hsum j Hj.
      destruct (Z.testbit x (Z.of_nat n)) eqn:Hb; simpl Z.b2z in Hsum; [lia|].
      destruct (Z.eq_dec j (Z.of_nat n)) as [-> | Hne]; [exact Hb|].
      apply IH; lia.
    + intros Hall. rewrite (Hall (Z.of_nat n)) by lia. simpl Z.b2z.
      assert (popcount_bits n x = 0) by (apply IH; intros; apply Hall; lia).
      lia.
Qed.

Lemma uint64_bits_high (x j : Z) :
  is_uint64 x -> 64 <= j -> Z.testbit x j = false.
Proof.
  intros Hx Hj. rewrite <- (Z.mod_small x (2 ^ 64)) by exact Hx.
  apply Z.mod_pow2_bits_high. lia.
Qed.

Lemma popcountl_zero_iff (x y : Z) :
  is_uint64 x -> is_uint64 y ->
  (popcountl (Z.lxor x y) = 0 <-> x = y).
Proof.
  intros Hx Hy. unfold popcountl. rewrite (popcount_bits_none 64).
  change (Z.of_nat 64) with 64. split.
  - intros Hbits. apply Z.bits_inj'. intros j Hj.
    destruct (Z_lt_ge_dec j 64) as [Hlt | Hge].
    + specialize (Hbits j (conj Hj Hlt)). rewrite Z.lxor_spec in Hbits.
      destruct (Z.testbit x j), (Z.testbit y j); simpl in Hbits; congruence.
    + rewrite !uint64_bits_high by (trivial; lia). reflexivity.
  - intros -> j Hj. rewrite Z.lxor_nilpotent. apply Z.testbit_0_l.
Qed.

(** X1: two hashes made of 64-bit words score 255 exactly when they are
    equal. *)
Theorem similarity_255_iff_equal (a b : hash_type) :
  well_formed a -> well_formed b ->
  (similarity a b = 255 <-> a = b).
Proof.
  intros [Ha0 [Ha1 [Ha2 Ha3]]] [Hb0 [Hb1 [Hb2 Hb3]]].
  unfold similarity. rewrite similarity_bits_unfold.
  pose proof (popcountl_range (Z.lxor (word0 a) (word0 b))) as H0.
  pose proof (popcountl_range (Z.lxor (word1 a) (word1 b))) as H1.
  pose proof (popcountl_range (Z.lxor (word2 a) (word2 b))) as H2.
  pose proof (popcountl_range (Z.lxor (word3 a) (word3 b))) as H3.
  pose proof (popcountl_zero_iff _ _ Ha0 Hb0) as E0.
  pose proof (popcountl_zero_iff _ _ Ha1 Hb1) as E1.
  pose proof (popcountl_zero_iff _ _ Ha2 Hb2) as E2.
  pose proof (popcountl_zero_iff _ _ Ha3 Hb3) as E3.
  split.
  - intros Hsum.
    assert (Z0 : popcountl (Z.lxor (word0 a) (word0 b)) = 0) by lia.
    assert (Z1 : popcountl (Z.lxor (word1 a) (word1 b)) = 0) by lia.
    assert (Z2 : popcountl (Z.lxor (word2 a) (word2 b)) = 0) by lia.
    assert (Z3 : popcountl (Z.lxor (word3 a) (word3 b)) = 0) by lia.
    apply E0 in Z0. apply E1 in Z1. apply E2 in Z2. apply E3 in Z3.
    destruct a, b. cbn in *. congruence.
  - intros <-.
    rewrite (proj2 E0 eq_refl), (proj2 E1 eq_refl), (proj2 E2 eq_refl),
      (proj2 E3 eq_refl). reflexivity.
Qed.

Lemma similarity_255_iff_equal_witness :
  similarity (mk_hash 1 2 3 4) (mk_hash 1 2 3 4) = 255
  <-> mk_hash 1 2 3 4 = mk_hash 1 2 3 4.
Proof.
  apply (similarity_255_iff_equal (mk_hash 1 2 3 4) (mk_hash 1 2 3 4));
    unfold well_formed, is_uint64; cbn; lia.
Defined.

Lemma popcount_bits_triangle (n : nat) (x y z : Z) :
  popcount_bits n (Z.lxor x z)
  <= popcount_bits n (Z.lxor x y) + popcount_bits n (Z.lxor y z).
Proof.
  induction n as [|n IH]; simpl popcount_bits; [lia|].
  rewrite !Z.lxor_spec.
  destruct (Z.testbit x (Z.of_nat n)), (Z.testbit y (Z.of_nat n)),
    (Z.testbit z (Z.of_nat n)); cbn [xorb Z.b2z]; lia.
Qed.

(** X2: the number of differing bits, 255 minus the score, obeys the
    triangle inequality, is symmetric and is never negative. *)
Theorem distance_is_a_metric (a b c : hash_type) :
  distance a c <= distance a b + distance b c
  /\ distance a b = distance b a
  /\ 0 <= distance a b <= 256.
Proof.
  unfold distance, similarity. rewrite !similarity_bits_unfold.
  pose proof (popcount_bits_triangle 64 (word0 a) (word0 b) (word0 c)).
  pose proof (popcount_bits_triangle 64 (word1 a) (word1 b) (word1 c)).
  pose proof (popcount_bits_triangle 64 (word2 a) (word2 b) (word2 c)).
  pose proof (popcount_bits_triangle 64 (word3 a) (word3 b) (word3 c)).
  pose proof (popcountl_range (Z.lxor (word0 a) (word0 b))).
  pose proof (popcountl_range (Z.lxor (word1 a) (word1 b))).
  pose proof (popcountl_range (Z.lxor (word2 a) (word2 b))).
  pose proof (popcountl_range (Z.lxor (word3 a) (word3 b))).
  unfold popcountl in *.
  split; [lia|]. split; [|lia].
  rewrite (Z.lxor_comm (word0 a)), (Z.lxor_comm (word1 a)),
    (Z.lxor_comm (word2 a)), (Z.lxor_comm (word3 a)). reflexivity.
Qed.

End NilsimsaMetric.

Module RiceppExtra.
Import Ricepp RiceppBits RiceppFacts.

Section ZigZag.
Context {traits : PixelTraits}.
Variable w : Z.
Hypothesis Hfull : full_width traits w.
Hypothesis Hw : 1 <= w < 2 ^ 32.

Lemma kPixelBits_full : kPixelBits = w.
Proof.
  unfold kPixelBits. destruct Hfull as [_ ->]. apply wrap_small. lia.
Qed.

Lemma kPixelMsb_full : kPixelMsb = 2 ^ (w - 1).
Proof.
  unfold kPixelMsb. rewrite kPixelBits_full. destruct Hfull as [-> _].
  rewrite Z.shiftl_mul_pow2, Z.mul_1_l by lia.
  apply wrap_small. split; [apply Z.pow_nonneg; lia|].
  apply Z.pow_lt_mono_r; lia.
Qed.

Lemma pow2_w : 2 ^ w = 2 * 2 ^ (w - 1).
Proof. rewrite <- Z.pow_succ_r by lia. f_equal. lia. Qed.

(** The test [diff & kPixelMsb] looks at the top bit of the difference. *)
Lemma msb_test (diff : Z) :
  0 <= diff < 2 ^ w ->
  (Z.land diff (2 ^ (w - 1)) =? 0) = (diff <? 2 ^ (w - 1)).
Proof.
  intros Hd. pose proof pow2_w as Hp.
  assert (Hpos : 0 < 2 ^ (w - 1)) by (apply Z.pow_pos_nonneg; lia).
  assert (Hland : Z.land diff (2 ^ (w - 1))
                  = Z.b2z (Z.testbit diff (w - 1)) * 2 ^ (w - 1)).
  { apply Z.bits_inj'. intros j Hj.
    rewrite Z.land_spec, Z.pow2_bits_eqb by lia.
    destruct (Z.eqb_spec (w - 1) j) as [<- | Hne].
    - rewrite andb_true_r.
      destruct (Z.testbit diff (w - 1)); cbn [Z.b2z].
      + rewrite Z.mul_1_l, Z.pow2_bits_true by lia. reflexivity.
      + rewrite Z.mul_0_l, Z.testbit_0_l. reflexivity.
    - rewrite andb_false_r.
      destruct (Z.testbit diff (w - 1)); cbn [Z.b2z].
      + rewrite Z.mul_1_l, Z.pow2_bits_false by lia. reflexivity.
      + rewrite Z.mul_0_l, Z.testbit_0_l. reflexivity. }
  rewrite Hland.
  pose proof (Z.testbit_spec' diff (w - 1) ltac:(lia)) as Hbit.
  assert (Hq : 0 <= diff / 2 ^ (w - 1) < 2).
  { split; [apply Z.div_pos; lia|].
    apply Z.div_lt_upper_bound; lia. }
  rewrite Z.mod_small in Hbit by exact Hq.
  destruct (Z.ltb_spec diff (2 ^ (w - 1))) as [Hlt | Hge].
  - rewrite Z.div_small in Hbit by lia. rewrite Hbit. reflexivity.
  - assert (diff / 2 ^ (w - 1) = 1).
    { assert (1 <= diff / 2 ^ (w - 1)); [|lia].
      apply Z.div_le_lower_bound; lia. }
    rewrite Hbit. apply Z.eqb_neq. lia.
Qed.

Lemma signed_of_wrapped (x : Z) :
  signed w (wrap w x) = signed w x.
Proof.
  unfold signed, wrap. rewrite Zplus_mod_idemp_l. reflexivity.
Qed.

Lemma signed_cases (diff : Z) :
  0 <= diff < 2 ^ w ->
  signed w diff = if diff <? 2 ^ (w - 1) then diff else diff - 2 ^ w.
Proof.
  intros Hd. pose proof pow2_w as Hp. unfold signed.
  assert (Hpos : 0 < 2 ^ (w - 1)) by (apply Z.pow_pos_nonneg; lia).
  destruct (Z.ltb_spec diff (2 ^ (w - 1))) as [Hlt | Hge].
  - rewrite Z.mod_small by lia. lia.
  - replace (diff + 2 ^ (w - 1)) with (diff - 2 ^ (w - 1) + 1 * 2 ^ w) by lia.
    rewrite Z_mod_plus_full, Z.mod_small by lia. lia.
Qed.

(** The value stored in [delta[i]] for a difference [diff]: twice the
    signed difference when it is not negative, and otherwise twice its
    magnitude minus one. *)
Lemma zigzag_value (diff : Z) :
  0 <= diff < 2 ^ w ->
  wrap value_bits
    (if negb (Z.land diff kPixelMsb =? 0) then Z.lnot (Z.shiftl diff 1)
     else Z.shiftl diff 1)
  = if 0 <=? signed w diff then 2 * signed w diff
    else - 2 * signed w diff - 1.
Proof.
  intros Hd. pose proof pow2_w as Hp.
  assert (Hpos : 0 < 2 ^ (w - 1)) by (apply Z.pow_pos_nonneg; lia).
  rewrite kPixelMsb_full, msb_test, signed_cases by exact Hd.
  destruct Hfull as [-> _].
  rewrite Z.shiftl_mul_pow2 by lia. change (2 ^ 1) with 2.
  destruct (Z.ltb_spec diff (2 ^ (w - 1))) as [Hlt | Hge]; cbn [negb].
  - destruct (Z.leb_spec 0 diff); [|lia].
    rewrite wrap_small by lia. lia.
  - destruct (Z.leb_spec 0 (diff - 2 ^ w)); [lia|].
    unfold wrap, Z.lnot. 
    replace (Z.pred (- (diff * 2)))
      with (- 2 * (diff - 2 ^ w) - 1 + (-2) * 2 ^ w) by lia.
    rewrite Z_mod_plus_full, Z.mod_small by lia. reflexivity.
Qed.

Lemma delta_code (x : Z) :
  wrap value_bits
    (if negb (Z.land (wrap value_bits x) kPixelMsb =? 0)
     then Z.lnot (Z.shiftl (wrap value_bits x) 1)
     else Z.shiftl (wrap value_bits x) 1)
  = if 0 <=? signed w x then 2 * signed w x else - 2 * signed w x - 1.
Proof.
  assert (Hvb : value_bits = w) by (destruct Hfull; assumption).
  assert (Hd : 0 <= wrap value_bits x < 2 ^ w)
    by (rewrite Hvb; apply wrap_range; lia).
  rewrite (zigzag_value _ Hd). rewrite Hvb, signed_of_wrapped. reflexivity.
Qed.

Lemma delta_code_range (x : Z) :
  0 <= (if 0 <=? signed w x then 2 * signed w x else - 2 * signed w x - 1)
    < 2 ^ w.
Proof.
  rewrite <- delta_code.
  assert (Hvb : value_bits = w) by (destruct Hfull; assumption).
  rewrite Hvb. apply wrap_range. lia.
Qed.

(** X3: one step of the first loop of [encode_block] appends to [delta]
    the zigzag code of the signed difference between the pixel and its
    predecessor: [2 s] for [s >= 0] and [-2 s - 1] for [s < 0]; it adds
    this code to [sum] and makes the pixel the new predecessor. *)
Theorem delta_step_is_zigzag (delta : list Z) (sum last px : Z) :
  let s := signed w (read px - last) in
  let code := if 0 <=? s then 2 * s else - 2 * s - 1 in
  delta_step (delta, sum, last) px
  = (delta ++ [code], wrap 64 (sum + code), read px)
  /\ 0 <= code < 2 ^ w.
Proof.
  cbv zeta. unfold delta_step. rewrite delta_code.
  split; [reflexivity | apply delta_code_range].
Qed.

(** X4: the difference code is lossless: from the code appended to
    [delta] and the predecessor, the pixel is recovered modulo [2 ^ w] by
    adding [code / 2] to the predecessor when the code is even and
    subtracting [(code + 1) / 2] when it is odd. *)
Theorem delta_step_is_lossless (delta : list Z) (sum last px : Z) :
  exists code,
    fst (fst (delta_step (delta, sum, last) px)) = delta ++ [code]
    /\ wrap w (last + (if Z.even code then code / 2
                       else - ((code + 1) / 2)))
       = wrap w (read px).
Proof.
  set (s := signed w (read px - last)).
  exists (if 0 <=? s then 2 * s else - 2 * s - 1).
  split.
  - unfold delta_step. cbn [fst]. rewrite delta_code. reflexivity.
  - assert (Hs : wrap w (last + s) = wrap w (read px)).
    { unfold s, signed, wrap.
      rewrite <- Zplus_mod_idemp_r, Zminus_mod_idemp_l, Zplus_mod_idemp_r.
      f_equal. lia. }
    destruct (Z.leb_spec 0 s) as [Hnn | Hneg].
    + rewrite Z.even_mul. cbn [Z.even orb].
      replace (2 * s / 2) with s
        by (symmetry; rewrite Z.mul_comm; apply Z.div_mul; lia).
      exact Hs.
    + replace (- 2 * s - 1) with (1 + 2 * (- s - 1)) by lia.
      rewrite Z.even_add_mul_2. cbn [Z.even].
      replace (1 + 2 * (- s - 1) + 1) with (- s * 2) by lia.
      rewrite Z.div_mul by lia. rewrite Z.opp_involutive. exact Hs.
Qed.

End ZigZag.

Section Cost.
Context {traits : PixelTraits}.
Hypothesis Hvb : 0 <= value_bits.

Lemma bits_above (n d j : Z) :
  0 <= n -> 0 <= d < 2 ^ n -> n <= j -> Z.testbit d j = false.
Proof.
  intros Hn Hd Hj. rewrite <- (Z.mod_small d (2 ^ n)) by exact Hd.
  apply Z.mod_pow2_bits_high. lia.
Qed.

(** [delta[i] & mask] clears the [fs] low bits of [delta[i]]. *)
Lemma land_mask (d fs : Z) :
  0 <= d < 2 ^ value_bits -> 0 <= fs ->
  Z.land d (wrap promoted_bits (Z.shiftl (2 ^ value_bits - 1) fs))
  = Z.shiftl (Z.shiftr d fs) fs.
Proof.
  intros Hd Hfs.
  assert (Hpb : value_bits <= promoted_bits) by (unfold promoted_bits; lia).
  replace (2 ^ value_bits - 1) with (Z.ones value_bits)
    by (rewrite Z.ones_equiv; lia).
  apply Z.bits_inj'. intros j Hj. unfold wrap.
  rewrite Z.land_spec, Z.testbit_mod_pow2, !Z.shiftl_spec by lia.
  rewrite Z.testbit_ones by lia.
  destruct (Z.ltb_spec (j - fs) 0) as [Hlow | Hhigh].
  - rewrite (Z.testbit_neg_r _ (j - fs)) by lia.
    destruct (0 <=? j - fs) eqn:E; [apply Z.leb_le in E; lia|].
    cbn [andb]. rewrite !andb_false_r. reflexivity.
  - rewrite Z.shiftr_spec by lia. replace (j - fs + fs) with j by lia.
    destruct (Z.testbit d j) eqn:Hbit; [|reflexivity].
    assert (Hjv : j < value_bits).
    { destruct (Z_lt_ge_dec j value_bits) as [Hlt | Hge]; [exact Hlt|].
      rewrite (bits_above value_bits d j) in Hbit by (trivial; lia).
      discriminate Hbit. }
    destruct (Z.ltb_spec j promoted_bits); [|lia].
    destruct (Z.leb_spec 0 (j - fs)); [|lia].
    destruct (Z.ltb_spec (j - fs) value_bits); [|lia].
    reflexivity.
Qed.

(** The loop over [i < size] reads the elements of [delta] in order. *)
Lemma fold_seq_nth {A : Type} (f : A -> Z -> A) (l pre : list Z) (a : A) :
  fold_left (fun acc i => f acc (nth i (pre ++ l) 0))
            (seq (List.length pre) (List.length l)) a
  = fold_left f l a.
Proof.
  revert pre a. induction l as [|x l IH]; intros pre a.
  - reflexivity.
  - cbn [List.length seq fold_left]. rewrite nth_middle.
    replace (pre ++ x :: l) with ((pre ++ [x]) ++ l)
      by (rewrite <- app_assoc; reflexivity).
    replace (S (List.length pre)) with (List.length (pre ++ [x]))
      by (rewrite length_app; cbn; lia).
    apply IH.
Qed.

Lemma fold_wrap32_total (g : Z -> Z) (l : list Z) (b : Z) :
  (forall d, In d l -> 0 <= g d) -> 0 <= b ->
  b + total (map g l) < 2 ^ 32 ->
  fold_left (fun bits d => wrap 32 (bits + g d)) l b = b + total (map g l).
Proof.
  revert b. induction l as [|x l IH]; intros b Hg Hb Hsum.
  - cbn. lia.
  - cbn [fold_left map total fold_right] in *.
    assert (Hrest : 0 <= total (map g l)).
    { clear - Hg. induction l as [|y l IH]; cbn; [lia|].
      assert (0 <= g y) by (apply Hg; right; left; reflexivity).
      assert (0 <= total (map g l))
        by (apply IH; intros d [Hd | Hd]; apply Hg;
            [left; exact Hd | right; right; exact Hd]).
      unfold total in *. lia. }
    assert (Hx : 0 <= g x) by (apply Hg; left; reflexivity).
    fold (total (map g l)) in Hsum.
    rewrite wrap_small by lia.
    rewrite IH; [fold (total (map g l)); lia | | lia | lia].
    intros d Hd. apply Hg. right. exact Hd.
Qed.

Lemma total_shifted (fs : Z) (l : list Z) :
  0 <= fs ->
  total (map (fun d => Z.shiftl (Z.shiftr d fs) fs) l)
  = total (map (fun d => Z.shiftr d fs) l) * 2 ^ fs.
Proof.
  intros Hfs. induction l as [|x l IH]; [reflexivity|].
  cbn [map total fold_right]. fold (total (map (fun d => Z.shiftl (Z.shiftr d fs) fs) l)).
  fold (total (map (fun d => Z.shiftr d fs) l)).
  rewrite IH, Z.shiftl_mul_pow2 by lia. lia.
Qed.

Lemma total_shifted_le (fs : Z) (l : list Z) :
  0 <= fs -> (forall d, In d l -> 0 <= d) ->
  0 <= total (map (fun d => Z.shiftr d fs) l) <= total l.
Proof.
  intros Hfs Hl. induction l as [|x l IH]; [cbn; lia|].
  cbn [map total fold_right].
  fold (total (map (fun d => Z.shiftr d fs) l)). fold (total l).
  assert (0 <= x) by (apply Hl; left; reflexivity).
  assert (0 <= total (map (fun d => Z.shiftr d fs) l) <= total l)
    by (apply IH; intros d Hd; apply Hl; right; exact Hd).
  rewrite Z.shiftr_div_pow2 by lia.
  assert (0 < 2 ^ fs) by (apply Z.pow_pos_nonneg; lia).
  assert (0 <= x / 2 ^ fs) by (apply Z.div_pos; lia).
  assert (x / 2 ^ fs <= x) by (apply Z.div_le_upper_bound; nia).
  lia.
Qed.

(** Without overflow, [bits_for_fs] is [size * (fs + 1)] plus the sum of
    the values [delta[i] >> fs]. *)
Lemma bits_for_fs_exact (delta : list Z) (fs : Z) :
  (forall d, In d delta -> 0 <= d < 2 ^ value_bits) -> 0 <= fs ->
  total delta < 2 ^ 32 ->
  Z.of_nat (List.length delta) * (fs + 1) < 2 ^ 63 ->
  bits_for_fs delta (List.length delta) fs
  = Z.of_nat (List.length delta) * (fs + 1)
    + total (map (fun d => Z.shiftr d fs) delta).
Proof.
  intros Hrange Hfs Hsum Hsize. unfold bits_for_fs.
  pose proof (total_shifted_le fs delta Hfs
                ltac:(intros d Hd; apply Hrange; exact Hd)) as Hle.
  pose proof (fold_seq_nth
                (fun bits d =>
                   wrap 32 (bits + Z.land d
                                     (wrap promoted_bits
                                        (Z.shiftl (2 ^ value_bits - 1) fs))))
                delta [] 0) as Hfold.
  cbn [app List.length] in Hfold. rewrite Hfold.
  assert (Hmask : fold_left
            (fun bits d =>
               wrap 32 (bits + Z.land d
                                 (wrap promoted_bits
                                    (Z.shiftl (2 ^ value_bits - 1) fs))))
            delta 0
          = total (map (fun d => Z.shiftr d fs) delta) * 2 ^ fs).
  { rewrite <- total_shifted by exact Hfs.
    assert (Hext : forall l b,
               (forall d, In d l -> 0 <= d < 2 ^ value_bits) ->
               fold_left
                 (fun bits d =>
                    wrap 32 (bits + Z.land d
                                      (wrap promoted_bits
                                         (Z.shiftl (2 ^ value_bits - 1) fs))))
                 l b
               = fold_left
                   (fun bits d =>
                      wrap 32 (bits + Z.shiftl (Z.shiftr d fs) fs)) l b).
    { induction l as [|x l IH]; intros b Hl; [reflexivity|].
      cbn [fold_left]. rewrite land_mask by (trivial; apply Hl; left; reflexivity).
      apply IH. intros d Hd. apply Hl. right. exact Hd. }
    rewrite Hext by exact Hrange.
    rewrite (fold_wrap32_total (fun d => Z.shiftl (Z.shiftr d fs) fs)).
    - lia.
    - intros d Hd. apply Z.shiftl_nonneg, Z.shiftr_nonneg.
      apply Hrange. exact Hd.
    - lia.
    - rewrite total_shifted by exact Hfs.
      assert (0 < 2 ^ fs) by (apply Z.pow_pos_nonneg; lia).
      assert (total (map (fun d => Z.shiftr d fs) delta) * 2 ^ fs
              <= total delta); [|lia].
      clear - Hrange Hfs H. induction delta as [|x l IH]; [cbn; lia|].
      cbn [map total fold_right].
      fold (total (map (fun d => Z.shiftr d fs) l)). fold (total l).
      assert (0 <= x) by (apply Hrange; left; reflexivity).
      assert (total (map (fun d => Z.shiftr d fs) l) * 2 ^ fs <= total l)
        by (apply IH; intros d Hd; apply Hrange; right; exact Hd).
      rewrite Z.shiftr_div_pow2 by lia.
      assert (2 ^ fs * (x / 2 ^ fs) <= x) by (apply Z.mul_div_le; lia).
      nia. }
  rewrite Hmask, Z.shiftr_div_pow2, Z.div_mul by
    (try apply Z.pow_nonzero; lia).
  apply wrap_small.
  assert (0 <= Z.of_nat (List.length delta) * (fs + 1)) by nia.
  lia.
Qed.

(** The bits that the Rice branch of [encode_block] writes for [delta]. *)
Lemma rice_ops_bits (delta : list Z) (fs : Z) :
  (forall d, In d delta -> 0 <= d) -> 0 <= fs ->
  ops_bits (List.concat (map (rice_ops fs) delta))
  = Z.of_nat (List.length delta) * (fs + 1)
    + total (map (fun d => Z.shiftr d fs) delta).
Proof.
  intros Hrange Hfs. induction delta as [|x l IH]; [reflexivity|].
  cbn [map List.concat List.length total fold_right].
  fold (total (map (fun d => Z.shiftr d fs) l)).
  unfold ops_bits in *. rewrite fold_right_app.
  assert (Hx : 0 <= Z.shiftr x fs)
    by (apply Z.shiftr_nonneg, Hrange; left; reflexivity).
  rewrite IH by (intros d Hd; apply Hrange; right; exact Hd).
  unfold rice_ops. rewrite Nat2Z.inj_succ.
  destruct (Z.ltb_spec 0 (Z.shiftr x fs)); cbn [app fold_right op_bits]; lia.
Qed.

(** X5: when neither the 32-bit sum of [bits_for_fs] nor its result
    overflow, the number of bits that [compute_best_split] predicts for a
    split position is the number of bits that the Rice branch of
    [encode_block] asks the writer to write for the difference values:
    per value the unary part, the stop bit and [fs] low bits. *)
Theorem bits_for_fs_is_rice_size (delta : list Z) (fs : Z) :
  (forall d, In d delta -> 0 <= d < 2 ^ value_bits) -> 0 <= fs ->
  total delta < 2 ^ 32 ->
  Z.of_nat (List.length delta) * (fs + 1) < 2 ^ 63 ->
  bits_for_fs delta (List.length delta) fs
  = ops_bits (List.concat (map (rice_ops fs) delta)).
Proof.
  intros Hrange Hfs Hsum Hsize.
  rewrite bits_for_fs_exact by assumption.
  rewrite rice_ops_bits; [reflexivity | | exact Hfs].
  intros d Hd. apply Hrange. exact Hd.
Qed.

End Cost.

Lemma bits_for_fs_is_rice_size_witness :
  @bits_for_fs uint16_traits [5; 0; 12; 3] 4 1
  = ops_bits (List.concat (map (rice_ops 1) [5; 0; 12; 3])).
Proof.
  apply (@bits_for_fs_is_rice_size uint16_traits ltac:(cbn; lia)
           [5; 0; 12; 3] 1).
  - intros d [<- | [<- | [<- | [<- | []]]]]; cbn; lia.
  - lia.
  - cbn. lia.
  - cbn. lia.
Defined.

Section Split.
Context {traits : PixelTraits}.

Lemma to_int_small (x : Z) : 0 <= x < 2 ^ 31 -> to_int x = x.
Proof. intros Hx. unfold to_int. rewrite Z.mod_small by lia. lia. Qed.

Lemma wrap_to_int (x : Z) : wrap 32 (to_int x) = wrap 32 x.
Proof.
  unfold wrap, to_int. rewrite Zminus_mod_idemp_l. f_equal. lia.
Qed.

Lemma bits_for_fs_nonneg (delta : list Z) (size : nat) (fs : Z) :
  0 <= bits_for_fs delta size fs < 2 ^ 64.
Proof. unfold bits_for_fs. apply wrap_range. lia. Qed.

(** The loop of [compute_best_split] keeps in [bits] the cost of
    [cand_fs], stays between 0 and [FsMax] once it moves, and, when the
    costs fit an [int], never moves to a dearer position. *)
Lemma split_loop_result (fuel : nat) (FsMax : Z) (delta : list Z)
    (size : nat) (direction : Z) :
  FsMax < 2 ^ 32 -> direction = 1 \/ direction = -1 ->
  forall cand_fs bits r,
    0 <= cand_fs < 2 ^ 32 ->
    bits = to_int (bits_for_fs delta size cand_fs) ->
    split_loop fuel FsMax delta size direction cand_fs bits = Some r ->
    0 <= fst r <= Z.max cand_fs FsMax
    /\ snd r = to_int (bits_for_fs delta size (fst r))
    /\ ((forall f, bits_for_fs delta size f < 2 ^ 31) -> snd r <= bits).
Proof.
  intros HFs Hdir.
  induction fuel as [|fuel IH]; intros cand_fs bits r Hc Hb Hr;
    cbn [split_loop] in Hr;
    destruct ((0 <? cand_fs) && (wrap 32 cand_fs <? FsMax)) eqn:Hg;
    try discriminate Hr;
    try (injection Hr as <-; cbn [fst snd]; repeat split; auto; lia).
  apply andb_prop in Hg. destruct Hg as [Hg1 Hg2].
  rewrite wrap_small in Hg2 by exact Hc. apply Z.ltb_lt in Hg1, Hg2.
  destruct (wrap 64 bits <? bits_for_fs delta size (cand_fs + direction))
    eqn:Hbreak.
  - injection Hr as <-. cbn [fst snd]. repeat split; auto; lia.
  - destruct (IH (cand_fs + direction)
                (to_int (bits_for_fs delta size (cand_fs + direction))) r
                ltac:(lia) eq_refl Hr) as [Hrange [Hcost Hdesc]].
    split; [lia|]. split; [exact Hcost|].
    intros Hsmall. specialize (Hdesc Hsmall).
    pose proof (bits_for_fs_nonneg delta size cand_fs) as Hn1.
    pose proof (bits_for_fs_nonneg delta size (cand_fs + direction)) as Hn2.
    pose proof (Hsmall cand_fs) as Hs1.
    pose proof (Hsmall (cand_fs + direction)) as Hs2.
    rewrite to_int_small in Hdesc by lia.
    rewrite Hb, to_int_small in Hbreak by lia.
    rewrite wrap_small in Hbreak by lia.
    apply Z.ltb_ge in Hbreak.
    rewrite Hb, to_int_small by lia. lia.
Qed.

(** What [compute_best_split] returns: the cost of the position found,
    and a cost that is not above the costs of the starting positions. *)
Lemma compute_best_split_spec (FsMax : Z) (delta : list Z) (size : nat)
    (sum : Z) :
  0 <= FsMax < 2 ^ 32 -> 0 <= sum < 2 ^ 64 ->
  exists fs bits,
    compute_best_split FsMax delta size sum = Some (fs, bits)
    /\ 0 <= fs <= Z.max 63 FsMax
    /\ bits = wrap 32 (bits_for_fs delta size fs)
    /\ ((forall f, bits_for_fs delta size f < 2 ^ 31) ->
        let start_fs :=
          64 - Z.min 64 (countl_zero64 (sum / Z.of_nat size) + 2) in
        bits <= bits_for_fs delta size start_fs
        /\ bits <= bits_for_fs delta size (start_fs + 1)).
Proof.
  intros HFs Hsum. unfold compute_best_split. cbv zeta.
  assert (Hq : sum / Z.of_nat size < 2 ^ 64).
  { destruct size as [|n].
    - cbn [Z.of_nat]. rewrite Z.div_0_r. lia.
    - apply Z.le_lt_trans with sum; [|lia].
      apply Z.div_le_upper_bound; nia. }
  pose proof (countl_zero64_range _ Hq) as Hclz.
  set (start_fs := 64 - Z.min 64 (countl_zero64 (sum / Z.of_nat size) + 2)).
  assert (Hstart : 0 <= start_fs <= 62) by (unfold start_fs; lia).
  pose proof (bits_for_fs_nonneg delta size start_fs) as Hn0.
  pose proof (bits_for_fs_nonneg delta size (start_fs + 1)) as Hn1.
  set (bits0 := bits_for_fs delta size start_fs) in *.
  set (bits1 := bits_for_fs delta size (start_fs + 1)) in *.
  assert (Hfinish :
    forall direction cand_fs bits,
      (direction = 1 \/ direction = -1) ->
      0 <= cand_fs <= 63 ->
      bits = to_int (bits_for_fs delta size cand_fs) ->
      exists c b,
        (if negb (bits0 =? bits1)
         then split_loop (Z.to_nat FsMax) FsMax delta size direction
                cand_fs bits
         else Some (cand_fs, bits)) = Some (c, b)
        /\ 0 <= c <= Z.max 63 FsMax
        /\ b = to_int (bits_for_fs delta size c)
        /\ ((forall f, bits_for_fs delta size f < 2 ^ 31) -> b <= bits)).
  { intros direction cand_fs bits Hdir Hc Hb.
    destruct (negb (bits0 =? bits1)).
    - destruct (split_loop_terminates (Z.to_nat FsMax) FsMax delta size
                  direction ltac:(lia) Hdir cand_fs bits ltac:(lia))
        as [[c b] Hr].
      { intros Hin. rewrite Z2Nat.id by lia. lia. }
      destruct (split_loop_result (Z.to_nat FsMax) FsMax delta size direction
                  ltac:(lia) Hdir cand_fs bits (c, b) ltac:(lia) Hb Hr)
        as [Hrange [Hcost Hdesc]].
      cbn [fst snd] in *. exists c, b. repeat split; auto; lia.
    - exists cand_fs, bits. repeat split; auto; lia. }
  destruct (bits1 <=? bits0) eqn:Hcmp.
  - destruct (Hfinish 1 (start_fs + 1) (to_int bits1)
                ltac:(left; reflexivity) ltac:(lia) eq_refl)
      as [c [b [Hres [Hrange [Hcost Hdesc]]]]].
    rewrite Hres. exists (wrap 32 c), (wrap 32 b).
    rewrite (wrap_small 32 c) by lia.
    split; [reflexivity|]. split; [exact Hrange|].
    split; [rewrite Hcost; apply wrap_to_int|].
    intros Hsmall. specialize (Hdesc Hsmall).
    pose proof (Hsmall start_fs) as Hs0.
    pose proof (Hsmall (start_fs + 1)) as Hs1.
    fold bits0 in Hs0. fold bits1 in Hs1.
    apply Z.leb_le in Hcmp.
    rewrite to_int_small in Hdesc by lia.
    pose proof (bits_for_fs_nonneg delta size c) as Hnc.
    pose proof (Hsmall c) as Hsc.
    assert (Hb : b = bits_for_fs delta size c)
      by (rewrite Hcost; apply to_int_small; lia).
    rewrite wrap_small by lia. lia.
  - destruct (Hfinish (-1) start_fs (to_int bits0)
                ltac:(right; reflexivity) ltac:(lia) eq_refl)
      as [c [b [Hres [Hrange [Hcost Hdesc]]]]].
    rewrite Hres. exists (wrap 32 c), (wrap 32 b).
    rewrite (wrap_small 32 c) by lia.
    split; [reflexivity|]. split; [exact Hrange|].
    split; [rewrite Hcost; apply wrap_to_int|].
    intros Hsmall. specialize (Hdesc Hsmall).
    pose proof (Hsmall start_fs) as Hs0.
    pose proof (Hsmall (start_fs + 1)) as Hs1.
    fold bits0 in Hs0. fold bits1 in Hs1.
    apply Z.leb_gt in Hcmp.
    rewrite to_int_small in Hdesc by lia.
    pose proof (bits_for_fs_nonneg delta size c) as Hnc.
    pose proof (Hsmall c) as Hsc.
    assert (Hb : b = bits_for_fs delta size c)
      by (rewrite Hcost; apply to_int_small; lia).
    rewrite wrap_small by lia. lia.
Qed.

(** The loop between 0 and [hi]: it only computes the cost of positions
    in this range, and the result is one of them. *)
Lemma split_loop_within (hi : Z) (fuel : nat) (FsMax : Z) (delta : list Z)
    (size : nat) (direction : Z) :
  FsMax <= hi -> hi < 2 ^ 32 -> direction = 1 \/ direction = -1 ->
  forall cand_fs bits r,
    0 <= cand_fs <= hi ->
    bits = to_int (bits_for_fs delta size cand_fs) ->
    split_loop fuel FsMax delta size direction cand_fs bits = Some r ->
    0 <= fst r <= hi
    /\ snd r = to_int (bits_for_fs delta size (fst r))
    /\ ((forall f, 0 <= f <= hi -> bits_for_fs delta size f < 2 ^ 31) ->
        snd r <= bits).
Proof.
  intros HFs Hhi Hdir.
  induction fuel as [|fuel IH]; intros cand_fs bits r Hc Hb Hr;
    cbn [split_loop] in Hr;
    destruct ((0 <? cand_fs) && (wrap 32 cand_fs <? FsMax)) eqn:Hg;
    try discriminate Hr;
    try (injection Hr as <-; cbn [fst snd]; repeat split; auto; lia).
  apply andb_prop in Hg. destruct Hg as [Hg1 Hg2].
  rewrite wrap_small in Hg2 by lia. apply Z.ltb_lt in Hg1, Hg2.
  destruct (wrap 64 bits <? bits_for_fs delta size (cand_fs + direction))
    eqn:Hbreak.
  - injection Hr as <-. cbn [fst snd]. repeat split; auto; lia.
  - destruct (IH (cand_fs + direction)
                (to_int (bits_for_fs delta size (cand_fs + direction))) r
                ltac:(lia) eq_refl Hr) as [Hrange [Hcost Hdesc]].
    split; [exact Hrange|]. split; [exact Hcost|].
    intros Hsmall. specialize (Hdesc Hsmall).
    pose proof (bits_for_fs_nonneg delta size cand_fs) as Hn1.
    pose proof (bits_for_fs_nonneg delta size (cand_fs + direction)) as Hn2.
    pose proof (Hsmall cand_fs ltac:(lia)) as Hs1.
    pose proof (Hsmall (cand_fs + direction) ltac:(lia)) as Hs2.
    rewrite to_int_small in Hdesc by lia.
    rewrite Hb, to_int_small in Hbreak by lia.
    rewrite wrap_small in Hbreak by lia.
    apply Z.ltb_ge in Hbreak.
    rewrite Hb, to_int_small by lia. lia.
Qed.

(** X6: for a block that is not empty ([size > 0]), with [FsMax] at most
    31 and a mean difference [sum / size] below [2 ^ 32], so that the
    division is defined and every shift count stays below 32,
    [compute_best_split] returns (its loop ends).  The two starting
    positions and the position that it returns lie between 0 and 31; the
    bit count that it returns is, modulo [2 ^ 32], the cost
    [bits_for_fs] of the position that it returns; and when the costs of
    the positions from 0 to 31 fit an [int], the returned cost is not
    above the cost of either of the two starting positions. *)
Theorem compute_best_split_result (FsMax : Z) (delta : list Z) (size : nat)
    (sum : Z) :
  (0 < size)%nat -> 0 <= FsMax <= 31 -> 0 <= sum < 2 ^ 64 ->
  sum / Z.of_nat size < 2 ^ 32 ->
  let start_fs :=
    64 - Z.min 64 (countl_zero64 (sum / Z.of_nat size) + 2) in
  exists fs bits,
    compute_best_split FsMax delta size sum = Some (fs, bits)
    /\ 0 <= start_fs /\ start_fs + 1 <= 31
    /\ 0 <= fs <= 31
    /\ bits = wrap 32 (bits_for_fs delta size fs)
    /\ ((forall f, 0 <= f <= 31 -> bits_for_fs delta size f < 2 ^ 31) ->
        bits <= bits_for_fs delta size start_fs
        /\ bits <= bits_for_fs delta size (start_fs + 1)).
Proof.
  intros Hsize HFs Hsum Hmean. cbv zeta. unfold compute_best_split. cbv zeta.
  assert (Hq0 : 0 <= sum / Z.of_nat size) by (apply Z.div_pos; lia).
  assert (Hclz : 32 <= countl_zero64 (sum / Z.of_nat size) <= 64).
  { unfold countl_zero64.
    destruct (Z.leb_spec (sum / Z.of_nat size) 0) as [_ | Hpos]; [lia|].
    assert (Z.log2 (sum / Z.of_nat size) < 32)
      by (apply Z.log2_lt_pow2; lia).
    pose proof (Z.log2_nonneg (sum / Z.of_nat size)). lia. }
  set (start_fs := 64 - Z.min 64 (countl_zero64 (sum / Z.of_nat size) + 2)).
  assert (Hstart : 0 <= start_fs <= 30) by (unfold start_fs; lia).
  pose proof (bits_for_fs_nonneg delta size start_fs) as Hn0.
  pose proof (bits_for_fs_nonneg delta size (start_fs + 1)) as Hn1.
  set (bits0 := bits_for_fs delta size start_fs) in *.
  set (bits1 := bits_for_fs delta size (start_fs + 1)) in *.
  assert (Hfinish :
    forall direction cand_fs bits,
      (direction = 1 \/ direction = -1) ->
      0 <= cand_fs <= 31 ->
      bits = to_int (bits_for_fs delta size cand_fs) ->
      exists c b,
        (if negb (bits0 =? bits1)
         then split_loop (Z.to_nat FsMax) FsMax delta size direction
                cand_fs bits
         else Some (cand_fs, bits)) = Some (c, b)
        /\ 0 <= c <= 31
        /\ b = to_int (bits_for_fs delta size c)
        /\ ((forall f, 0 <= f <= 31 -> bits_for_fs delta size f < 2 ^ 31) ->
            b <= bits)).
  { intros direction cand_fs bits Hdir Hc Hb.
    destruct (negb (bits0 =? bits1)).
    - destruct (split_loop_terminates (Z.to_nat FsMax) FsMax delta size
                  direction ltac:(lia) Hdir cand_fs bits ltac:(lia))
        as [[c b] Hr].
      { intros Hin. rewrite Z2Nat.id by lia. lia. }
      destruct (split_loop_within 31 (Z.to_nat FsMax) FsMax delta size
                  direction ltac:(lia) ltac:(lia) Hdir cand_fs bits (c, b)
                  Hc Hb Hr)
        as [Hrange [Hcost Hdesc]].
      cbn [fst snd] in *. exists c, b. repeat split; auto; lia.
    - exists cand_fs, bits. repeat split; auto; lia. }
  destruct (bits1 <=? bits0) eqn:Hcmp.
  - destruct (Hfinish 1 (start_fs + 1) (to_int bits1)
                ltac:(left; reflexivity) ltac:(lia) eq_refl)
      as [c [b [Hres [Hrange [Hcost Hdesc]]]]].
    rewrite Hres. exists (wrap 32 c), (wrap 32 b).
    rewrite (wrap_small 32 c) by lia.
    split; [reflexivity|]. split; [lia|]. split; [lia|].
    split; [exact Hrange|].
    split; [rewrite Hcost; apply wrap_to_int|].
    intros Hsmall. specialize (Hdesc Hsmall).
    pose proof (Hsmall start_fs ltac:(lia)) as Hs0.
    pose proof (Hsmall (start_fs + 1) ltac:(lia)) as Hs1.
    fold bits0 in Hs0. fold bits1 in Hs1.
    apply Z.leb_le in Hcmp.
    rewrite to_int_small in Hdesc by lia.
    pose proof (bits_for_fs_nonneg delta size c) as Hnc.
    pose proof (Hsmall c Hrange) as Hsc.
    assert (Hb : b = bits_for_fs delta size c)
      by (rewrite Hcost; apply to_int_small; lia).
    rewrite wrap_small by lia. lia.
  - destruct (Hfinish (-1) start_fs (to_int bits0)
                ltac:(right; reflexivity) ltac:(lia) eq_refl)
      as [c [b [Hres [Hrange [Hcost Hdesc]]]]].
    rewrite Hres. exists (wrap 32 c), (wrap 32 b).
    rewrite (wrap_small 32 c) by lia.
    split; [reflexivity|]. split; [lia|]. split; [lia|].
    split; [exact Hrange|].
    split; [rewrite Hcost; apply wrap_to_int|].
    intros Hsmall. specialize (Hdesc Hsmall).
    pose proof (Hsmall start_fs ltac:(lia)) as Hs0.
    pose proof (Hsmall (start_fs + 1) ltac:(lia)) as Hs1.
    fold bits0 in Hs0. fold bits1 in Hs1.
    apply Z.leb_gt in Hcmp.
    rewrite to_int_small in Hdesc by lia.
    pose proof (bits_for_fs_nonneg delta size c) as Hnc.
    pose proof (Hsmall c Hrange) as Hsc.
    assert (Hb : b = bits_for_fs delta size c)
      by (rewrite Hcost; apply to_int_small; lia).
    rewrite wrap_small by lia. lia.
Qed.

End Split.

Section Block.
Context {traits : PixelTraits}.

(** The first loop of [encode_block] appends one value of [value_type]
    per pixel. *)
Lemma delta_loop_shape (block delta : list Z) (sum last : Z) :
  0 <= value_bits ->
  exists ds,
    fst (fst (fold_left delta_step block (delta, sum, last))) = delta ++ ds
    /\ List.length ds = List.length block
    /\ (forall d, In d ds -> 0 <= d < 2 ^ value_bits).
Proof.
  intros Hvb. revert delta sum last.
  induction block as [|px rest IH]; intros delta sum last.
  - exists []. rewrite app_nil_r.
    split; [reflexivity | split; [reflexivity | intros d []]].
  - cbn [fold_left delta_step].
    match goal with
    | |- context [fold_left delta_step rest (delta ++ [?c], ?s, ?l)] =>
        destruct (IH (delta ++ [c]) s l) as [ds [Heq [Hlen Hr]]];
        exists (c :: ds)
    end.
    rewrite Heq, <- app_assoc. split; [reflexivity|].
    split; [cbn [List.length]; rewrite Hlen; reflexivity|].
    intros d' [<- | Hd]; [apply wrap_range; exact Hvb | apply Hr; exact Hd].
Qed.

Lemma total_bound (B : Z) (l : list Z) :
  (forall d, In d l -> 0 <= d < B) ->
  0 <= total l <= Z.of_nat (List.length l) * (B - 1).
Proof.
  intros Hl. induction l as [|x l IH]; [cbn; lia|].
  cbn [total fold_right List.length]. fold (total l).
  assert (0 <= x < B) by (apply Hl; left; reflexivity).
  assert (0 <= total l <= Z.of_nat (List.length l) * (B - 1))
    by (apply IH; intros d Hd; apply Hl; right; exact Hd).
  rewrite Nat2Z.inj_succ. lia.
Qed.

Lemma raw_ops_bits (n : Z) (block : list Z) :
  ops_bits (map (fun px => write_bits px n) block)
  = n * Z.of_nat (List.length block).
Proof.
  induction block as [|px rest IH]; [cbn; lia|].
  cbn [map ops_bits fold_right op_bits List.length].
  fold (ops_bits (map (fun px => write_bits px n) rest)).
  rewrite IH, Nat2Z.inj_succ. lia.
Qed.

(** The three branches of [encode_block]: a header and its payload. *)
Lemma encode_block_cases (MaxBlockSize : nat) (block : list Z)
    (last_value : Z) :
  (List.length block <= MaxBlockSize)%nat ->
  exists h payload last,
    encode_block MaxBlockSize block last_value
    = Some (write_bits h kFsBits :: payload, last)
    /\ ((h = 0 /\ payload = [])
        \/ (h = wrap 32 (kFsMax + 1)
            /\ payload = map (fun px => write_bits px kPixelBits) block)
        \/ (exists fs,
              h = wrap 32 (fs + 1) /\ 0 <= fs < kFsMax
              /\ wrap 32 (bits_for_fs (deltas block last_value)
                            (List.length block) fs)
                 < wrap 64 (kPixelBits * Z.of_nat (List.length block))
              /\ payload
                 = List.concat (map (rice_ops fs) (deltas block last_value)))).
Proof.
  intros Hlen. unfold encode_block, deltas.
  rewrite (proj2 (Nat.ltb_ge _ _) Hlen).
  pose proof (delta_loop_sum_range block [] 0 last_value ltac:(lia)) as Hsum.
  destruct (fold_left delta_step block ([], 0, last_value))
    as [[delta sum] last].
  cbn [fst snd] in *.
  destruct (sum =? 0).
  - exists 0, [], last. split; [reflexivity | left; split; reflexivity].
  - destruct (compute_best_split_spec kFsMax delta (List.length block) sum
                kFsMax_range Hsum) as [fs [bits [Hres [Hfs [Hbits _]]]]].
    rewrite Hres.
    destruct ((kFsMax <=? fs)
              || (wrap 64 (kPixelBits * Z.of_nat (List.length block))
                  <=? bits)) eqn:Hbr.
    + exists (wrap 32 (kFsMax + 1)),
        (map (fun px => write_bits px kPixelBits) block), last.
      split; [reflexivity | right; left; split; reflexivity].
    + apply orb_false_elim in Hbr. destruct Hbr as [H1 H2].
      apply Z.leb_gt in H1, H2.
      exists (wrap 32 (fs + 1)), (List.concat (map (rice_ops fs) delta)), last.
      split; [reflexivity|]. right; right. exists fs. subst bits.
      split; [reflexivity|]. split; [lia|]. split; [exact H2 | reflexivity].
Qed.

Lemma countr_zero_pow2 (k : Z) : 0 <= k -> countr_zero (2 ^ k) = k.
Proof.
  intros Hk. rewrite <- (Z2Nat.id k Hk). generalize (Z.to_nat k) as n.
  clear k Hk. intros n.
  assert (H : exists p, 2 ^ Z.of_nat n = Zpos p /\ pos_ctz p = Z.of_nat n).
  { induction n as [|n [p [Hp Hc]]].
    - exists 1%positive. split; reflexivity.
    - exists (xO p). rewrite Nat2Z.inj_succ, Z.pow_succ_r, Hp by lia.
      split; [reflexivity|]. cbn [pos_ctz]. lia. }
  destruct H as [p [Hp Hc]]. rewrite Hp. exact Hc.
Qed.

(** X7: for pixel traits whose [kBitCount] is [2 ^ k], [encode_block]
    first writes a header of [k] bits whose value [h] fits in [k] bits
    and names the branch taken: [0] with nothing after it, [2 ^ k - 1]
    followed by the pixels of the block written raw with [2 ^ k] bits
    each, or a value from [1] to [2 ^ k - 2] followed by the Rice coding
    of the difference values with split position [h - 1]. *)
Theorem encode_block_header_names_branch (k : Z) (MaxBlockSize : nat)
    (block : list Z) (last_value : Z) :
  1 <= k < 32 -> kBitCount = 2 ^ k ->
  (List.length block <= MaxBlockSize)%nat ->
  exists h payload last,
    encode_block MaxBlockSize block last_value
    = Some (write_bits h k :: payload, last)
    /\ 0 <= h < 2 ^ k
    /\ ((h = 0 /\ payload = [])
        \/ (h = 2 ^ k - 1
            /\ payload = map (fun px => write_bits px (2 ^ k)) block)
        \/ (1 <= h <= 2 ^ k - 2
            /\ payload
               = List.concat
                   (map (rice_ops (h - 1)) (deltas block last_value)))).
Proof.
  intros Hk Hbits Hlen.
  assert (Hpow : 2 <= 2 ^ k < 2 ^ 32).
  { split; [change 2 with (2 ^ 1) at 1; apply Z.pow_le_mono_r; lia|].
    apply Z.pow_lt_mono_r; lia. }
  assert (HPB : kPixelBits = 2 ^ k)
    by (unfold kPixelBits; rewrite Hbits; apply wrap_small; lia).
  assert (HFB : kFsBits = k)
    by (unfold kFsBits; rewrite HPB; apply countr_zero_pow2; lia).
  assert (HFM : kFsMax = 2 ^ k - 2)
    by (unfold kFsMax; rewrite HPB; apply wrap_small; lia).
  destruct (encode_block_cases MaxBlockSize block last_value Hlen)
    as [h [payload [last [Henc Hcases]]]].
  rewrite HFB in Henc. exists h, payload, last.
  split; [exact Henc|].
  destruct Hcases as [[-> ->] | [[-> ->] | [fs [-> [Hfs [_ ->]]]]]].
  - split; [lia | left; split; reflexivity].
  - rewrite HFM, HPB. rewrite wrap_small by lia.
    split; [lia | right; left; split; [lia | reflexivity]].
  - rewrite HFM in Hfs. rewrite wrap_small by lia.
    split; [lia|]. right; right. split; [lia|].
    replace (fs + 1 - 1) with fs by lia. reflexivity.
Qed.

(** X8: [encode_block] never expands a block: when [kBitCount] is
    between 2 and the width of the value type and the block is short
    enough for the 32-bit counters of [compute_best_split] not to
    overflow, the calls on the writer ask for at most [kFsBits] bits of
    header plus [kPixelBits] bits for each pixel of the block. *)
Theorem encode_block_never_expands (MaxBlockSize : nat) (block : list Z)
    (last_value : Z) :
  2 <= kBitCount <= value_bits ->
  Z.of_nat (List.length block) * 2 ^ (value_bits + 1) <= 2 ^ 32 ->
  (List.length block <= MaxBlockSize)%nat ->
  exists ops last,
    encode_block MaxBlockSize block last_value = Some (ops, last)
    /\ ops_bits ops
       <= kFsBits + kPixelBits * Z.of_nat (List.length block).
Proof.
  intros Hk Hn Hlen.
  assert (Hvb : 0 <= value_bits) by lia.
  assert (HPB0 : 0 <= kPixelBits)
    by (unfold kPixelBits; apply wrap_range; lia).
  destruct (encode_block_cases MaxBlockSize block last_value Hlen)
    as [h [payload [last [Henc Hcases]]]].
  exists (write_bits h kFsBits :: payload), last.
  split; [exact Henc|].
  cbn [ops_bits fold_right op_bits]. fold (ops_bits payload).
  destruct Hcases as [[_ ->] | [[_ ->] | [fs [_ [Hfs [Hlt ->]]]]]].
  - cbn [ops_bits fold_right]. nia.
  - rewrite raw_ops_bits. lia.
  - unfold deltas in *.
    destruct (delta_loop_shape block [] 0 last_value Hvb)
      as [ds [Heq [Hlds Hr]]].
    cbn [app] in Heq. rewrite Heq in *. rewrite <- Hlds in *.
    destruct ds as [|d0 ds'] eqn:Hds; [cbn; lia|]. rewrite <- Hds in *.
    assert (Hn1 : 1 <= Z.of_nat (List.length ds))
      by (rewrite Hds; cbn [List.length]; lia).
    clear Hds d0 ds'.
    assert (Hp : 0 < 2 ^ value_bits) by (apply Z.pow_pos_nonneg; lia).
    assert (Hp1 : 2 ^ (value_bits + 1) = 2 * 2 ^ value_bits)
      by (rewrite Z.pow_add_r by lia; change (2 ^ 1) with 2; lia).
    assert (Hv32 : value_bits + 1 <= 32).
    { apply (Z.pow_le_mono_r_iff 2); [lia | lia | nia]. }
    assert (Hlin : value_bits < 2 ^ value_bits)
      by (apply Z.pow_gt_lin_r; lia).
    assert (HPB : kPixelBits = kBitCount).
    { unfold kPixelBits. apply wrap_small. split; [lia|].
      apply Z.le_lt_trans with 31; lia. }
    assert (HFM : kFsMax = kBitCount - 2).
    { unfold kFsMax. rewrite HPB. apply wrap_small. split; [lia|].
      apply Z.le_lt_trans with 31; lia. }
    rewrite HFM in Hfs.
    pose proof (total_bound (2 ^ value_bits) ds Hr) as Htot.
    pose proof (total_shifted_le fs ds ltac:(lia)
                  ltac:(intros d Hd; apply Hr; exact Hd)) as Hsh.
    assert (Hn31 : Z.of_nat (List.length ds) <= 2 ^ 31) by nia.
    assert (Htot32 : total ds < 2 ^ 32) by nia.
    assert (Hsz : Z.of_nat (List.length ds) * (fs + 1) < 2 ^ 63) by nia.
    rewrite rice_ops_bits by (try (intros d Hd; apply Hr; exact Hd); lia).
    rewrite (bits_for_fs_exact Hvb ds fs Hr ltac:(lia) Htot32 Hsz) in Hlt.
    rewrite wrap_small in Hlt by nia.
    rewrite (wrap_small 64) in Hlt by nia.
    lia.
Qed.

End Block.

Lemma encode_block_header_names_branch_witness :
  exists h payload last,
    @encode_block uint16_traits 8 [7; 9; 4; 4] 7
    = Some (write_bits h 4 :: payload, last)
    /\ 0 <= h < 2 ^ 4
    /\ ((h = 0 /\ payload = [])
        \/ (h = 2 ^ 4 - 1
            /\ payload = map (fun px => write_bits px (2 ^ 4)) [7; 9; 4; 4])
        \/ (1 <= h <= 2 ^ 4 - 2
            /\ payload
               = List.concat
                   (map (rice_ops (h - 1))
                      (@deltas uint16_traits [7; 9; 4; 4] 7)))).
Proof.
  apply (@encode_block_header_names_branch uint16_traits 4 8 [7; 9; 4; 4] 7).
  - lia.
  - reflexivity.
  - simpl. lia.
Defined.

Lemma encode_block_never_expands_witness :
  exists ops last,
    @encode_block uint16_traits 8 [7; 9; 4; 4] 7 = Some (ops, last)
    /\ ops_bits ops
       <= @kFsBits uint16_traits
          + @kPixelBits uint16_traits * Z.of_nat (List.length [7; 9; 4; 4]).
Proof.
  apply (@encode_block_never_expands uint16_traits 8 [7; 9; 4; 4] 7).
  - cbn. lia.
  - cbn. lia.
  - simpl. lia.
Defined.

Lemma compute_best_split_result_witness :
  exists fs bits,
    @compute_best_split uint16_traits 14 [0; 2; 2; 2] 4 6 = Some (fs, bits)
    /\ 0 <= 64 - Z.min 64 (countl_zero64 (6 / Z.of_nat 4) + 2)
    /\ 64 - Z.min 64 (countl_zero64 (6 / Z.of_nat 4) + 2) + 1 <= 31
    /\ 0 <= fs <= 31
    /\ bits = wrap 32 (@bits_for_fs uint16_traits [0; 2; 2; 2] 4 fs)
    /\ ((forall f, 0 <= f <= 31 ->
                   @bits_for_fs uint16_traits [0; 2; 2; 2] 4 f < 2 ^ 31) ->
        bits <= @bits_for_fs uint16_traits [0; 2; 2; 2] 4
                  (64 - Z.min 64 (countl_zero64 (6 / Z.of_nat 4) + 2))
        /\ bits <= @bits_for_fs uint16_traits [0; 2; 2; 2] 4
                     (64 - Z.min 64 (countl_zero64 (6 / Z.of_nat 4) + 2)
                      + 1)).
Proof.
  apply (@compute_best_split_result uint16_traits 14 [0; 2; 2; 2] 4 6).
  - lia.
  - lia.
  - lia.
  - vm_compute. reflexivity.
Defined.

Lemma uint16_full_width : full_width uint16_traits 16.
Proof. split; reflexivity. Qed.

Lemma delta_step_is_zigzag_witness :
  @delta_step uint16_traits ([], 0, 10) 7 = ([5], 5, 7) /\ 0 <= 5 < 2 ^ 16.
Proof.
  exact (@delta_step_is_zigzag uint16_traits 16 uint16_full_width
           ltac:(lia) [] 0 10 7).
Defined.

Lemma delta_step_is_lossless_witness :
  exists code,
    fst (fst (@delta_step uint16_traits ([], 0, 10) 7)) = [] ++ [code]
    /\ wrap 16 (10 + (if Z.even code then code / 2 else - ((code + 1) / 2)))
       = wrap 16 7.
Proof.
  exact (@delta_step_is_lossless uint16_traits 16 uint16_full_width
           ltac:(lia) [] 0 10 7).
Defined.

End RiceppExtra.

Module LowlevelFacts.
Import Errno Fcntl Dwarfs Lowlevel DwarfsFacts.
Local Open Scope monad_scope.

Section Answers.
Context (build : build_config) {fs : filesystem_v2}.

Lemma op_lookup_answers (parent : Z) (name : string) :
  answered_once (run (op_lookup parent name)).
Proof.
  unfold answered_once, op_lookup.
  destruct (find_name parent name) as [entry|].
  - destruct (getattr entry) as [err st].
    destruct (err =? 0) eqn:Herr.
    + apply Z.eqb_eq in Herr. subst err. eexists. split; reflexivity.
    + unfold run, checked_reply_err, checked_call, bind, ret, emit, modify.
      cbn. rewrite Herr. cbn. eexists. split; reflexivity.
  - eexists. split; reflexivity.
Qed.

Lemma op_getattr_answers (ino : Z) : answered_once (run (op_getattr ino)).
Proof.
  unfold answered_once, op_getattr, op_getattr_common, run.
  destruct (find ino) as [entry|].
  - destruct (getattr entry) as [err st].
    destruct (err =? 0) eqn:Herr;
      unfold checked_call, bind, ret, modify; cbn; rewrite Herr; cbn;
      eexists; split; reflexivity.
  - eexists. split; reflexivity.
Qed.

Lemma op_open_common_returns (userdata : dwarfs_userdata)
    (found : option inode_view) (fi : fuse_file_info) :
  exists fi' err, op_open_common userdata found fi = (fi', Return err).
Proof.
  unfold op_open_common, checked_call.
  destruct found as [entry|]; [|eexists; eexists; reflexivity].
  destruct (is_directory entry); [eexists; eexists; reflexivity|].
  destruct (negb (Z.land (flags fi) O_ACCMODE =? O_RDONLY)
            || negb (Z.land (flags fi) (Z.lor O_APPEND O_TRUNC) =? 0));
    eexists; eexists; reflexivity.
Qed.

Lemma op_open_answers (userdata : dwarfs_userdata) (ino : Z)
    (fi : fuse_file_info) :
  answered_once (run (op_open userdata ino fi)).
Proof.
  destruct (op_open_common_returns userdata (find ino) fi) as [fi' [err H]].
  unfold answered_once. rewrite (op_open_reply userdata ino fi fi' err H).
  eexists. split; [reflexivity|]. destruct (err =? 0); reflexivity.
Qed.

Lemma op_getxattr_answers (userdata : dwarfs_userdata) (ino : Z)
    (name : string) (size : Z) :
  answered_once (run (op_getxattr build userdata ino name size)).
Proof.
  unfold answered_once. rewrite op_getxattr_resolver.
  destruct (synthesized_value build userdata ino name) as [value|].
  - destruct (string_dec value EmptyString) as [-> | Hne].
    + rewrite run_getxattr_reply_empty. eexists. split; reflexivity.
    + rewrite run_getxattr_reply_value by exact Hne.
      destruct (size =? 0); [eexists; split; reflexivity|].
      destruct (strlen value <=? size); eexists; split; reflexivity.
  - destruct (String.eqb name inodeinfo_xattr);
      [eexists; split; reflexivity|].
    rewrite run_getxattr_reply_empty. eexists. split; reflexivity.
Qed.

Lemma op_listxattr_answers (ino size : Z) :
  answered_once (run (op_listxattr ino size)).
Proof.
  unfold answered_once. rewrite op_listxattr_names. cbv zeta.
  destruct (size =? 0); [eexists; split; reflexivity|].
  destruct (_ <=? size); eexists; split; reflexivity.
Qed.

Section More.
Context {more : filesystem_v2_more fs}.
Context (WIN32 : bool) (copied_f_flag : vfs_stat -> Z).

(** [op_access] answers with the code that [access] returns, with the
    errno of a [system_error], and with EIO for another exception. *)
Lemma op_access_run (uid gid ino mode : Z) :
  run (op_access uid gid ino mode)
  = [fuse_reply_err
       match find ino with
       | None => ENOENT
       | Some entry =>
           match access entry mode uid gid with
           | Ok err => err
           | Throw (system_error errno) => errno
           | Throw _ => EIO
           end
       end].
Proof.
  unfold run, op_access, op_access_common, bind, checked_call.
  destruct (find ino) as [entry|]; [|reflexivity].
  destruct (access entry mode uid gid) as [err | [errno | what | what]];
    reflexivity.
Qed.

End More.

(** X9: each of the lookup, getattr, open and access requests is
    answered exactly once: the only event of the request is one reply,
    whether the inode is found or not and whatever error code [getattr]
    or [access] returns; for [access], the one call of these requests
    that is taken to throw, also when it throws.  (The accessors [find],
    [find_name], [getattr], [is_directory] and [inode_num] of the file
    system are taken as functions that return.) *)
Theorem requests_are_answered_once {more : filesystem_v2_more fs}
    (userdata : dwarfs_userdata) (fi : fuse_file_info) (name : string)
    (ino mode uid gid : Z) :
  answered_once (run (op_lookup ino name))
  /\ answered_once (run (op_getattr ino))
  /\ answered_once (run (op_open userdata ino fi))
  /\ answered_once (run (op_access uid gid ino mode)).
Proof.
  split; [apply op_lookup_answers|].
  split; [apply op_getattr_answers|].
  split; [apply op_open_answers|].
  unfold answered_once. rewrite op_access_run.
  eexists. split; reflexivity.
Qed.

(** X25: each getxattr and listxattr request is answered exactly once,
    for every inode, name and size: with the size, with the value or
    with an error. *)
Theorem xattr_requests_are_answered_once (userdata : dwarfs_userdata)
    (name : string) (ino size : Z) :
  answered_once (run (op_getxattr build userdata ino name size))
  /\ answered_once (run (op_listxattr ino size)).
Proof.
  split; [apply op_getxattr_answers | apply op_listxattr_answers].
Qed.

Section Links.
Context {more : filesystem_v2_more fs}.
Context (WIN32 : bool) (copied_f_flag : vfs_stat -> Z).

Lemma lor_ST_RDONLY (x : Z) : Z.land (Z.lor x ST_RDONLY) ST_RDONLY = ST_RDONLY.
Proof.
  rewrite Z.land_lor_distr_l, Z.land_diag. rewrite Z.lor_comm.
  apply Z.bits_inj'. intros n Hn.
  rewrite Z.lor_spec, Z.land_spec.
  destruct (Z.testbit ST_RDONLY n); [reflexivity|].
  cbn [orb]. apply andb_false_r.
Qed.

(** X10: the readlink and statfs requests are answered exactly once; a
    readlink reply with a non-empty target carries the string that
    [readlink] stored for the inode together with the result 0; a statfs
    reply with a written buffer carries the [vfs_stat] for which
    [statvfs] returned 0, and on a system other than Windows its
    [f_flag] has [ST_RDONLY] set when the file system is read-only. *)
Theorem readlink_statfs_replies (ino : Z) :
  (exists ev, run_link (op_readlink ino) = [ev])
  /\ (forall link,
        In (fuse_reply_readlink link) (run_link (op_readlink ino)) ->
        link <> EmptyString ->
        exists entry, find ino = Some entry /\ readlink entry = Ok (0, link))
  /\ (exists ev, run_link (op_statfs WIN32 copied_f_flag) = [ev])
  /\ (forall st,
        In (fuse_reply_statfs (Some st))
           (run_link (op_statfs WIN32 copied_f_flag)) ->
        statvfs = Ok (0, f_copied st)
        /\ (WIN32 = false -> vfs_readonly (f_copied st) = true ->
            Z.land (f_flag st) ST_RDONLY = ST_RDONLY)).
Proof.
  split; [|split; [|split]].
  - unfold run_link, op_readlink, op_readlink_common, checked_call, bind.
    destruct (find ino) as [entry|]; [|eexists; reflexivity].
    destruct (readlink entry) as [[err str] | [errno | what | what]];
      cbn; try (eexists; reflexivity).
    + destruct (err =? 0); eexists; reflexivity.
    + destruct (errno =? 0); eexists; reflexivity.
  - intros link Hin Hne.
    unfold run_link, op_readlink, op_readlink_common, checked_call, bind in Hin.
    destruct (find ino) as [entry|];
      [|cbn in Hin; destruct Hin as [H | []]; discriminate H].
    exists entry. split; [reflexivity|].
    destruct (readlink entry) as [[err str] | [errno | what | what]];
      cbn in Hin.
    + destruct (err =? 0) eqn:Herr; cbn in Hin; destruct Hin as [H | []];
        [|discriminate H].
      injection H as ->. apply Z.eqb_eq in Herr. subst err. reflexivity.
    + destruct (errno =? 0); cbn in Hin; destruct Hin as [H | []];
        [|discriminate H].
      injection H as <-. contradiction Hne. reflexivity.
    + destruct Hin as [H | []]. discriminate H.
    + destruct Hin as [H | []]. discriminate H.
  - unfold run_link, op_statfs, op_statfs_common, checked_call, bind.
    destruct statvfs as [[err stbuf] | [errno | what | what]];
      cbn; try (eexists; reflexivity).
    + destruct (err =? 0) eqn:Herr; cbn; rewrite Herr; eexists; reflexivity.
    + destruct (errno =? 0); eexists; reflexivity.
  - intros st.
    unfold run_link, op_statfs, op_statfs_common, checked_call, bind.
    destruct statvfs as [[err stbuf] | [errno | what | what]]; cbn.
    + destruct (err =? 0) eqn:Herr; cbn; rewrite Herr; cbn;
        intros [H | []]; [|discriminate H].
      injection H as <-. apply Z.eqb_eq in Herr. subst err.
      cbn [f_copied f_flag]. split; [reflexivity|].
      intros -> ->. cbn [negb andb]. apply lor_ST_RDONLY.
    + destruct (errno =? 0); cbn; intros [H | []]; discriminate H.
    + intros [H | []]. discriminate H.
    + intros [H | []]. discriminate H.
Qed.

End Links.

End Answers.

Import Sample SampleLinks.

Lemma readlink_statfs_replies_witness :
  (exists ev, run_link (op_readlink (more := small_more) 2) = [ev])
  /\ (exists ev,
        run_link (op_statfs (more := small_more) false (fun _ => 0)) = [ev])
  /\ Z.land 1 ST_RDONLY = ST_RDONLY.
Proof.
  destruct (@readlink_statfs_replies small_fs small_more false (fun _ => 0) 2)
    as [Hlink [_ [Hstat Hflag]]].
  split; [exact Hlink|]. split; [exact Hstat|].
  destruct (Hflag (@Build_native_statvfs small_fs small_more 3 1))
    as [_ Hro].
  - left. reflexivity.
  - exact (Hro eq_refl eq_refl).
Defined.

End LowlevelFacts.

Module ReadFacts.
Import Errno Fcntl Dwarfs Lowlevel DwarfsFacts LowlevelFacts.
Local Open Scope monad_scope.

Section Read.
Context {fs : filesystem_v2}.

(** X11: with a matching handle [op_read] issues the data read first.
    The result of the lambda is stored in an [int]; for results that fit
    one: a negative result [rv] of [readv] above [- 2 ^ 31] is answered
    with the error [-rv], a [system_error] with its errno when this is
    not 0, and any other exception with EIO, without data; a result that
    is not negative is answered with the buffer, followed by an error
    reply when [fuse_reply_iov] itself fails.  A [system_error] whose
    errno is 0 leaves the request without a reply. *)
Theorem op_read_outcomes (reply_rc ino size off : Z) (fi : fuse_file_info) :
  (FUSE_ROOT_ID + fh fi) mod 2 ^ 64 = ino ->
  (forall rv buf,
      readv ino size off = Ok (rv, buf) -> - 2 ^ 31 < rv < 0 ->
      run (op_read reply_rc ino size off fi)
      = [fs_readv ino size off; fuse_reply_err (- rv)])
  /\ (forall rv buf,
        readv ino size off = Ok (rv, buf) -> 0 <= rv ->
        - 2 ^ 31 < reply_rc < 2 ^ 31 ->
        run (op_read reply_rc ino size off fi)
        = fs_readv ino size off :: fuse_reply_iov buf
          :: (if reply_rc =? 0 then []
              else [fuse_reply_err (- reply_rc)]))
  /\ (forall errno,
        readv ino size off = Throw (system_error errno) ->
        - 2 ^ 31 <= errno < 2 ^ 31 -> errno <> 0 ->
        run (op_read reply_rc ino size off fi)
        = [fs_readv ino size off; fuse_reply_err errno])
  /\ (readv ino size off = Throw (system_error 0) ->
      run (op_read reply_rc ino size off fi) = [fs_readv ino size off])
  /\ (forall e,
        readv ino size off = Throw e ->
        (forall errno, e <> system_error errno) ->
        run (op_read reply_rc ino size off fi)
        = [fs_readv ino size off; fuse_reply_err EIO]).
Proof.
  intros Heq. apply Z.eqb_eq in Heq.
  unfold op_read. rewrite Heq. cbn [negb].
  unfold run, checked_reply_err, checked_call, bind, emit, modify, lift, ret,
    throw.
  cbn [app].
  split; [|split; [|split; [|split]]].
  - intros rv buf -> Hneg.
    destruct (Z.ltb_spec rv 0) as [_ | Hge]; [|lia].
    destruct (Z.eqb_spec (- rv) 0) as [H0 | _]; [lia|]. reflexivity.
  - intros rv buf -> Hnn Hrc.
    destruct (Z.ltb_spec rv 0) as [Hlt | _]; [lia|]. cbn [app].
    destruct (Z.eqb_spec reply_rc 0) as [-> | Hne]; [reflexivity|].
    destruct (Z.eqb_spec (- reply_rc) 0) as [H0 | _]; [lia|]. reflexivity.
  - intros errno -> Hrange Hne.
    destruct (Z.eqb_spec errno 0) as [H0 | _]; [contradiction|]. reflexivity.
  - intros ->. reflexivity.
  - intros e -> Hother.
    destruct e as [errno | what | what];
      [exfalso; apply (Hother errno); reflexivity | reflexivity | reflexivity].
Qed.

Lemma op_open_common_success (userdata : dwarfs_userdata)
    (found : option inode_view) (fi fi' : fuse_file_info) :
  op_open_common userdata found fi = (fi', Return 0) ->
  exists entry,
    found = Some entry /\ is_directory entry = false
    /\ fh fi' = inode_num entry.
Proof.
  unfold op_open_common, checked_call.
  destruct found as [entry|]; [|intros H; discriminate H].
  destruct (is_directory entry) eqn:Hdir; [intros H; discriminate H|].
  destruct (negb (Z.land (flags fi) O_ACCMODE =? O_RDONLY)
            || negb (Z.land (flags fi) (Z.lor O_APPEND O_TRUNC) =? 0));
    [intros H; discriminate H|].
  cbn [ret]. intros H. injection H as <-.
  exists entry. split; [reflexivity|]. split; [exact Hdir | reflexivity].
Qed.

(** X12: the handle that a successful open stores in [fi->fh] admits
    reads of the opened inode and of no other inode: on a file system
    whose [find(ino)] yields the inode numbered [ino - FUSE_ROOT_ID], a
    read of the opened inode with this handle issues the data read, and a
    read of any other inode with it is answered with EIO. *)
Theorem open_handle_reads_its_inode (userdata : dwarfs_userdata)
    (reply_rc ino ino' size off : Z) (fi fi' : fuse_file_info) :
  (forall entry, find ino = Some entry ->
                 inode_num entry = ino - FUSE_ROOT_ID) ->
  0 <= ino < 2 ^ 64 ->
  run (op_open userdata ino fi) = [fuse_reply_open fi'] ->
  (ino' = ino ->
   In (fs_readv ino' size off) (run (op_read reply_rc ino' size off fi')))
  /\ (ino' <> ino ->
      run (op_read reply_rc ino' size off fi') = [fuse_reply_err EIO]).
Proof.
  intros Hnum Hino Hopen.
  destruct (op_open_common_returns userdata (find ino) fi) as [fi0 [err H]].
  rewrite (op_open_reply userdata ino fi fi0 err H) in Hopen.
  destruct (err =? 0) eqn:Herr; [|discriminate Hopen].
  injection Hopen as ->. apply Z.eqb_eq in Herr. subst err.
  destruct (op_open_common_success userdata (find ino) fi fi' H)
    as [entry [Hfind [_ Hfh]]].
  assert (Hhandle : (FUSE_ROOT_ID + fh fi') mod 2 ^ 64 = ino).
  { rewrite Hfh, (Hnum entry Hfind).
    replace (FUSE_ROOT_ID + (ino - FUSE_ROOT_ID)) with ino by lia.
    apply Z.mod_small. exact Hino. }
  split.
  - intros ->. apply op_read_handle_match_reads. exact Hhandle.
  - intros Hne. unfold op_read.
    destruct (Z.eqb_spec ((FUSE_ROOT_ID + fh fi') mod 2 ^ 64) ino')
      as [Heq | _]; [congruence|].
    cbn [negb]. apply run_checked_reply_err_ret. unfold EIO. lia.
Qed.

End Read.

Section Xattr.
Context (build : build_config) {fs : filesystem_v2}.

Lemma strlen_pos (s : string) : s <> EmptyString -> 0 < strlen s.
Proof.
  destruct s as [|c s]; [contradiction|]. intros _. unfold strlen.
  cbn [String.length]. lia.
Qed.

Lemma extra_size_for_nonneg (userdata : dwarfs_userdata) (ino : Z)
    (name : string) :
  0 <= extra_size_for build userdata ino name.
Proof. unfold extra_size_for. destruct (_ && _); lia. Qed.

Lemma to_string_not_empty (n : Z) : to_string n <> EmptyString.
Proof.
  unfold to_string.
  destruct (Z.to_int n) as [d | d]; [|discriminate].
  destruct d; discriminate.
Qed.

Lemma append_nl_not_empty (s : string) : (s ++ nl)%string <> EmptyString.
Proof. destruct s; discriminate. Qed.



(** X14: for an inode that exists, and unless a running performance
    monitor gives an empty summary, the attributes that [op_getxattr]
    can read are those that [op_listxattr] lists for the inode: a listed
    name is answered with a positive size, any other name with the errno
    for a missing attribute. *)
Theorem listed_attributes_are_the_readable_ones (userdata : dwarfs_userdata)
    (ino : Z) (name : string) :
  find ino <> None ->
  perfmon userdata <> Some EmptyString ->
  (In name (listxattr_names ino) ->
   exists count,
     run (op_getxattr build userdata ino name 0) = [fuse_reply_xattr count]
     /\ 0 < count)
  /\ (~ In name (listxattr_names ino) ->
      run (op_getxattr build userdata ino name 0)
      = [fuse_reply_err (attribute_not_found build)]).
Proof.
  intros Hfind Hperf.
  assert (Hvalue : forall value,
             synthesized_value build userdata ino name = Some value ->
             value <> EmptyString).
  { unfold synthesized_value, perfmon_text. intros value.
    destruct ((ino =? FUSE_ROOT_ID) && String.eqb name pid_xattr).
    { intros H. injection H as <-. apply to_string_not_empty. }
    destruct ((ino =? FUSE_ROOT_ID) && String.eqb name perfmon_xattr).
    { intros H. injection H as <-.
      destruct (DWARFS_PERFMON_ENABLED build); [|discriminate].
      destruct (perfmon userdata) as [summary|]; [|discriminate].
      intros ->. apply Hperf. reflexivity. }
    destruct (String.eqb name inodeinfo_xattr); [|discriminate].
    destruct (find ino) as [entry|]; [|discriminate].
    intros H. injection H as <-. apply append_nl_not_empty. }
  assert (Hlisted : In name (listxattr_names ino) <->
                    synthesized_value build userdata ino name <> None).
  { unfold listxattr_names, synthesized_value.
    destruct (ino =? FUSE_ROOT_ID); cbn [andb In].
    - destruct (String.eqb_spec name pid_xattr) as [-> | Hpid];
        [split; [discriminate | auto]|].
      destruct (String.eqb_spec name perfmon_xattr) as [-> | Hpm];
        [split; [discriminate | auto]|].
      destruct (String.eqb_spec name inodeinfo_xattr) as [-> | Hii].
      + destruct (find ino); [split; [discriminate | auto] | contradiction].
      + split; [intros [H | [H | [H | []]]]; congruence | congruence].
    - destruct (String.eqb_spec name inodeinfo_xattr) as [-> | Hii].
      + destruct (find ino); [split; [discriminate | auto] | contradiction].
      + split; [intros [H | []]; congruence | congruence]. }
  rewrite op_getxattr_resolver. split.
  - intros Hin. apply Hlisted in Hin.
    destruct (synthesized_value build userdata ino name) as [value|];
      [|contradiction].
    pose proof (Hvalue value eq_refl) as Hne.
    rewrite run_getxattr_reply_value by exact Hne. cbn [Z.eqb].
    eexists. split; [reflexivity|].
    pose proof (strlen_pos value Hne).
    pose proof (extra_size_for_nonneg userdata ino name). lia.
  - intros Hnot.
    destruct (synthesized_value build userdata ino name) as [value|] eqn:Hsyn.
    + exfalso. apply Hnot, Hlisted. congruence.
    + destruct (String.eqb_spec name inodeinfo_xattr) as [-> | Hii].
      * exfalso. apply Hnot. unfold listxattr_names.
        destruct (ino =? FUSE_ROOT_ID); cbn [In]; auto.
      * apply run_getxattr_reply_empty.
Qed.

End Xattr.

Section Readdir.
Context {fs : filesystem_v2} (fuse_direntry_size : string -> Z)
        (resize_throws : Z -> option string).

(** When the buffer is allocated and the loop returns, [op_readdir]
    replies with the entries that the policy holds. *)
Lemma op_readdir_reply (ino size off : Z) (dirent : inode_view)
    (dir : directory_view) (p' : readdir_lowlevel_policy) :
  resize_throws size = None ->
  find ino = Some dirent -> opendir dirent = Some dir ->
  readdir_loop (ops := lowlevel_policy fuse_direntry_size)
    (Z.to_nat (dirsize dir - off)) dir off
    {| req_ := []; ino_ := ino; buf_size := size; buf_ := [];
       written_ := 0 |}
  = (p', Return tt) ->
  req_ p' = [] ->
  run (op_readdir fuse_direntry_size resize_throws ino size off)
  = [fuse_reply_direntries (buf_ p')].
Proof.
  intros Halloc Hfind Hdir Hloop Hreq.
  unfold run, op_readdir, checked_reply_err, checked_call, bind,
    op_readdir_common.
  rewrite Halloc.
  cbn [policy_find lowlevel_policy ino_]. rewrite Hfind, Hdir.
  unfold bind. rewrite Hloop.
  cbn [finalize lowlevel_policy lowlevel_finalize modify ret req_ Z.eqb negb].
  cbn [fst]. rewrite Hreq. reflexivity.
Qed.

Lemma offsets_app (off : Z) (k1 k2 : nat) :
  offsets off (k1 + k2)
  = offsets off k1 ++ offsets (off + Z.of_nat k1) k2.
Proof.
  revert off. induction k1 as [|k1 IH]; intros off.
  - cbn [Nat.add Z.of_nat]. rewrite Z.add_0_r. reflexivity.
  - cbn [Nat.add]. rewrite !offsets_cons, IH. cbn [app].
    replace (off + 1 + Z.of_nat k1) with (off + Z.of_nat (S k1)) by lia.
    reflexivity.
Qed.

(** The cookie of the last entry of a reply is the offset that follows
    the entries of the reply. *)
Lemma last_cookie (dir : directory_view) (k : nat) :
  forall (off : Z) (entries : list direntry),
    map Some entries = map (entry_at dir) (offsets off k) ->
    List.last (map d_off entries) off = off + Z.of_nat k.
Proof.
  induction k as [|k IH]; intros off entries Hmap.
  - destruct entries; [cbn; lia | discriminate Hmap].
  - rewrite offsets_cons in Hmap.
    destruct entries as [|e es]; [discriminate Hmap|].
    cbn [map] in Hmap. injection Hmap as He Hes.
    cbn [map]. rewrite RiceppFacts.last_cons.
    assert (Hoff : d_off e = off + 1).
    { unfold entry_at in He.
      destruct (readdir dir off) as [[entry name]|]; [|discriminate He].
      injection He as ->. reflexivity. }
    rewrite Hoff, (IH (off + 1) es Hes). lia.
Qed.

(** X15: on a directory whose entries can all be read, and for a size
    whose buffer can be allocated, [op_readdir] answers with a list of
    entries, and this list is empty exactly when the offset is at or
    past [dirsize], or the buffer size is 0, or the entry at the offset
    needs more than the buffer size. *)
Theorem op_readdir_empty_reply (ino size off : Z) (dirent : inode_view)
    (dir : directory_view) :
  resize_throws size = None ->
  find ino = Some dirent -> opendir dirent = Some dir ->
  (forall i, off <= i < dirsize dir -> readdir dir i <> None) ->
  exists entries,
    run (op_readdir fuse_direntry_size resize_throws ino size off)
    = [fuse_reply_direntries entries]
    /\ (entries = [] <->
        dirsize dir <= off \/ size <= 0
        \/ size < entry_size fuse_direntry_size dir off).
Proof.
  intros Halloc Hfind Hdir Hsome.
  set (p := {| req_ := []; ino_ := ino; buf_size := size; buf_ := [];
               written_ := 0 |}).
  destruct (Z.to_nat (dirsize dir - off)) as [|n] eqn:Hn.
  { exists []. split.
    - apply (op_readdir_reply ino size off dirent dir p Halloc Hfind Hdir);
        [rewrite Hn|]; reflexivity.
    - split; [intros _; left; lia | reflexivity]. }
  assert (Hlt : off < dirsize dir) by lia.
  assert (Hrest : Z.to_nat (dirsize dir - (off + 1)) = n) by lia.
  pose proof (fun p' H1 H2 =>
                op_readdir_reply ino size off dirent dir p' Halloc Hfind Hdir
                  H1 H2)
    as Hreply.
  rewrite Hn in Hreply. fold p in Hreply.
  cbn [readdir_loop] in Hreply. cbn [keep_going lowlevel_policy] in Hreply.
  change (written_ p) with 0 in Hreply.
  change (buf_size p) with size in Hreply.
  destruct (Z.ltb_spec 0 size) as [Hsize | Hsize].
  2:{ exists []. split; [apply (Hreply p); reflexivity|].
      split; [intros _; right; left; exact Hsize | reflexivity]. }
  unfold entry_size.
  destruct (readdir dir off) as [[entry name]|] eqn:Hread.
  2:{ exfalso. apply (Hsome off); [lia | exact Hread]. }
  unfold bind at 1 in Hreply. cbn [assert_some ret] in Hreply.
  unfold bind at 1 in Hreply. cbn [add_entry lowlevel_policy] in Hreply.
  unfold lowlevel_add_entry in Hreply.
  change (written_ p) with 0 in Hreply.
  change (buf_size p) with size in Hreply.
  destruct (Z.ltb_spec 0 size) as [_ | Hge]; [|lia].
  cbn [negb] in Hreply. rewrite Z.add_0_l in Hreply.
  destruct (Z.ltb_spec size (fuse_direntry_size name)) as [Hfull | Hfits].
  - exists []. split; [apply (Hreply p); reflexivity|].
    split; [intros _; right; right; exact Hfull | reflexivity].
  - cbn [ret negb] in Hreply.
    set (d := {| d_name := name; d_stat := snd (getattr entry);
                 d_off := off + 1 |}) in *.
    set (p1 := {| req_ := req_ p; ino_ := ino_ p; buf_size := size;
                  buf_ := buf_ p ++ [d];
                  written_ := fuse_direntry_size name |}) in *.
    destruct (readdir_loop_lowlevel fuse_direntry_size dir n (off + 1) p1)
      as [k [entries [_ [Hloop _]]]].
    { intros i Hi. apply in_offsets in Hi. apply Hsome. lia. }
    exists (d :: entries). split.
    + rewrite (Hreply _ Hloop eq_refl). reflexivity.
    + split; [intros H; discriminate H | intros [H | [H | H]]; lia].
Qed.

(** X16: reading a directory in several requests neither skips nor
    repeats an entry: when a request at offset [off] is answered with
    some entries, a request that continues at the cookie of the last of
    them (at [off] itself when there was none) is answered with the
    entries that follow, so that both replies together hold the entries
    at [off], [off + 1], ... in this order.  The buffers of both
    requests have sizes that can be allocated. *)
Theorem op_readdir_resumes_at_cookie (ino size1 size2 off : Z)
    (dirent : inode_view) (dir : directory_view)
    (entries1 : list direntry) :
  resize_throws size1 = None -> resize_throws size2 = None ->
  find ino = Some dirent -> opendir dirent = Some dir -> 0 <= off ->
  (forall i, 0 <= i < dirsize dir -> readdir dir i <> None) ->
  run (op_readdir fuse_direntry_size resize_throws ino size1 off)
  = [fuse_reply_direntries entries1] ->
  exists (k : nat) (entries2 : list direntry),
    run (op_readdir fuse_direntry_size resize_throws ino size2
           (List.last (map d_off entries1) off))
    = [fuse_reply_direntries entries2]
    /\ map Some (entries1 ++ entries2) = map (entry_at dir) (offsets off k)
    /\ off + Z.of_nat k <= Z.max off (dirsize dir).
Proof.
  intros Halloc1 Halloc2 Hfind Hdir Hoff Hsome Hrun.
  set (p := fun size => {| req_ := []; ino_ := ino; buf_size := size;
                           buf_ := []; written_ := 0 |}).
  destruct (readdir_loop_lowlevel fuse_direntry_size dir
              (Z.to_nat (dirsize dir - off)) off (p size1))
    as [k1 [es1 [Hk1 [Hloop1 [Hmap1 _]]]]].
  { intros i Hi. apply in_offsets in Hi. apply Hsome. lia. }
  rewrite (op_readdir_reply ino size1 off dirent dir _ Halloc1 Hfind Hdir
             Hloop1 eq_refl) in Hrun.
  cbn [policy_with buf_ p app] in Hrun. injection Hrun as <-.
  rewrite (last_cookie dir k1 off es1 Hmap1).
  destruct (readdir_loop_lowlevel fuse_direntry_size dir
              (Z.to_nat (dirsize dir - (off + Z.of_nat k1)))
              (off + Z.of_nat k1) (p size2))
    as [k2 [es2 [Hk2 [Hloop2 [Hmap2 _]]]]].
  { intros i Hi. apply in_offsets in Hi. apply Hsome. lia. }
  exists (k1 + k2)%nat, es2. split; [|split].
  - rewrite (op_readdir_reply ino size2 (off + Z.of_nat k1) dirent dir _
               Halloc2 Hfind Hdir Hloop2 eq_refl).
    reflexivity.
  - rewrite offsets_app, !map_app, Hmap1, Hmap2. reflexivity.
  - lia.
Qed.

End Readdir.

Import Sample.

Lemma op_read_outcomes_witness :
  run (@op_read small_fs 0 1 5 0 rdonly_info)
  = [fs_readv 1 5 0; fuse_reply_err (- - EIO)]
  /\ run (@op_read small_fs 0 2 5 0
            {| flags := O_RDONLY; fh := 1; direct_io := false;
               keep_cache := true |})
     = [fs_readv 2 5 0;
        fuse_reply_iov (["hello"%string] : list (@iovec small_fs))].
Proof.
  split.
  - apply (proj1 (@op_read_outcomes small_fs 0 1 5 0 rdonly_info eq_refl)
             (- EIO) []); [reflexivity | unfold EIO; lia].
  - apply (proj1 (proj2 (@op_read_outcomes small_fs 0 2 5 0
                           {| flags := O_RDONLY; fh := 1; direct_io := false;
                              keep_cache := true |} eq_refl))
             5 (["hello"%string] : list (@iovec small_fs)));
      [reflexivity | lia | lia].
Defined.

Lemma open_handle_reads_its_inode_witness :
  In (fs_readv 2 5 0)
     (run (@op_read small_fs 0 2 5 0
             {| flags := O_RDONLY; fh := 1; direct_io := false;
                keep_cache := true |}))
  /\ run (@op_read small_fs 0 1 5 0
            {| flags := O_RDONLY; fh := 1; direct_io := false;
               keep_cache := true |})
     = [fuse_reply_err EIO].
Proof.
  assert (Hnum : forall entry,
             @find small_fs 2 = Some entry ->
             @inode_num small_fs entry = 2 - FUSE_ROOT_ID).
  { intros entry H. vm_compute in H. injection H as <-. reflexivity. }
  split.
  - apply (proj1 (@open_handle_reads_its_inode small_fs (userdata_with None)
                    0 2 2 5 0 rdonly_info
                    {| flags := O_RDONLY; fh := 1; direct_io := false;
                       keep_cache := true |}
                    Hnum ltac:(lia) eq_refl)).
    reflexivity.
  - apply (proj2 (@open_handle_reads_its_inode small_fs (userdata_with None)
                    0 2 1 5 0 rdonly_info
                    {| flags := O_RDONLY; fh := 1; direct_io := false;
                       keep_cache := true |}
                    Hnum ltac:(lia) eq_refl)).
    discriminate.
Defined.


Lemma listed_attributes_are_the_readable_ones_witness :
  (exists count,
      run (op_getxattr (fs := small_fs) linux_build (userdata_with None) 2
             inodeinfo_xattr 0) = [fuse_reply_xattr count]
      /\ 0 < count)
  /\ run (op_getxattr (fs := small_fs) linux_build (userdata_with None) 2
            pid_xattr 0)
     = [fuse_reply_err ENODATA].
Proof.
  split.
  - apply (proj1 (@listed_attributes_are_the_readable_ones linux_build
                    small_fs (userdata_with None) 2 inodeinfo_xattr
                    ltac:(discriminate) ltac:(discriminate))).
    left. reflexivity.
  - apply (proj2 (@listed_attributes_are_the_readable_ones linux_build
                    small_fs (userdata_with None) 2 pid_xattr
                    ltac:(discriminate) ltac:(discriminate))).
    intros [H | []]. discriminate H.
Defined.

Lemma op_readdir_empty_reply_witness :
  exists entries,
    run (op_readdir (fs := small_fs) direntry_size small_resize
           FUSE_ROOT_ID 16 0)
    = [fuse_reply_direntries entries]
    /\ (entries = [] <->
        2 <= 0 \/ 16 <= 0
        \/ 16 < entry_size (fs := small_fs) direntry_size
                  [("bar"%string, 2); ("hello.txt"%string, 1)] 0).
Proof.
  apply (@op_readdir_empty_reply small_fs direntry_size small_resize
           FUSE_ROOT_ID 16 0
           (0, directory [("bar"%string, 2); ("hello.txt"%string, 1)])
           [("bar"%string, 2); ("hello.txt"%string, 1)]).
  - reflexivity.
  - reflexivity.
  - reflexivity.
  - intros i Hi. simpl in Hi.
    assert (Hcases : i = 0 \/ i = 1) by lia.
    destruct Hcases as [-> | ->]; discriminate.
Defined.

Lemma op_readdir_resumes_at_cookie_witness :
  exists (k : nat) (entries2 : list direntry),
    run (op_readdir (fs := small_fs) direntry_size small_resize
           FUSE_ROOT_ID 4096 1)
    = [fuse_reply_direntries entries2]
    /\ map Some
         ({| d_name := "bar"%string;
             d_stat := {| ist_ino := 3; ist_is_dir := true; ist_size := 0 |}
                       : @native_stat small_fs;
             d_off := 1 |} :: entries2)
       = map (entry_at (fs := small_fs)
                [("bar"%string, 2); ("hello.txt"%string, 1)])
           (offsets 0 k)
    /\ 0 + Z.of_nat k <= Z.max 0 2.
Proof.
  apply (@op_readdir_resumes_at_cookie small_fs direntry_size small_resize
           FUSE_ROOT_ID 40 4096 0
           (0, directory [("bar"%string, 2); ("hello.txt"%string, 1)])
           [("bar"%string, 2); ("hello.txt"%string, 1)]
           [{| d_name := "bar"%string;
               d_stat := {| ist_ino := 3; ist_is_dir := true; ist_size := 0 |}
                         : @native_stat small_fs;
               d_off := 1 |}]).
  - reflexivity.
  - reflexivity.
  - reflexivity.
  - reflexivity.
  - lia.
  - intros i Hi. simpl in Hi.
    assert (Hcases : i = 0 \/ i = 1) by lia.
    destruct Hcases as [-> | ->]; discriminate.
  - vm_compute. reflexivity.
Defined.

End ReadFacts.

Module CmdlineFacts.
Import Dwarfs Main Cmdline MainFacts.

Ltac step_result H v E :=
  apply rbind_ok in H; destruct H as [v [E H]]; cbv beta zeta in H.

Section OptionHdlFacts.
Context (build : build_config).

(** X17: starting without image and mountpoint, the first positional
    argument becomes the image and is dropped from the arguments (result
    0), the second is counted as the mountpoint and kept (result 1), and
    a third is an error (result -1); the members filled through the table
    [dwarfs_opts] are not touched. *)
Theorem option_hdl_positional_arguments (opts : option_strings)
    (image mountpoint extra : string) :
  fsimage opts = None -> seen_mountpoint opts = 0 ->
  exists o1 o2,
    option_hdl build image FUSE_OPT_KEY_NONOPT opts = (o1, Return 0)
    /\ fsimage o1 = Some image /\ seen_mountpoint o1 = 0
    /\ option_hdl build mountpoint FUSE_OPT_KEY_NONOPT o1 = (o2, Return 1)
    /\ fsimage o2 = Some image /\ seen_mountpoint o2 = 1
    /\ option_hdl build extra FUSE_OPT_KEY_NONOPT o2 = (o2, Return (-1))
    /\ same_table_members opts o2.
Proof.
  intros Himg Hmnt.
  exists (set_fsimage (Some image) opts),
    (set_seen_mountpoint 1 (set_fsimage (Some image) opts)).
  unfold option_hdl. cbn [Z.eqb FUSE_OPT_KEY_NONOPT Pos.eqb].
  rewrite Himg, Hmnt.
  cbn [set_fsimage set_seen_mountpoint fsimage seen_mountpoint Z.eqb negb
         Pos.eqb].
  unfold same_table_members.
  cbn [cachesize_str blocksize_str readahead_str debuglevel_str workers_str
         mlock_str decompress_ratio_str image_offset_str
         cache_tidy_strategy_str cache_tidy_interval_str
         cache_tidy_max_age_str seq_detector_thresh_str perfmon_enabled_str
         perfmon_trace_file_str enable_nlink readonly cache_image
         cache_files].
  rewrite Hmnt. cbn [Z.eqb negb].
  repeat split; exact Hmnt.
Qed.

(** What a single call of [option_hdl] keeps. *)
Lemma option_hdl_step (arg : string) (key : Z) (a : option_strings) :
  exists a' r,
    option_hdl build arg key a = (a', Return r)
    /\ (r = -1 \/ r = 0 \/ r = 1)
    /\ (forall image, fsimage a = Some image -> fsimage a' = Some image)
    /\ ((seen_mountpoint a <> 0 -> fsimage a <> None) ->
        seen_mountpoint a' <> 0 -> fsimage a' <> None)
    /\ (is_help a = true -> is_help a' = true)
    /\ (is_man a = true -> is_man a' = true)
    /\ same_table_members a a'.
Proof.
  unfold option_hdl, same_table_members.
  destruct (key =? FUSE_OPT_KEY_NONOPT).
  - destruct (Z.eqb_spec (seen_mountpoint a) 0) as [Hseen | Hseen];
      cbn [negb].
    + destruct (fsimage a) as [image|] eqn:Himg.
      * exists (set_seen_mountpoint 1 a), 1. cbn. rewrite Himg.
        repeat split; auto; try discriminate.
      * exists (set_fsimage (Some arg) a), 0. cbn.
        repeat split; auto; try discriminate.
    + exists a, (-1). repeat split; auto.
  - destruct (key =? FUSE_OPT_KEY_OPT); [|exists a, 1; repeat split; auto].
    destruct (String.prefix "-h" arg || String.prefix "--help" arg).
    { exists (set_is_help true a), (-1). cbn. repeat split; auto. }
    destruct (DWARFS_BUILTIN_MANPAGE build && String.prefix "--man" arg).
    { exists (set_is_man true a), (-1). cbn. repeat split; auto. }
    exists a, 1. repeat split; auto.
Qed.

Lemma parsed_invariant (a : option_strings) :
  parsed build a -> seen_mountpoint a <> 0 -> fsimage a <> None.
Proof.
  induction 1 as [|a arg key Hp IH | a a' Hp IH Himg Hseen Hhelp Hman].
  - intros H. contradiction H. reflexivity.
  - destruct (option_hdl_step arg key a)
      as [a' [r [Hcall [_ [_ [Hinv _]]]]]].
    rewrite Hcall. cbn [fst]. apply Hinv. exact IH.
  - rewrite Himg, Hseen. exact IH.
Qed.

(** X18: a call of [option_hdl] returns -1, 0 or 1, never replaces an
    image that is set, never clears the help or manual flag and leaves
    the members filled through the table [dwarfs_opts] alone; and in the
    options that [fuse_opt_parse] leaves behind a mountpoint has only
    been seen when the image is set. *)
Theorem option_hdl_keeps_image (arg : string) (key : Z)
    (a : option_strings) :
  (exists a' r,
      option_hdl build arg key a = (a', Return r)
      /\ (r = -1 \/ r = 0 \/ r = 1)
      /\ (forall image, fsimage a = Some image -> fsimage a' = Some image)
      /\ (is_help a = true -> is_help a' = true)
      /\ (is_man a = true -> is_man a' = true)
      /\ same_table_members a a')
  /\ (parsed build a -> seen_mountpoint a <> 0 -> fsimage a <> None).
Proof.
  split; [|apply parsed_invariant].
  destruct (option_hdl_step arg key a)
    as [a' [r [Hcall [Hr [Himg [_ [Hhelp [Hman Hsame]]]]]]]].
  exists a', r. repeat split; auto; apply Hsame.
Qed.

End OptionHdlFacts.

Section MainMore.
Context (build : build_config) {env : environment}.

(** The conditions under which [dwarfs_main] calls [load_filesystem]. *)
Lemma dwarfs_main_load_conditions (a : option_strings) (o : options) :
  In (call_load_filesystem o) (fst (dwarfs_main build a)) ->
  exists foreground o1 v,
    evaluate_options foreground (initial_options a) = Ok (inr o1)
    /\ Double.lt (decompress_ratio o1) Double.zero = false
    /\ Double.lt Double.one (decompress_ratio o1) = false
    /\ o = set_seq_detector_threshold v o1
    /\ seen_mountpoint (args o) <> 0
    /\ (In call_run_fuse (fst (dwarfs_main build a)) ->
        load_filesystem o = Ok tt
        /\ snd (dwarfs_main build a) = Ok run_fuse).
Proof.
  unfold dwarfs_main.
  destruct fuse_parse_cmdline as [[rc mountpoint] foreground].
  destruct ((rc =? -1)
            || match mountpoint with None => true | Some _ => false end).
  { destruct (DWARFS_BUILTIN_MANPAGE build && is_man (args (initial_options a)));
      cbn; intuition discriminate. }
  destruct (evaluate_options foreground (initial_options a))
    as [[name | o1] | e] eqn:Heval.
  - destruct foreground; cbn; intuition discriminate.
  - destruct (Double.lt (decompress_ratio o1) Double.zero) eqn:Hlow;
      [destruct foreground; cbn; intuition discriminate|].
    destruct (Double.lt Double.one (decompress_ratio o1)) eqn:Hhigh;
      [destruct foreground; cbn; intuition discriminate|].
    cbn [orb].
    destruct (or_default (seq_detector_thresh_str (args o1)) to_size_t
                kDefaultSeqDetectorThreshold) as [v | e] eqn:Hseq.
    2:{ destruct foreground; cbn; intuition discriminate. }
    destruct (DWARFS_BUILTIN_MANPAGE build
              && is_man (args (set_seq_detector_threshold v o1))).
    { destruct foreground; cbn; intuition discriminate. }
    destruct (Z.eqb_spec
                (seen_mountpoint (args (set_seq_detector_threshold v o1))) 0)
      as [Hseen | Hseen].
    { destruct foreground; cbn; intuition discriminate. }
    set (o2 := set_seq_detector_threshold v o1) in *.
    intros Hin. exists foreground, o1, v.
    assert (Ho : o = o2).
    { destruct (load_filesystem o2); destruct foreground; cbn in Hin;
        intuition (try discriminate; congruence). }
    subst o. repeat split; auto.
    + destruct (load_filesystem o2) as [[] | e]; [reflexivity|].
      destruct foreground; cbn in H; intuition discriminate.
    + destruct (load_filesystem o2) as [[] | e]; [reflexivity|].
      destruct foreground; cbn in H; intuition discriminate.
  - destruct e; destruct foreground; cbn; intuition discriminate.
Qed.

Lemma dwarfs_main_run_fuse_loads (a : option_strings) :
  In call_run_fuse (fst (dwarfs_main build a)) ->
  exists o, In (call_load_filesystem o) (fst (dwarfs_main build a)).
Proof.
  unfold dwarfs_main.
  destruct fuse_parse_cmdline as [[rc mountpoint] foreground].
  destruct ((rc =? -1)
            || match mountpoint with None => true | Some _ => false end).
  { destruct (DWARFS_BUILTIN_MANPAGE build && is_man (args (initial_options a)));
      cbn; intuition discriminate. }
  destruct (evaluate_options foreground (initial_options a))
    as [[name | o1] | e] eqn:Heval.
  - destruct foreground; cbn; intuition discriminate.
  - destruct (Double.lt (decompress_ratio o1) Double.zero
              || Double.lt Double.one (decompress_ratio o1)).
    { destruct foreground; cbn; intuition discriminate. }
    destruct (or_default (seq_detector_thresh_str (args o1)) to_size_t
                kDefaultSeqDetectorThreshold) as [v | e] eqn:Hseq.
    2:{ destruct foreground; cbn; intuition discriminate. }
    destruct (DWARFS_BUILTIN_MANPAGE build
              && is_man (args (set_seq_detector_threshold v o1))).
    { destruct foreground; cbn; intuition discriminate. }
    destruct (seen_mountpoint (args (set_seq_detector_threshold v o1)) =? 0).
    { destruct foreground; cbn; intuition discriminate. }
    intros _. exists (set_seq_detector_threshold v o1).
    destruct (load_filesystem (set_seq_detector_threshold v o1));
      destruct foreground; cbn; auto.
  - destruct e; destruct foreground; cbn; intuition discriminate.
Qed.

(** X19: [dwarfs_main] starts the FUSE session only after
    [load_filesystem] has been called and has returned without an
    exception, with a decompress ratio that is neither below 0.0 nor
    above 1.0 and a mountpoint seen by the option handler; the exit
    status is then the result of [run_fuse]. *)
Theorem run_fuse_only_after_load (a : option_strings) :
  In call_run_fuse (fst (dwarfs_main build a)) ->
  exists o,
    In (call_load_filesystem o) (fst (dwarfs_main build a))
    /\ load_filesystem o = Ok tt
    /\ args o = a
    /\ seen_mountpoint a <> 0
    /\ Double.lt (decompress_ratio o) Double.zero = false
    /\ Double.lt Double.one (decompress_ratio o) = false
    /\ snd (dwarfs_main build a) = Ok run_fuse.
Proof.
  intros Hrun.
  destruct (dwarfs_main_run_fuse_loads a Hrun) as [o Hload].
  exists o. split; [exact Hload|].
  destruct (dwarfs_main_load_conditions a o Hload)
    as [foreground [o1 [v [Heval [Hlow [Hhigh [-> [Hseen Hok]]]]]]]].
  destruct (Hok Hrun) as [Hfs Hstatus].
  destruct (evaluate_options_inr foreground a o1 Heval) as [Hargs _].
  change (args (set_seq_detector_threshold v o1)) with (args o1) in *.
  change (decompress_ratio (set_seq_detector_threshold v o1))
    with (decompress_ratio o1).
  rewrite Hargs in *. repeat split; auto.
Qed.

(** X20: the options with which [load_filesystem] is called name an
    image, whenever they were left behind by [fuse_opt_parse]: the
    pointer [opts.fsimage] that [load_filesystem] dereferences is not
    null. *)
Theorem load_filesystem_has_image (a : option_strings) (o : options) :
  parsed build a ->
  In (call_load_filesystem o) (fst (dwarfs_main build a)) ->
  exists image, fsimage (args o) = Some image.
Proof.
  intros Hparsed Hload.
  destruct (dwarfs_main_load_conditions a o Hload)
    as [foreground [o1 [v [Heval [_ [_ [-> [Hseen _]]]]]]]].
  destruct (evaluate_options_inr foreground a o1 Heval) as [Hargs _].
  change (args (set_seq_detector_threshold v o1)) with (args o1) in *.
  rewrite Hargs in *.
  pose proof (parsed_invariant build a Hparsed Hseen) as Himg.
  destruct (fsimage a) as [image|]; [exists image; reflexivity|].
  contradiction Himg. reflexivity.
Qed.

(** With only [workers] and [seq_detector] given, the first [try]
    block comes down to the conversion of the number of workers. *)
Lemma evaluate_options_numbers (foreground : bool) (a : option_strings) :
  only_numbers_given a ->
  evaluate_options foreground (initial_options a)
  = rbind (or_default (workers_str a) to_size_t 2)
      (fun v =>
         Ok (inr {| args := a;
                    cachesize := Z.shiftl 512 20;
                    blocksize := kDefaultBlockSize;
                    readahead := 0;
                    workers := v;
                    lock_mode := mlock_NONE;
                    decompress_ratio := Double.lit_0_8;
                    logopts_threshold :=
                      if foreground then logger_INFO else logger_WARN;
                    block_cache_tidy_strategy := NONE;
                    block_cache_tidy_interval := minutes 5;
                    block_cache_tidy_max_age := minutes 10;
                    seq_detector_threshold :=
                      kDefaultSeqDetectorThreshold |})).
Proof.
  intros [Hdebug [Hcache [Hblock [Hread [Hlock [Hratio Hstrategy]]]]]].
  unfold evaluate_options, initial_options.
  cbn [args set_logopts_threshold set_cachesize set_blocksize set_readahead
         set_workers set_lock_mode set_decompress_ratio].
  rewrite Hdebug, Hcache, Hblock, Hread, Hlock, Hratio.
  cbn [or_default rbind].
  destruct (or_default (workers_str a) to_size_t 2) as [v | e];
    [|reflexivity].
  cbn [rbind args set_logopts_threshold set_cachesize set_blocksize
         set_readahead set_workers set_lock_mode set_decompress_ratio
         cachesize blocksize readahead workers lock_mode decompress_ratio
         logopts_threshold block_cache_tidy_strategy
         block_cache_tidy_interval block_cache_tidy_max_age
         seq_detector_threshold].
  rewrite Hstrategy. reflexivity.
Qed.

(** X21: the same malformed number has two outcomes.  Given for
    [workers], the exception of the conversion is caught: a message is
    written and the exit status is 1.  Given for [seq_detector], whose
    conversion is outside the [try] block, the exception leaves
    [dwarfs_main] and no message is written. *)
Theorem malformed_number_outcomes (a : option_strings) (s : string)
    (e : exception) (rc : Z) (mountpoint : string) (foreground : bool) :
  fuse_parse_cmdline = (rc, Some mountpoint, foreground) -> rc <> -1 ->
  only_numbers_given a -> to_size_t s = Throw e ->
  let ev := if foreground then [install_fatal_signal_handler] else [] in
  (workers_str a = Some s ->
   exists msg, dwarfs_main build a = (ev ++ [print_err msg], Ok 1))
  /\ (workers_str a = None -> seq_detector_thresh_str a = Some s ->
      dwarfs_main build a = (ev, Throw e)).
Proof.
  intros Hcmd Hrc Hgiven Hthrow. cbv zeta.
  apply Z.eqb_neq in Hrc.
  unfold dwarfs_main. rewrite Hcmd, Hrc. cbn [orb].
  rewrite (evaluate_options_numbers foreground a Hgiven).
  split.
  - intros Hworkers. rewrite Hworkers. cbn [or_default]. rewrite Hthrow.
    cbn [rbind]. destruct e as [errno | what | what]; eexists; reflexivity.
  - intros Hworkers Hseq. rewrite Hworkers. cbn [or_default rbind].
    cbn [decompress_ratio args].
    replace (Double.lt Double.lit_0_8 Double.zero) with false by reflexivity.
    replace (Double.lt Double.one Double.lit_0_8) with false by reflexivity.
    cbn [orb]. rewrite Hseq. cbn [or_default]. rewrite Hthrow. reflexivity.
Qed.

(** Without a tidy strategy the first [try] block leaves the tidy
    settings as they were. *)
Lemma evaluate_options_without_strategy (foreground : bool)
    (o0 o : options) :
  evaluate_options foreground o0 = Ok (inr o) ->
  cache_tidy_strategy_str (args o0) = None ->
  block_cache_tidy_strategy o = block_cache_tidy_strategy o0
  /\ block_cache_tidy_interval o = block_cache_tidy_interval o0
  /\ block_cache_tidy_max_age o = block_cache_tidy_max_age o0.
Proof.
  intros H Hnone. unfold evaluate_options in H.
  step_result H threshold Ethreshold.
  step_result H vcache Ecache.
  step_result H vblock Eblock.
  step_result H vread Eread.
  step_result H vwork Ework.
  step_result H vlock Elock.
  step_result H vratio Eratio.
  change (args (set_decompress_ratio vratio
                  (set_lock_mode vlock
                     (set_workers vwork
                        (set_readahead vread
                           (set_blocksize vblock
                              (set_cachesize vcache
                                 (set_logopts_threshold threshold o0))))))))
    with (args o0) in H.
  rewrite Hnone in H. injection H as <-.
  repeat split.
Qed.

(** X22: the mount options [tidy_interval] and [tidy_max_age] have no
    effect unless [tidy_strategy] is given: whatever their strings are,
    the file system is loaded with the tidy strategy NONE, and
    [op_init_common] installs this strategy with the intervals of 5 and
    10 minutes. *)
Theorem tidy_times_need_strategy (a : option_strings) (o : options) :
  In (call_load_filesystem o) (fst (dwarfs_main build a)) ->
  cache_tidy_strategy_str a = None ->
  op_init_common o
  = [ set_num_workers (workers o);
      set_cache_tidy_config
        {| strategy := NONE;
           interval := 5 * 60 * 1000;
           expiry_time := 10 * 60 * 1000 |} ].
Proof.
  intros Hload Hnone.
  destruct (dwarfs_main_load_conditions a o Hload)
    as [foreground [o1 [v [Heval [_ [_ [-> _]]]]]]].
  destruct (evaluate_options_without_strategy foreground _ o1 Heval Hnone)
    as [Hstrategy [Hinterval Hage]].
  unfold op_init_common.
  change (block_cache_tidy_strategy (set_seq_detector_threshold v o1))
    with (block_cache_tidy_strategy o1).
  change (block_cache_tidy_interval (set_seq_detector_threshold v o1))
    with (block_cache_tidy_interval o1).
  change (block_cache_tidy_max_age (set_seq_detector_threshold v o1))
    with (block_cache_tidy_max_age o1).
  rewrite Hstrategy, Hinterval, Hage. reflexivity.
Qed.

End MainMore.

Import Sample.

Lemma option_hdl_positional_arguments_witness :
  exists o1 o2,
    option_hdl linux_build "image.dwarfs" FUSE_OPT_KEY_NONOPT unparsed_options
    = (o1, Return 0)
    /\ fsimage o1 = Some "image.dwarfs"%string /\ seen_mountpoint o1 = 0
    /\ option_hdl linux_build "mnt" FUSE_OPT_KEY_NONOPT o1 = (o2, Return 1)
    /\ fsimage o2 = Some "image.dwarfs"%string /\ seen_mountpoint o2 = 1
    /\ option_hdl linux_build "extra" FUSE_OPT_KEY_NONOPT o2
       = (o2, Return (-1))
    /\ same_table_members unparsed_options o2.
Proof.
  apply (option_hdl_positional_arguments linux_build unparsed_options
           "image.dwarfs" "mnt" "extra"); reflexivity.
Defined.

Lemma plain_args_parsed : parsed linux_build plain_args.
Proof.
  exact (parsed_option_hdl linux_build _ "mnt" FUSE_OPT_KEY_NONOPT
           (parsed_option_hdl linux_build _ "image.dwarfs"
              FUSE_OPT_KEY_NONOPT (parsed_start linux_build))).
Qed.

Lemma option_hdl_keeps_image_witness :
  seen_mountpoint plain_args = 1 /\ fsimage plain_args <> None.
Proof.
  split; [reflexivity|].
  apply (proj2 (option_hdl_keeps_image linux_build "-f" FUSE_OPT_KEY_OPT
                  plain_args)).
  - exact plain_args_parsed.
  - discriminate.
Defined.

Lemma run_fuse_only_after_load_witness :
  exists o,
    In (call_load_filesystem o)
       (fst (dwarfs_main (env := small_environment (0, Some "mnt"%string, false))
               linux_build plain_args))
    /\ load_filesystem (env := small_environment (0, Some "mnt"%string, false))
         o = Ok tt
    /\ args o = plain_args
    /\ seen_mountpoint plain_args <> 0
    /\ Double.lt (decompress_ratio o) Double.zero = false
    /\ Double.lt Double.one (decompress_ratio o) = false
    /\ snd (dwarfs_main (env := small_environment (0, Some "mnt"%string, false))
              linux_build plain_args)
       = Ok (run_fuse (environment := small_environment
                                        (0, Some "mnt"%string, false))).
Proof.
  apply (@run_fuse_only_after_load linux_build
           (small_environment (0, Some "mnt"%string, false)) plain_args).
  vm_compute. right. left. reflexivity.
Defined.

Lemma load_filesystem_has_image_witness :
  exists image, fsimage (args plain_options) = Some image.
Proof.
  apply (@load_filesystem_has_image linux_build
           (small_environment (0, Some "mnt"%string, false)) plain_args
           plain_options plain_args_parsed).
  vm_compute. left. reflexivity.
Defined.

(** [plain_args] with [-o workers=w] and [-o seq_detector=d]. *)
Lemma malformed_number_outcomes_witness :
  (exists msg,
      dwarfs_main (env := small_environment (0, Some "mnt"%string, false))
        linux_build (set_workers_str (Some "many"%string) plain_args)
      = ([] ++ [print_err msg], Ok 1))
  /\ dwarfs_main (env := small_environment (0, Some "mnt"%string, false))
       linux_build (set_seq_detector_thresh_str (Some "many"%string) plain_args)
     = ([], Throw (std_exception "invalid number")).
Proof.
  split.
  - apply (proj1 (@malformed_number_outcomes linux_build
                    (small_environment (0, Some "mnt"%string, false))
                    (set_workers_str (Some "many"%string) plain_args)
                    "many" (std_exception "invalid number") 0 "mnt" false
                    eq_refl ltac:(discriminate)
                    ltac:(repeat split) eq_refl)).
    reflexivity.
  - apply (proj2 (@malformed_number_outcomes linux_build
                    (small_environment (0, Some "mnt"%string, false))
                    (set_seq_detector_thresh_str (Some "many"%string)
                       plain_args)
                    "many" (std_exception "invalid number") 0 "mnt" false
                    eq_refl ltac:(discriminate)
                    ltac:(repeat split) eq_refl)); reflexivity.
Defined.

Lemma tidy_times_need_strategy_witness :
  op_init_common
    {| args := set_cache_tidy_interval_str (Some "soon"%string) plain_args;
       cachesize := 536870912;
       blocksize := 524288;
       readahead := 0;
       workers := 2;
       lock_mode := mlock_NONE;
       decompress_ratio := Double.lit_0_8;
       logopts_threshold := 2;
       block_cache_tidy_strategy := NONE;
       block_cache_tidy_interval := 300000;
       block_cache_tidy_max_age := 600000;
       seq_detector_threshold := 4 |}
  = [ set_num_workers 2;
      set_cache_tidy_config
        {| strategy := NONE;
           interval := 5 * 60 * 1000;
           expiry_time := 10 * 60 * 1000 |} ].
Proof.
  apply (@tidy_times_need_strategy linux_build
           (small_environment (0, Some "mnt"%string, false))
           (set_cache_tidy_interval_str (Some "soon"%string) plain_args)).
  - vm_compute. left. reflexivity.
  - reflexivity.
Defined.

End CmdlineFacts.

Module SessionFacts.
Import Session.

(** X23: [run_fuse] releases what it acquired, in the reverse order:
    after its calls no session, signal handler or mount is left, and the
    session loop runs with all three held.  The loop is entered exactly
    when the session was created, the signal handlers were set, the mount
    succeeded and the process was daemonized; otherwise the result is 1.
    [check_fusermount] is called exactly when the mount is what failed,
    and the last two calls always free the mountpoint and the
    arguments. *)
Theorem run_fuse_releases_what_it_acquired (lib : libfuse)
    (logger_DEBUG threshold : Z) (fuse_opts : fuse_cmdline_opts) :
  let calls := fst (run_fuse lib logger_DEBUG threshold fuse_opts) in
  let err := snd (run_fuse lib logger_DEBUG threshold fuse_opts) in
  held_after calls [] = Some []
  /\ (looped calls = true <->
      fuse_session_new lib = true /\ fuse_set_signal_handlers lib = 0
      /\ fuse_session_mount lib = 0 /\ fuse_daemonize lib = 0)
  /\ (looped calls = false -> err = 1)
  /\ (In check_fusermount calls <->
      fuse_session_new lib = true /\ fuse_set_signal_handlers lib = 0
      /\ fuse_session_mount lib <> 0)
  /\ (exists before,
        calls = before ++ [free_mountpoint; fuse_opt_free_args]).
Proof.
  cbv zeta. unfold run_fuse.
  destruct lib as [new sig mnt dmn loop loop_mt].
  cbn [fuse_session_new fuse_set_signal_handlers fuse_session_mount
         fuse_daemonize fuse_session_loop fuse_session_loop_mt].
  split; [|split; [|split; [|split]]].
  - destruct new; [|reflexivity].
    destruct sig; try reflexivity.
    destruct mnt; try reflexivity.
    destruct dmn; try reflexivity.
    destruct (singlethread fuse_opts); reflexivity.
  - destruct new; [|cbn; intuition discriminate].
    destruct sig; try (cbn; intuition discriminate).
    destruct mnt; try (cbn; intuition discriminate).
    destruct dmn; try (cbn; intuition discriminate).
    destruct (singlethread fuse_opts); cbn; intuition.
  - destruct new; [|reflexivity].
    destruct sig; try reflexivity.
    destruct mnt; try reflexivity.
    destruct dmn; try reflexivity.
    destruct (singlethread fuse_opts); cbn; intros H; discriminate H.
  - destruct new; [|cbn; intuition discriminate].
    destruct sig; try (cbn; intuition discriminate).
    destruct mnt.
    + destruct dmn; [destruct (singlethread fuse_opts)| |];
        cbn; intuition (try discriminate; congruence).
    + cbn. intuition (try discriminate; auto).
    + cbn. intuition (try discriminate; auto).
  - destruct new;
      [destruct (sig =? 0);
       [destruct (mnt =? 0);
        [destruct (dmn =? 0); [destruct (singlethread fuse_opts)|]|]|]|];
      cbn [fst app];
      match goal with
      | |- exists before, ?l = _ =>
          exists (removelast (removelast l)); reflexivity
      end.
Qed.

Import SampleSession.

Lemma run_fuse_releases_what_it_acquired_witness :
  held_after (fst (run_fuse failing_mount 4 2 sample_cmdline)) [] = Some []
  /\ snd (run_fuse failing_mount 4 2 sample_cmdline) = 1
  /\ In check_fusermount (fst (run_fuse failing_mount 4 2 sample_cmdline))
  /\ looped (fst (run_fuse working_libfuse 4 2 sample_cmdline)) = true.
Proof.
  destruct (run_fuse_releases_what_it_acquired failing_mount 4 2
              sample_cmdline) as [Hheld [_ [Herr [Hcheck _]]]].
  split; [exact Hheld|]. split; [apply Herr; reflexivity|].
  split.
  - apply Hcheck. split; [reflexivity|]. split; [reflexivity | discriminate].
  - destruct (run_fuse_releases_what_it_acquired working_libfuse 4 2
                sample_cmdline) as [_ [Hloop _]].
    apply Hloop. repeat split.
Defined.

End SessionFacts.

Module HighlevelFacts.
Import Errno Dwarfs Highlevel DwarfsFacts.
Local Open Scope monad_scope.

Section HighlevelReaddirFacts.
Context {fs : filesystem_v2}.
Context (find_path : string -> option inode_view)
        (filler : list direntry -> direntry -> Z).

(** The loop of [op_readdir_common] under the high-level policy hands
    the entries at [off], [off + 1], ... to the filler and stops after
    the first that the filler rejects. *)
Lemma readdir_loop_highlevel (dir : directory_view) (n : nat) :
  forall (off : Z) (p : readdir_policy_state),
    (forall i, In i (offsets off n) -> readdir dir i <> None) ->
    exists (k : nat) (entries : list direntry),
      (k <= n)%nat
      /\ readdir_loop (ops := highlevel_policy find_path filler) n dir off p
         = ({| path_ := path_ p; passed_ := passed_ p ++ entries |},
            Return tt)
      /\ map Some entries = map (entry_at dir) (offsets off k)
      /\ (forall es1 d es2,
            entries = es1 ++ d :: es2 -> es2 <> [] ->
            filler (passed_ p ++ es1) d = 0)
      /\ ((k < n)%nat ->
          exists es1 d,
            entries = es1 ++ [d] /\ filler (passed_ p ++ es1) d <> 0).
Proof.
  induction n as [|n IH]; intros off p Hsome.
  - exists 0%nat, []. cbn [readdir_loop offsets seq map].
    rewrite app_nil_r. destruct p. cbn [path_ passed_].
    repeat split; auto; try lia.
    intros es1 d es2 H. destruct es1; discriminate H.
  - rewrite offsets_cons in Hsome.
    cbn [readdir_loop]. cbn [keep_going highlevel_policy].
    destruct (readdir dir off) as [[entry name]|] eqn:Hread.
    2:{ exfalso. apply (Hsome off); [left; reflexivity | exact Hread]. }
    unfold bind at 1. cbn [assert_some ret].
    unfold bind at 1. cbn [add_entry highlevel_policy].
    unfold highlevel_add_entry. cbn [ret].
    set (d0 := {| d_name := name; d_stat := snd (getattr entry);
                  d_off := off + 1 |}).
    assert (Hentry : entry_at dir off = Some d0)
      by (unfold entry_at; rewrite Hread; reflexivity).
    destruct (Z.eqb_spec (filler (passed_ p) d0) 0) as [Hacc | Hrej];
      cbn [negb].
    + set (p' := {| path_ := path_ p; passed_ := passed_ p ++ [d0] |}).
      destruct (IH (off + 1) p') as [k [es [Hk [Hloop [Hmap [Hall Hlast]]]]]].
      { intros i Hi. apply Hsome. right. exact Hi. }
      exists (S k), (d0 :: es). split; [lia|]. split; [|split; [|split]].
      * rewrite Hloop. unfold p'. cbn [path_ passed_].
        rewrite <- app_assoc. reflexivity.
      * rewrite offsets_cons. cbn [map]. rewrite Hmap, Hentry. reflexivity.
      * intros es1 d es2 Hsplit Hne.
        destruct es1 as [|e es1].
        -- cbn [app] in Hsplit. injection Hsplit as <- _.
           rewrite app_nil_r. exact Hacc.
        -- cbn [app] in Hsplit. injection Hsplit as <- Hes.
           specialize (Hall es1 d es2 Hes Hne).
           unfold p' in Hall. cbn [passed_] in Hall.
           rewrite <- app_assoc in Hall. exact Hall.
      * intros Hlt. destruct (Hlast ltac:(lia)) as [es1 [d [Hes Hrej]]].
        exists (d0 :: es1), d. split; [rewrite Hes; reflexivity|].
        unfold p' in Hrej. cbn [passed_] in Hrej.
        rewrite <- app_assoc in Hrej. exact Hrej.
    + exists 1%nat, [d0]. split; [lia|]. split; [|split; [|split]].
      * reflexivity.
      * rewrite offsets_cons. cbn [offsets seq map]. rewrite Hentry.
        reflexivity.
      * intros es1 d es2 Hsplit Hne.
        destruct es1 as [|e es1]; cbn [app] in Hsplit.
        -- injection Hsplit as _ <-. contradiction Hne. reflexivity.
        -- injection Hsplit as _ Hes. destruct es1; discriminate Hes.
      * intros _. exists [], d0. split; [reflexivity|].
        rewrite app_nil_r. exact Hrej.
Qed.

(** X24: with the high-level API, [op_readdir] returns -ENOENT for a
    path that is not found and -ENOTDIR for one that is not a directory.
    On a directory it hands the entries at [off], [off + 1], ... to the
    filler, in this order and with the following offset as the cookie;
    every entry but the last was accepted by the filler; when it stops
    before [dirsize], the last entry handed over is one that the filler
    rejected; and the result is 0 in either case. *)
Theorem highlevel_readdir_fills_in_order (path : string) (off : Z) :
  (find_path path = None ->
   op_readdir find_path filler path off = ([], Return (- ENOENT)))
  /\ (forall dirent,
        find_path path = Some dirent -> opendir dirent = None ->
        op_readdir find_path filler path off = ([], Return (- ENOTDIR)))
  /\ (forall dirent dir,
        find_path path = Some dirent -> opendir dirent = Some dir ->
        (forall i, off <= i < dirsize dir -> readdir dir i <> None) ->
        exists (k : nat) (entries : list direntry),
          Z.of_nat k <= Z.max 0 (dirsize dir - off)
          /\ op_readdir find_path filler path off = (entries, Return (- 0))
          /\ map Some entries = map (entry_at dir) (offsets off k)
          /\ (forall es1 d es2,
                entries = es1 ++ d :: es2 -> es2 <> [] -> filler es1 d = 0)
          /\ (Z.of_nat k < dirsize dir - off ->
              exists es1 d, entries = es1 ++ [d] /\ filler es1 d <> 0)).
Proof.
  split; [|split].
  - intros Hfind. unfold op_readdir, checked_call, op_readdir_common.
    cbn [policy_find highlevel_policy path_]. rewrite Hfind. reflexivity.
  - intros dirent Hfind Hdir.
    unfold op_readdir, checked_call, op_readdir_common.
    cbn [policy_find highlevel_policy path_]. rewrite Hfind, Hdir.
    reflexivity.
  - intros dirent dir Hfind Hdir Hsome.
    set (p := {| path_ := path; passed_ := [] |}).
    destruct (readdir_loop_highlevel dir (Z.to_nat (dirsize dir - off)) off p)
      as [k [entries [Hk [Hloop [Hmap [Hall Hlast]]]]]].
    { intros i Hi. apply in_offsets in Hi. apply Hsome. lia. }
    exists k, entries. split; [lia|]. split; [|split; [|split]].
    + unfold op_readdir, checked_call, op_readdir_common.
      cbn [policy_find highlevel_policy path_]. rewrite Hfind, Hdir.
      fold p. unfold bind. rewrite Hloop. reflexivity.
    + exact Hmap.
    + exact Hall.
    + intros Hlt. apply Hlast. lia.
Qed.

End HighlevelReaddirFacts.

Import Sample.

(** A filler whose buffer takes a single entry. *)
Lemma highlevel_readdir_fills_in_order_witness :
  op_readdir (fs := small_fs) (fun _ => None) (fun _ _ => 0) "missing" 0
  = ([], Return (- ENOENT))
  /\ exists (k : nat) (entries : list direntry),
       Z.of_nat k <= Z.max 0 (2 - 0)
       /\ op_readdir (fs := small_fs) (fun _ => @find small_fs 1)
            (fun passed _ => Z.of_nat (List.length passed)) "/" 0
          = (entries, Return (- 0))
       /\ map Some entries
          = map (entry_at (fs := small_fs)
                   [("bar"%string, 2); ("hello.txt"%string, 1)])
              (offsets 0 k).
Proof.
  split.
  - apply (proj1 (@highlevel_readdir_fills_in_order small_fs (fun _ => None)
                    (fun _ _ => 0) "missing" 0)).
    reflexivity.
  - destruct (proj2 (proj2 (@highlevel_readdir_fills_in_order small_fs
                              (fun _ => @find small_fs 1)
                              (fun passed _ => Z.of_nat (List.length passed))
                              "/" 0))
                (0, directory [("bar"%string, 2); ("hello.txt"%string, 1)])
                [("bar"%string, 2); ("hello.txt"%string, 1)]
                eq_refl eq_refl)
      as [k [entries [Hk [Hrun [Hmap _]]]]].
    + intros i Hi. simpl in Hi.
      assert (Hcases : i = 0 \/ i = 1) by lia.
      destruct Hcases as [-> | ->]; discriminate.
    + exists k, entries. split; [exact Hk|]. split; [exact Hrun | exact Hmap].
Defined.

End HighlevelFacts.
